(** * stealth_patch.js: a shallow embedding of the injected script

    The script is one immediately-invoked function that rewrites host
    objects of a freshly created document: navigator properties, the
    canvas, WebGL and audio read-out methods, the permission query, the
    plugin lists and the automation markers on the global object.

    The embedding follows the script block by block.  Host objects are
    property tables, host methods are state-passing functions over the
    document's heap of typed arrays, and every [try { .. } catch (e) {}]
    of the script is a [try_] of the small exception monad below. *)

From Stdlib Require Import ZArith String Ascii Lia.
From Stdlib Require Import Floats.SpecFloat.
From stdpp Require Import gmap strings list.

Local Open Scope Z_scope.
Set Warnings "-register-all".

(** ** Numbers as the typed arrays see them *)

Module Num.

(** [ToInt32] of an integral Number: wrap-around into [-2^31, 2^31). *)
Definition to_int32 (z : Z) : Z := (z + 2 ^ 31) mod 2 ^ 32 - 2 ^ 31.

(** The JavaScript [a ^ b] on integral Numbers. *)
Definition js_xor (a b : Z) : Z :=
  to_int32 (Z.lxor (to_int32 a) (to_int32 b)).

(** Storing an integral Number into a [Uint8ClampedArray] slot. *)
Definition clamp_u8 (z : Z) : Z :=
  if z <? 0 then 0 else if 255 <? z then 255 else z.

(** What a [Uint8ClampedArray] slot can hold. *)
Definition is_byte (z : Z) : Prop := 0 <= z < 256.

(** Binary64 and binary32 as [spec_float]s with the IEEE 754 parameters. *)
Definition f64_add : spec_float -> spec_float -> spec_float := SFadd 53 1024.

(** Storing a Number into a [Float32Array] slot: round to nearest even
    at 24 bits of precision. *)
Definition to_f32 (x : spec_float) : spec_float :=
  match x with
  | S754_finite s m e => binary_round 24 128 s m e
  | _ => x
  end.

(** The literal [1e-7] as the double nearest to it: [m * 2^-76]. *)
Definition eps_mantissa : positive := 7555786372591432%positive.
Definition eps64 : spec_float := S754_finite false eps_mantissa (-76).

End Num.

(** ** The two noise loops *)

Module Noise.
Import Num.

Section StrideLoop.
Context {A : Type}.
Variable stride : nat.
Variable f : A -> A.

(** [for (let i = start; i < a.length; i += stride) a[i] = f(a[i]);]
    with an explicit bound on the number of iterations; [None] when
    the bound is reached before the loop condition fails. *)
Fixpoint stride_loop (fuel : nat) (i : nat) (a : list A) : option (list A) :=
  match a !! i with
  | None => Some a
  | Some x =>
      match fuel with
      | O => None
      | S fuel' => stride_loop fuel' (i + stride)%nat (<[i := f x]> a)
      end
  end.

(** One cell of the array after the loop has run from index [i]. *)
Definition cell_from (i j : nat) (x : A) : A :=
  if decide ((i <= j)%nat /\ ((j - i) mod stride)%nat = 0%nat) then f x else x.

(** What the loop computes, written index by index. *)
Definition stride_map (a : list A) : list A :=
  imap (fun i x => if decide ((i mod stride)%nat = 0%nat) then f x else x) a.
End StrideLoop.

(** Lines 72-74: [data.data[i] = data.data[i] ^ 0x11] every tenth byte. *)
Definition perturb_byte (b : Z) : Z := clamp_u8 (js_xor b 0x11).
Definition pixel_loop (a : list Z) : option (list Z) :=
  stride_loop 10 perturb_byte (length a) 0 a.

(** Lines 100-102: [data[i] = data[i] + 1e-7] every hundredth sample. *)
Definition perturb_sample (x : spec_float) : spec_float := to_f32 (f64_add x eps64).
Definition audio_loop (a : list spec_float) : option (list spec_float) :=
  stride_loop 100 perturb_sample (length a) 0 a.

End Noise.

(** ** Values, exceptions and property tables *)

Module JS.

(** Addresses of host objects (canvases, contexts, typed arrays). *)
Definition loc := nat.

(** The values the script creates or inspects.  Numbers that occur as
    values (parameter codes, lengths, [hardwareConcurrency]) are
    integral; samples and bytes live in the typed arrays of the
    document, not here. *)
Inductive value :=
| VUndef
| VNull
| VBool (b : bool)
| VNum (n : Z)
| VStr (s : string)
| VArr (items : list value)
| VObj (fields : list (string * value))
| VFn (name : string) (ret : value)   (* the closure [() => ret] and its [name] *)
| VRef (l : loc)           (* a host object of the document *)
| VPromise (v : value).    (* [Promise.resolve(v)] *)

Inductive exn := ReferenceError | TypeError | HostError (code : nat).

Inductive outcome (A : Type) :=
| Ret (a : A)
| Throw (e : exn).
Arguments Ret {A} a.
Arguments Throw {A} e.

(** [ToBoolean]. *)
Definition truthy (v : value) : bool :=
  match v with
  | VUndef | VNull => false
  | VBool b => b
  | VNum n => negb (n =? 0)
  | VStr s => negb (String.eqb s EmptyString)
  | _ => true
  end.

(** [v === n] for a number literal [n]. *)
Definition is_num (n : Z) (v : value) : bool :=
  match v with VNum m => m =? n | _ => false end.

(** [v === undefined]. *)
Definition is_undef (v : value) : bool :=
  match v with VUndef => true | _ => false end.

(** [v === s] for a string literal [s]. *)
Definition is_str (s : string) (v : value) : bool :=
  match v with VStr t => String.eqb t s | _ => false end.

Fixpoint assoc {A : Type} (k : string) (l : list (string * A)) : option A :=
  match l with
  | [] => None
  | (k', a) :: l' => if String.eqb k' k then Some a else assoc k l'
  end.

(** [v.name] on a truthy value: an object literal answers from its
    own fields, a closure with the name it was given, every other value
    of the language with [undefined] (no prototype of these carries a
    [name]).  A host object answers for itself: [None]. *)
Definition get_name (v : value) : option value :=
  match v with
  | VObj fields => Some (default VUndef (assoc "name" fields))
  | VFn name _ => Some (VStr name)
  | VRef _ => None
  | _ => Some VUndef
  end.

(** [v.length] on a truthy value. *)
Definition get_length (v : value) : value :=
  match v with
  | VArr items => VNum (Z.of_nat (length items))
  | VStr s => VNum (Z.of_nat (String.length s))
  | VObj fields => default VUndef (assoc "length" fields)
  | VFn _ _ => VNum 0
  | _ => VUndef
  end.

(** One own property: what reading it yields, and its attributes.
    Setters are left out, the script assigns to none of these. *)
Inductive kind :=
| Data (v : value) (writable : bool)
| Accessor (get : value).          (* a getter returning [get] *)

Record slot := Slot { s_kind : kind; s_enumerable : bool; s_configurable : bool }.

Definition slot_read (s : slot) : value :=
  match s_kind s with Data v _ => v | Accessor v => v end.

(** An ordinary object: own properties in creation order. *)
Record object := Obj { props : list (string * slot); extensible : bool }.

Definition own (o : object) (p : string) : option slot := assoc p (props o).

(** An array index: the canonical decimal numeral of an integer below
    [2^32 - 1]. *)
Definition digit (c : ascii) : option N :=
  let n := N_of_ascii c in
  if ((48 <=? n) && (n <=? 57))%N then Some (n - 48)%N else None.

Fixpoint numeral (acc : N) (s : string) : option N :=
  match s with
  | EmptyString => Some acc
  | String c s' =>
      match digit c with
      | Some dg => numeral (10 * acc + dg)%N s'
      | None => None
      end
  end.

Definition array_index (k : string) : option N :=
  match k with
  | EmptyString => None
  | String c rest =>
      if Ascii.eqb c "0" && negb (String.eqb rest EmptyString) then None
      else match numeral 0 k with
           | Some n => if (n <? 4294967295)%N then Some n else None
           | None => None
           end
  end.

Fixpoint insert_key (k : string) (n : N) (l : list (N * string)) : list (N * string) :=
  match l with
  | [] => [(n, k)]
  | (m, k') :: l' => if (n <? m)%N then (n, k) :: l else (m, k') :: insert_key k n l'
  end.

(** The keys that are array indices, in ascending order. *)
Definition index_keys (ks : list string) : list (N * string) :=
  foldr (fun k acc => match array_index k with
                      | Some n => insert_key k n acc
                      | None => acc
                      end) [] ks.

(** [OrdinaryOwnPropertyKeys]: array indices first, in ascending order,
    then the other names in the order of their creation. *)
Definition own_keys (ks : list string) : list string :=
  (index_keys ks).*2 ++ filter (fun k => array_index k = None) ks.

(** [Object.getOwnPropertyNames(o)]. *)
Definition getOwnPropertyNames (o : object) : list string := own_keys (props o).*1.

Fixpoint replace (p : string) (s : slot) (l : list (string * slot)) : list (string * slot) :=
  match l with
  | [] => []
  | (k, s') :: l' => if String.eqb k p then (k, s) :: l' else (k, s') :: replace p s l'
  end.

Definition remove (p : string) (l : list (string * slot)) : list (string * slot) :=
  filter (fun ks => ks.1 ≠ p) l.

(** The two descriptor shapes the script passes to
    [Object.defineProperty]: [{ get: () => v, configurable: true }] and
    [{ value: v, configurable: true }].  Every call site has
    [configurable] true, by default or explicitly. *)
Inductive descriptor := DGet (v : value) | DValue (v : value).

(** The property a descriptor creates on an object that lacks it:
    the attributes the descriptor leaves out default to [false]. *)
Definition created (d : descriptor) : slot :=
  match d with
  | DGet v => Slot (Accessor v) false true
  | DValue v => Slot (Data v false) false true
  end.

(** The property a descriptor makes of a configurable one: attributes
    the descriptor leaves out stay, except across a change of kind. *)
Definition redefined (d : descriptor) (cur : slot) : slot :=
  let k := match d, s_kind cur with
           | DGet v, _ => Accessor v
           | DValue v, Data _ w => Data v w
           | DValue v, Accessor _ => Data v false
           end in
  Slot k (s_enumerable cur) true.

(** [Object.defineProperty(o, p, d)] ([ValidateAndApplyPropertyDescriptor]
    for these descriptors): [None] is the [TypeError]. *)
Definition define (o : object) (p : string) (d : descriptor) : option object :=
  match own o p with
  | None =>
      if extensible o
      then Some (Obj (props o ++ [(p, created d)]) (extensible o))
      else None
  | Some cur =>
      if s_configurable cur
      then Some (Obj (replace p (redefined d cur) (props o)) (extensible o))
      else None
  end.

(** Strict-mode [delete o[p]]: [None] is the [TypeError] for a
    property that is not configurable. *)
Definition delete_prop (o : object) (p : string) : option object :=
  match own o p with
  | None => Some o
  | Some cur =>
      if s_configurable cur then Some (Obj (remove p (props o)) (extensible o))
      else None
  end.

(** [navigator]: the instance and its prototype ([navigator.__proto__],
    [None] when it is [null]). *)
Record navigator_obj := Nav { nav_own : object; nav_proto : option object }.

(** [navigator.p]: own property first, then the prototype's. *)
Definition nav_get (n : navigator_obj) (p : string) : value :=
  match own (nav_own n) p with
  | Some s => slot_read s
  | None =>
      match nav_proto n with
      | Some pr => from_option slot_read VUndef (own pr p)
      | None => VUndef
      end
  end.

End JS.

(** ** The document and its host methods *)

Module Host.
Import JS.

Section Doc.
(** Whatever else the engine keeps per document (canvas bitmaps,
    context state, GPU identity); the script never looks inside. *)
Context {X : Type}.

(** The heap of one document: the [Uint8ClampedArray] behind each
    [ImageData], the [Float32Array]s, and the engine's own state. *)
Record doc := Doc {
  u8 : gmap loc (list Z);
  f32 : gmap loc (list spec_float);
  engine : X;
}.

(** A host method: [f.apply(this, arguments)] run in a document. *)
Definition meth := doc -> value -> list value -> doc * outcome value.

(** [f.apply(this, arguments)] where [f] may be [undefined]. *)
Definition call (f : option meth) : meth :=
  fun d this args =>
    match f with
    | Some g => g d this args
    | None => (d, Throw TypeError)
    end.

(** One method property of a prototype: its value ([None] for
    [undefined]) and whether assignment to it succeeds. *)
Record mslot := MSlot { m_fn : option meth; m_writable : bool }.

(** Calling the method an interface holds in its slot. *)
Definition invoke (ms : option mslot) : meth := call (ms ≫= m_fn).

(** What [this.getContext], [ctx.fillStyle = ..] and [ctx.fillRect]
    resolve to on the objects themselves, and what a host object
    answers when its [name] is read; the script replaces none of
    them. *)
Record canvas_natives := CanvasNatives {
  getContext : option meth;
  setFillStyle : meth;
  fillRect : meth;
  readName : doc -> loc -> outcome value;
}.

(** The global bindings the script reads; [None] is an identifier
    that is not defined (a [ReferenceError] on use). *)
Record env := Env {
  navigator : option navigator_obj;
  permissions : option mslot;          (* [navigator.permissions.query]; [None]: no [permissions] *)
  canvasElement : option mslot;        (* [HTMLCanvasElement.prototype.toDataURL] *)
  context2d : option mslot;            (* [CanvasRenderingContext2D.prototype.getImageData] *)
  webgl : option mslot;                (* [WebGLRenderingContext.prototype.getParameter] *)
  audioBuffer : option mslot;          (* [AudioBuffer.prototype.getChannelData] *)
  notification : option (doc -> value);(* [Notification.permission], read live *)
  window : option object;
  natives : canvas_natives;
}.
End Doc.
Arguments doc X : clear implicits.
Arguments meth X : clear implicits.
Arguments mslot X : clear implicits.
Arguments canvas_natives X : clear implicits.
Arguments env X : clear implicits.

End Host.

(** ** The replacement methods (lines 54-65, 68-77, 83-90, 96-105, 131-139) *)

Module Wrappers.
Import JS Host Noise.

Section Wrappers.
Context {X : Type}.

(** Lines 55-63 of the [toDataURL] replacement: get the 2D context of
    [this] and fill a transparent 1x1 rectangle; every failure is
    swallowed, what the host did before failing stays done. *)
Definition touch (host : canvas_natives X) (d : doc X) (this : value) : doc X :=
  match getContext host with
  | None => d
  | Some gc =>
      let (d1, r) := gc d this [VStr "2d"] in
      match r with
      | Throw _ => d1
      | Ret ctx =>
          if truthy ctx then
            let (d2, r2) := setFillStyle host d1 ctx [VStr "rgba(0,0,0,0)"] in
            match r2 with
            | Throw _ => d2
            | Ret _ => (fillRect host d2 ctx [VNum 0; VNum 0; VNum 1; VNum 1]).1
            end
          else d1
      end
  end.

Definition toDataURL_patch (host : canvas_natives X) (orig : option (meth X)) : meth X :=
  fun d this args => call orig (touch host d this) this args.

(** Lines 70-75: the loop writes into [data.data] in place; a [data]
    without such an array makes the loop header throw, which the
    [try] swallows.  The arrays that can be written are those of the
    document's heap: a host object with a byte array behind [data].
    A plain object that carries a writable array-like under [data]
    would go through the same loop; results of that shape are not
    covered here, and the statements about this function leave them
    out. *)
Definition add_pixel_noise (d : doc X) (data : value) : doc X :=
  match data with
  | VRef l =>
      match u8 d !! l with
      | Some a => Doc (<[l := default a (pixel_loop a)]> (u8 d)) (f32 d) (engine d)
      | None => d
      end
  | _ => d
  end.

Definition getImageData_patch (orig : option (meth X)) : meth X :=
  fun d this args =>
    let (d1, r) := call orig d this args in
    match r with
    | Throw e => (d1, Throw e)
    | Ret data => (add_pixel_noise d1 data, Ret data)
    end.

Definition getParameter_patch (orig : option (meth X)) : meth X :=
  fun d this args =>
    let param := default VUndef (args !! 0%nat) in
    if is_num 37445 param then (d, Ret (VStr "Intel Inc."))
    else if is_num 37446 param then (d, Ret (VStr "Intel Iris OpenGL Engine"))
    else call orig d this args.

(** Lines 98-103: as for the pixels, in place in the array returned,
    which is a float array of the document's heap.  A plain array or
    array-like object would go through the same loop; results of that
    shape are not covered here, and the statements about this function
    leave them out. *)
Definition add_audio_noise (d : doc X) (data : value) : doc X :=
  match data with
  | VRef l =>
      match f32 d !! l with
      | Some a => Doc (u8 d) (<[l := default a (audio_loop a)]> (f32 d)) (engine d)
      | None => d
      end
  | _ => d
  end.

Definition getChannelData_patch (orig : option (meth X)) : meth X :=
  fun d this args =>
    let (d1, r) := call orig d this args in
    match r with
    | Throw e => (d1, Throw e)
    | Ret data => (add_audio_noise d1 data, Ret data)
    end.

(** [parameters.name] of line 134. *)
Definition read_name (host : canvas_natives X) (d : doc X) (v : value) : outcome value :=
  match v with
  | VRef l => readName host d l
  | _ => Ret (default VUndef (get_name v))
  end.

(** Lines 131-139; a [name] that throws when read, or an unbound
    [Notification], throws inside the [try] and the call falls through
    to the original. *)
Definition query_patch (host : canvas_natives X) (notif : option (doc X -> value))
    (orig : option (meth X)) : meth X :=
  fun d this args =>
    let parameters := default VUndef (args !! 0%nat) in
    if truthy parameters then
      match read_name host d parameters with
      | Ret name =>
          if is_str "notifications" name then
            match notif with
            | Some permission => (d, Ret (VPromise (VObj [("state", permission d)])))
            | None => call orig d this args
            end
          else call orig d this args
      | Throw _ => call orig d this args
      end
    else call orig d this args.
End Wrappers.

End Wrappers.

(** ** The artifact pattern (line 120) *)

Module Regex.

(** The fragment of regular expressions the script's literal uses. *)
Inductive re :=
| Bol                       (* [^] *)
| Lit (s : string)          (* a run of literal characters *)
| Opt (r : re)              (* [r?] *)
| Cat (r1 r2 : re)
| Alt (r1 r2 : re).

(** Case folding of the [i] flag; only ASCII letters fold onto ASCII. *)
Definition fold_case (c : ascii) : ascii :=
  let n := nat_of_ascii c in
  if ((65 <=? n) && (n <=? 90))%nat then ascii_of_nat (n + 32) else c.

(** [lit] matched at the head of [s], ignoring case: the rest of [s]. *)
Fixpoint eat (lit s : string) : option string :=
  match lit, s with
  | EmptyString, _ => Some s
  | String c lit', String c' s' =>
      if Ascii.eqb (fold_case c) (fold_case c') then eat lit' s' else None
  | String _ _, EmptyString => None
  end.

(** All ways [r] matches at the head of [s]; [bol] says whether the
    head of [s] is the start of the subject. Each result is what is
    left of the subject, with its own [bol]. *)
Fixpoint matches (r : re) (bol : bool) (s : string) : list (bool * string) :=
  match r with
  | Bol => if bol then [(bol, s)] else []
  | Lit l =>
      match eat l s with
      | Some rest => [(bol && String.eqb l EmptyString, rest)]
      | None => []
      end
  | Opt r1 => matches r1 bol s ++ [(bol, s)]
  | Cat r1 r2 => flat_map (fun bs => matches r2 bs.1 bs.2) (matches r1 bol s)
  | Alt r1 r2 => matches r1 bol s ++ matches r2 bol s
  end.

Definition matches_here (r : re) (bol : bool) (s : string) : bool :=
  match matches r bol s with [] => false | _ => true end.

(** [r.test(s)]: a match starting at some position of [s]. *)
Fixpoint search (r : re) (bol : bool) (s : string) : bool :=
  matches_here r bol s ||
  match s with
  | EmptyString => false
  | String _ s' => search r false s'
  end.

Definition test (r : re) (s : string) : bool := search r true s.

(** [/^__?cdc_|webdriver|__driver|selenium|driver/i] *)
Definition artifact_re : re :=
  Alt (Cat Bol (Cat (Lit "_") (Cat (Opt (Lit "_")) (Lit "cdc_"))))
 (Alt (Lit "webdriver")
 (Alt (Lit "__driver")
 (Alt (Lit "selenium")
      (Lit "driver")))).

End Regex.

(** ** The injected function (lines 8-173) *)

Module Script.
Import JS Host Wrappers.

(** The objects the script defines properties on. *)
Inductive target := TNavigator | TNavigatorProto | TWindow.

(** The method properties the script assigns to. *)
Inductive method_id :=
| ToDataURL | GetImageData | GetParameter | GetChannelData | PermissionsQuery.

(** Every attempt to change a host object, in program order: the
    calls of [Object.defineProperty], the assignments to method
    properties and the [delete]s. *)
Inductive event :=
| EvDefine (t : target) (p : string)
| EvAssign (m : method_id)
| EvDelete (p : string).

#[global] Instance target_eq_dec : EqDecision target.
Proof. solve_decision. Defined.
#[global] Instance method_id_eq_dec : EqDecision method_id.
Proof. solve_decision. Defined.
#[global] Instance event_eq_dec : EqDecision event.
Proof. solve_decision. Defined.

Section Script.
Context {X : Type}.

Record state := State { st_env : env X; st_trace : list event }.

(** Statements: they change the environment and either complete or
    throw; what was changed before a throw stays changed. *)
Definition M (A : Type) : Type := state -> outcome A * state.

Definition ret {A} (a : A) : M A := fun s => (Ret a, s).
Definition throw {A} (e : exn) : M A := fun s => (Throw e, s).
Definition bind {A B} (m : M A) (k : A -> M B) : M B :=
  fun s =>
    match m s with
    | (Ret a, s') => k a s'
    | (Throw e, s') => (Throw e, s')
    end.

(** [try { m } catch (e) {}] *)
Definition try_ (m : M unit) : M unit :=
  fun s =>
    match m s with
    | (Ret _, s') => (Ret tt, s')
    | (Throw _, s') => (Ret tt, s')
    end.

Definition log (ev : event) : M unit :=
  fun s => (Ret tt, State (st_env s) (st_trace s ++ [ev])).

Definition modify (f : env X -> env X) : M unit :=
  fun s => (Ret tt, State (f (st_env s)) (st_trace s)).

Definition gets {A} (f : env X -> A) : M A := fun s => (Ret (f (st_env s)), s).

(** Evaluating an identifier that may be unbound. *)
Definition global {A} (f : env X -> option A) : M A :=
  fun s =>
    match f (st_env s) with
    | Some a => (Ret a, s)
    | None => (Throw ReferenceError, s)
    end.
End Script.
Arguments state X : clear implicits.
Arguments M X A : clear implicits.

Declare Scope js_scope.
Delimit Scope js_scope with js.
Notation "x <- m ;; k" := (bind m (fun x => k))
  (at level 100, m at next level, k at level 200, right associativity) : js_scope.
Notation "m ;; k" := (bind m (fun _ => k))
  (at level 100, k at level 200, right associativity) : js_scope.
Local Open Scope js_scope.

Section Body.
Context {X : Type}.
Abbreviation M := (M X).

Definition the_navigator : M navigator_obj := global navigator.
Definition the_window : M object := global window.

Definition set_navigator (n : navigator_obj) (e : env X) : env X :=
  Env (Some n) (permissions e) (canvasElement e) (context2d e) (webgl e)
      (audioBuffer e) (notification e) (window e) (natives e).
Definition set_window (w : object) (e : env X) : env X :=
  Env (navigator e) (permissions e) (canvasElement e) (context2d e) (webgl e)
      (audioBuffer e) (notification e) (Some w) (natives e).

(** The prototype slot behind each method the script replaces.
    [navigator.permissions] is reached through [navigator]. *)
Definition method_slot (m : method_id) (e : env X) : option (mslot X) :=
  match m with
  | ToDataURL => canvasElement e
  | GetImageData => context2d e
  | GetParameter => webgl e
  | GetChannelData => audioBuffer e
  | PermissionsQuery => permissions e
  end.
Definition set_method_slot (m : method_id) (ms : mslot X) (e : env X) : env X :=
  match m with
  | ToDataURL =>
      Env (navigator e) (permissions e) (Some ms) (context2d e) (webgl e)
          (audioBuffer e) (notification e) (window e) (natives e)
  | GetImageData =>
      Env (navigator e) (permissions e) (canvasElement e) (Some ms) (webgl e)
          (audioBuffer e) (notification e) (window e) (natives e)
  | GetParameter =>
      Env (navigator e) (permissions e) (canvasElement e) (context2d e) (Some ms)
          (audioBuffer e) (notification e) (window e) (natives e)
  | GetChannelData =>
      Env (navigator e) (permissions e) (canvasElement e) (context2d e) (webgl e)
          (Some ms) (notification e) (window e) (natives e)
  | PermissionsQuery =>
      Env (navigator e) (Some ms) (canvasElement e) (context2d e) (webgl e)
          (audioBuffer e) (notification e) (window e) (natives e)
  end.

(** Evaluating the expression that names a target object. *)
Definition get_target (t : target) : M object :=
  match t with
  | TNavigator => n <- the_navigator ;; ret (nav_own n)
  | TNavigatorProto =>
      n <- the_navigator ;;
      match nav_proto n with
      | Some pr => ret pr
      | None => throw TypeError
      end
  | TWindow => the_window
  end.

Definition put_target (t : target) (o : object) : M unit :=
  match t with
  | TNavigator =>
      n <- the_navigator ;; modify (set_navigator (Nav o (nav_proto n)))
  | TNavigatorProto =>
      n <- the_navigator ;; modify (set_navigator (Nav (nav_own n) (Some o)))
  | TWindow => modify (set_window o)
  end.

(** [Object.defineProperty(t, p, d)] *)
Definition defineProperty (t : target) (p : string) (d : descriptor) : M unit :=
  o <- get_target t ;;
  log (EvDefine t p) ;;
  match define o p d with
  | Some o' => put_target t o'
  | None => throw TypeError
  end.

(** Lines 12-18.  The target is evaluated by the caller, outside the
    helper's [try]. *)
Definition safeDefine (t : target) (p : string) (v : value) : M unit :=
  get_target t ;;
  try_ (defineProperty t p (DGet v)).

(** [Iface.prototype.m = f] in strict mode, [orig] being the slot
    read just before. *)
Definition assign (m : method_id) (f : meth X) : M unit :=
  ms <- global (method_slot m) ;;
  log (EvAssign m) ;;
  if m_writable ms then modify (set_method_slot m (MSlot (Some f) true))
  else throw TypeError.

(** [delete window[p]] *)
Definition delete_window (p : string) : M unit :=
  w <- the_window ;;
  log (EvDelete p) ;;
  match delete_prop w p with
  | Some w' => modify (set_window w')
  | None => throw TypeError
  end.

(** Lines 21-38. *)
Definition patch_identity : M unit :=
  try_ (
    safeDefine TNavigator "languages" (VArr [VStr "en-US"; VStr "en"]) ;;
    safeDefine TNavigator "platform" (VStr "Win32") ;;
    safeDefine TNavigator "hardwareConcurrency" (VNum 8) ;;
    safeDefine TNavigator "deviceMemory" (VNum 8) ;;
    try_ (defineProperty TNavigator "webdriver" (DGet VUndef)) ;;
    try_ (
      n <- the_navigator ;;
      match nav_proto n with
      | Some _ => defineProperty TNavigatorProto "webdriver" (DGet VUndef)
      | None => ret tt
      end)).

Definition userAgentData_value : value :=
  VObj [("getBrands",
         VFn "getBrands" (VArr [VObj [("brand", VStr "Chromium"); ("version", VStr "120")];
                    VObj [("brand", VStr "Google Chrome"); ("version", VStr "120")]]));
        ("mobile", VBool false);
        ("platform", VStr "Windows")].

(** Lines 41-49. *)
Definition patch_userAgentData : M unit :=
  try_ (
    n <- the_navigator ;;
    if is_undef (nav_get n "userAgentData")
    then safeDefine TNavigator "userAgentData" userAgentData_value
    else ret tt).

(** Lines 52-78. *)
Definition patch_canvas : M unit :=
  try_ (
    orig_toDataURL <- global (method_slot ToDataURL) ;;
    host <- gets natives ;;
    assign ToDataURL (toDataURL_patch host (m_fn orig_toDataURL)) ;;
    orig_getImageData <- global (method_slot GetImageData) ;;
    assign GetImageData (getImageData_patch (m_fn orig_getImageData))).

(** Lines 81-91. *)
Definition patch_webgl : M unit :=
  try_ (
    getParameter <- global (method_slot GetParameter) ;;
    assign GetParameter (getParameter_patch (m_fn getParameter))).

(** Lines 94-106. *)
Definition patch_audio : M unit :=
  try_ (
    orig_getChannelData <- global (method_slot GetChannelData) ;;
    assign GetChannelData (getChannelData_patch (m_fn orig_getChannelData))).

(** Lines 118-124. *)
Fixpoint sweep (names : list string) : M unit :=
  match names with
  | [] => ret tt
  | k :: rest =>
      try_ (
        if Regex.test Regex.artifact_re k
        then try_ (delete_window k)
        else ret tt) ;;
      sweep rest
  end.

(** Lines 109-125. *)
Definition clear_artifacts : M unit :=
  try_ (
    try_ (delete_window "__webdriver") ;;
    try_ (delete_window "_webdriver") ;;
    w <- the_window ;;
    sweep (getOwnPropertyNames w)).

(** Lines 128-141. *)
Definition patch_permissions : M unit :=
  try_ (
    the_navigator ;;
    perms <- gets permissions ;;
    match perms with
    | Some (MSlot (Some origQuery) _) =>
        host <- gets natives ;;
        notif <- gets notification ;;
        assign PermissionsQuery (query_patch host notif (Some origQuery))
    | _ => ret tt
    end).

Definition fakePlugins : list (string * string * string) :=
  [("Chrome PDF Plugin", "internal-pdf-viewer", EmptyString);
   ("Chromium PDF Viewer", "mhjfbmdgcfjbbpaeojofohoefgiehjai", EmptyString)].

Definition pluginArray : list value :=
  (fun p : string * string * string =>
     VObj [("name", VStr p.1.1); ("filename", VStr p.1.2);
           ("description", VStr p.2); ("length", VNum 0); ("0", VUndef)])
  <$> fakePlugins.

(** [v && v.length === 0] *)
Definition is_empty_list (v : value) : bool :=
  truthy v && is_num 0 (get_length v).

(** Lines 144-166. *)
Definition patch_plugins : M unit :=
  try_ (
    n <- the_navigator ;;
    (if is_empty_list (nav_get n "plugins")
     then safeDefine TNavigator "plugins" (VArr pluginArray)
     else ret tt) ;;
    n' <- the_navigator ;;
    if is_empty_list (nav_get n' "mimeTypes")
    then safeDefine TNavigator "mimeTypes" (VArr [])
    else ret tt).

(** Lines 169-171. *)
Definition mark_applied : M unit :=
  try_ (defineProperty TWindow "__stealth_patch_applied__" (DValue (VBool true))).

(** The body of the injected function, block after block. *)
Definition body : M unit :=
  patch_identity ;;
  patch_userAgentData ;;
  patch_canvas ;;
  patch_webgl ;;
  patch_audio ;;
  clear_artifacts ;;
  patch_permissions ;;
  patch_plugins ;;
  mark_applied.

(** Running the script in an environment: how it ended, the
    environment it left and what it attempted, in order. *)
Definition run (e : env X) : outcome unit * state X := body (State e []).
Definition apply (e : env X) : env X := st_env (run e).2.
Definition trace (e : env X) : list event := st_trace (run e).2.
End Body.

End Script.

(** ** A small engine to run the script in *)

Module Demo.
Import JS Host Wrappers Script.

(** The engine state of this host is its next free address. *)
Definition engine_doc (u : gmap loc (list Z)) (f : gmap loc (list spec_float)) : doc nat :=
  Doc u f 0%nat.

(** [getImageData] of a canvas that holds [content]: every call hands
    out a fresh [ImageData] with a copy of the content. *)
Definition native_getImageData (content : list Z) : meth nat :=
  fun d _ _ =>
    (Doc (<[engine d := content]> (u8 d)) (f32 d) (S (engine d)), Ret (VRef (engine d))).

(** [getChannelData] of an [AudioBuffer]: every call hands out the
    buffer's own channel array, here the one at the buffer's address. *)
Definition native_getChannelData : meth nat :=
  fun d this _ =>
    match this with
    | VRef l => (d, Ret (VRef l))
    | _ => (d, Throw TypeError)
    end.

Definition native_getParameter : meth nat :=
  fun d _ args =>
    let param := default VUndef (args !! 0%nat) in
    if is_num 37445 param then (d, Ret (VStr "NVIDIA Corporation"))
    else if is_num 37446 param then (d, Ret (VStr "NVIDIA GeForce RTX 3080"))
    else if is_num 3379 param then (d, Ret (VNum 16384))
    else (d, Ret VNull).

(** The encoder of a canvas that carries a WebGL context:
    [getContext('2d')] answers [null]. *)
Definition native_toDataURL : meth nat :=
  fun d _ _ => (d, Ret (VStr "data:image/png;base64,iVBORw0KGgo=")).
Definition webgl_canvas : canvas_natives nat :=
  CanvasNatives (Some (fun d _ _ => (d, Ret VNull)))
                (fun d _ _ => (d, Ret VUndef))
                (fun d _ _ => (d, Ret VUndef))
                (fun _ _ => Ret VUndef).

Definition native_query : meth nat :=
  fun d _ _ => (d, Ret (VPromise (VObj [("state", VStr "prompt")]))).

Definition getter (v : value) : slot := Slot (Accessor v) true true.

(** A headless engine under a driver: [webdriver] is set, the plugin
    lists are empty. *)
Definition headless_navigator : navigator_obj :=
  Nav (Obj [] true)
      (Some (Obj [("webdriver", getter (VBool true));
                  ("languages", getter (VArr [VStr "en-US"]));
                  ("platform", getter (VStr "Linux x86_64"));
                  ("plugins", getter (VArr []));
                  ("mimeTypes", getter (VArr []))] true)).

Definition marker (configurable : bool) : slot := Slot (Data (VBool true) true) true configurable.

(** A global object with driver markers on it: two that can be
    deleted and one that cannot. *)
Definition driven_window : object :=
  Obj [("document", Slot (Accessor (VRef 0%nat)) true false);
       ("__webdriver", marker true);
       ("cdc_adoQpoasnfa76pfcZLmcfl_Array", marker true);
       ("_Selenium_IDE_Recorder", marker true);
       ("webdriver_locked", marker false)] true.

Definition headless (content : list Z) : env nat :=
  Env (Some headless_navigator)
      (Some (MSlot (Some native_query) true))
      (Some (MSlot (Some native_toDataURL) true))
      (Some (MSlot (Some (native_getImageData content)) true))
      (Some (MSlot (Some native_getParameter) true))
      (Some (MSlot (Some native_getChannelData) true))
      (Some (fun _ => VStr "default"))
      (Some driven_window)
      webgl_canvas.

(** A canvas with a 2D context.  The engine state is the canvas: the
    fill style in force and the bitmap, one byte per channel.
    [fillRect(0, 0, 1, 1)] puts the fill colour over the first pixel;
    under the style [rgba(0,0,0,0)] the colour has no opacity and the
    pixel stays as it is, under any other style this engine paints it
    opaque black.  The encoder writes the bitmap out. *)
Record canvas := Canvas { fillStyle : string; bitmap : list Z }.

Definition paint (c : canvas) : canvas :=
  if String.eqb (fillStyle c) "rgba(0,0,0,0)" then c
  else Canvas (fillStyle c) ([0; 0; 0; 255] ++ drop 4 (bitmap c)).

Definition canvas2d : canvas_natives canvas :=
  CanvasNatives
    (Some (fun d _ args =>
             (d, Ret (if is_str "2d" (default VUndef (args !! 0%nat)) then VRef 1%nat else VNull))))
    (fun d _ args =>
       match args !! 0%nat with
       | Some (VStr style) =>
           (Doc (u8 d) (f32 d) (Canvas style (bitmap (engine d))), Ret VUndef)
       | _ => (d, Ret VUndef)
       end)
    (fun d _ _ => (Doc (u8 d) (f32 d) (paint (engine d)), Ret VUndef))
    (fun _ _ => Ret VUndef).

Definition encode2d : meth canvas :=
  fun d _ _ =>
    (d, Ret (VStr (String.append "data:"
                     (string_of_list_ascii
                        ((fun b => ascii_of_N (Z.to_N b)) <$> bitmap (engine d)))))).

(** An engine that has nothing but this canvas. *)
Definition painter : env canvas :=
  Env None None (Some (MSlot (Some encode2d) true)) None None None None None canvas2d.

Definition painted_doc (style : string) (content : list Z) : doc canvas :=
  Doc ∅ ∅ (Canvas style content).

(** The bytes or samples behind a returned reference. *)
Definition bytes_of (r : doc nat * outcome value) : option (list Z) :=
  match r.2 with Ret (VRef l) => u8 r.1 !! l | _ => None end.

End Demo.

(** ** Notions the properties are stated with *)

Section Notions.
Import JS Host Wrappers Script Regex.
Local Open Scope js_scope.

(** [s] begins with [l], ignoring case. *)
Definition starts_with (l s : string) : bool :=
  match eat l s with Some _ => true | None => false end.

(** [l] occurs somewhere in [s], ignoring case. *)
Fixpoint contains (l s : string) : bool :=
  starts_with l s ||
  match s with
  | EmptyString => false
  | String _ s' => contains l s'
  end.

(** What line 120 matches: a name that begins with [_cdc_] or [__cdc_],
    or has [webdriver], [__driver], [selenium] or [driver] in it. *)
Definition artifact_name (k : string) : bool :=
  starts_with "_cdc_" k || starts_with "__cdc_" k ||
  contains "webdriver" k || contains "__driver" k ||
  contains "selenium" k || contains "driver" k.

(** The pattern as the specification words it: a [cdc_] prefix, or
    [webdriver], [driver] or [selenium] anywhere in the name. *)
Definition artifact_named_in_spec (k : string) : bool :=
  starts_with "cdc_" k ||
  contains "webdriver" k || contains "driver" k || contains "selenium" k.

Definition cdc_prefix : re := Cat Bol (Cat (Lit "_") (Cat (Opt (Lit "_")) (Lit "cdc_"))).

(** Whether [Object.defineProperty(o, p, ..)] goes through depends on
    the property's presence and attributes alone. *)
Definition definable (o : object) (p : string) : bool :=
  match own o p with
  | None => extensible o
  | Some cur => s_configurable cur
  end.

(** [try { Object.defineProperty(o, p, d) } catch (e) {}] and
    [try { delete o[p] } catch (e) {}] as functions on the object. *)
Definition try_define (o : object) (p : string) (d : descriptor) : object :=
  default o (define o p d).
Definition try_delete (o : object) (p : string) : object :=
  default o (delete_prop o p).

(** One definition on [navigator], possibly guarded by a test on the
    current value of the property, or one on its prototype. *)
Inductive nav_step :=
| OwnDefine (guard : option (value -> bool)) (p : string) (v : value)
| ProtoDefine (p : string) (v : value).

Definition guard_holds (guard : option (value -> bool)) (v : value) : bool :=
  match guard with Some c => c v | None => true end.

Definition run_nav_step (n : navigator_obj) (st : nav_step) : navigator_obj :=
  match st with
  | OwnDefine guard p v =>
      if guard_holds guard (nav_get n p)
      then Nav (try_define (nav_own n) p (DGet v)) (nav_proto n)
      else n
  | ProtoDefine p v =>
      Nav (nav_own n) ((fun pr => try_define pr p (DGet v)) <$> nav_proto n)
  end.

(** Lines 22-37, 42-48 and 151-165, in order. *)
Definition identity_steps : list nav_step :=
  [OwnDefine None "languages" (VArr [VStr "en-US"; VStr "en"]);
   OwnDefine None "platform" (VStr "Win32");
   OwnDefine None "hardwareConcurrency" (VNum 8);
   OwnDefine None "deviceMemory" (VNum 8);
   OwnDefine None "webdriver" VUndef;
   ProtoDefine "webdriver" VUndef].
Definition userAgentData_steps : list nav_step :=
  [OwnDefine (Some is_undef) "userAgentData" userAgentData_value].
Definition plugins_steps : list nav_step :=
  [OwnDefine (Some is_empty_list) "plugins" (VArr pluginArray);
   OwnDefine (Some is_empty_list) "mimeTypes" (VArr [])].

Definition run_nav_steps (steps : list nav_step) (n : navigator_obj) : navigator_obj :=
  foldl run_nav_step n steps.

Definition patched_navigator (n : navigator_obj) : navigator_obj :=
  run_nav_steps (identity_steps ++ userAgentData_steps ++ plugins_steps) n.

(** Lines 118-124 on the global object. *)
Definition swept (names : list string) (w : object) : object :=
  foldl (fun w k => if Regex.test Regex.artifact_re k then try_delete w k else w) w names.

(** Lines 110-124. *)
Definition cleared (w : object) : object :=
  let w2 := try_delete (try_delete w "__webdriver") "_webdriver" in
  swept (getOwnPropertyNames w2) w2.

(** Line 170. *)
Definition patched_marker (w : object) : object :=
  try_define w "__stealth_patch_applied__" (DValue (VBool true)).

(** Lines 110-124 and 170. *)
Definition patched_window (w : object) : object := patched_marker (cleared w).

(** The property a step defines. *)
Definition step_key (st : nav_step) : string :=
  match st with OwnDefine _ p _ => p | ProtoDefine p _ => p end.

(** A step that changes nothing. *)
Definition settled (n : navigator_obj) (st : nav_step) : Prop := run_nav_step n st = n.

(** Pairs of steps of which the later cannot unsettle the earlier:
    definitions of different names on [navigator], or one on
    [navigator] and one on its prototype, the former unguarded when it
    comes first. *)
Definition compatible (st st' : nav_step) : bool :=
  match st, st' with
  | OwnDefine _ p _, OwnDefine _ q _ => negb (String.eqb p q)
  | OwnDefine None _ _, ProtoDefine _ _ => true
  | ProtoDefine _ _, OwnDefine _ _ _ => true
  | _, _ => false
  end.

(** [w'] is [w] with some properties taken away. *)
Definition shrinks (w' w : object) : Prop :=
  extensible w' = extensible w /\
  forall k, k ∈ getOwnPropertyNames w' -> k ∈ getOwnPropertyNames w /\ own w' k = own w k.

(** Every artifact name still on [w] belongs to a property that is
    not configurable. *)
Definition artifacts_locked (names : list string) (w : object) : Prop :=
  forall k, k ∈ names -> test artifact_re k = true -> k ∈ getOwnPropertyNames w ->
    exists cur, own w k = Some cur /\ s_configurable cur = false.

(** No other name has been taken from [w]. *)
Definition others_kept (w' w : object) : Prop :=
  forall k, test artifact_re k = false ->
    k ∈ getOwnPropertyNames w -> k ∈ getOwnPropertyNames w'.

(** The blocks of the script. *)
Inductive block :=
| Identity | UserAgentData | Canvas | WebGL | Audio
| Artifacts | Permissions | Plugins | Marker.

(** The block an attempted change belongs to. *)
Definition block_of (ev : event) : block :=
  match ev with
  | EvDefine TNavigator p =>
      if String.eqb p "userAgentData" then UserAgentData
      else if String.eqb p "plugins" || String.eqb p "mimeTypes" then Plugins
      else Identity
  | EvDefine TNavigatorProto _ => Identity
  | EvDefine TWindow _ => Marker
  | EvAssign ToDataURL | EvAssign GetImageData => Canvas
  | EvAssign GetParameter => WebGL
  | EvAssign GetChannelData => Audio
  | EvAssign PermissionsQuery => Permissions
  | EvDelete _ => Artifacts
  end.

(** Where a block stands in the script. *)
Definition rank (b : block) : nat :=
  match b with
  | Identity => 0 | UserAgentData => 1 | Canvas => 2 | WebGL => 3 | Audio => 4
  | Artifacts => 5 | Permissions => 6 | Plugins => 7 | Marker => 8
  end.

Definition of_block (b : block) (ev : event) : Prop := block_of ev = b.

(** No event is followed by one of an earlier block. *)
Definition in_order (t : list event) : Prop :=
  forall (i j : nat) (ev1 ev2 : event),
    (i < j)%nat -> t !! i = Some ev1 -> t !! j = Some ev2 ->
    (rank (block_of ev1) <= rank (block_of ev2))%nat.

Definition upto (b : block) (t : list event) : Prop :=
  in_order t /\ Forall (fun ev => (rank (block_of ev) <= rank b)%nat) t.
End Notions.

Section StateNotions.
Import JS Host Wrappers Script.
Local Open Scope js_scope.
Context {X : Type}.

(** [steps R m]: every run of [m] relates the state it starts in to
    the state it leaves, whether it completes or throws. *)
Definition steps {A} (R : relation (state X)) (m : M X A) : Prop :=
  forall s, R s (m s).2.

(** [keeps f]: the part [f] of the environment is left as it was. *)
Definition keeps {B} (f : env X -> B) : relation (state X) :=
  fun s s' => f (st_env s') = f (st_env s).

(** [emits P]: the trace only grows, by events that satisfy [P]. *)
Definition emits (P : event -> Prop) : relation (state X) :=
  fun s s' => exists t, st_trace s' = st_trace s ++ t /\ Forall P t.

(** The same engine with [WebGLRenderingContext] not defined. *)
Definition without_webgl (e : env X) : env X :=
  Env (navigator e) (permissions e) (canvasElement e) (context2d e) None
      (audioBuffer e) (notification e) (window e) (natives e).

Definition not_webgl (ev : event) : Prop := ev <> EvAssign GetParameter.

(** The second run is the first with WebGL taken away. *)
Definition lacks_webgl (s s' : state X) : Prop :=
  st_env s' = without_webgl (st_env s) /\
  st_trace s' = filter not_webgl (st_trace s).

Definition sim {A} (m m' : M X A) : Prop :=
  forall s s', lacks_webgl s s' ->
    (m s).1 = (m' s').1 /\ lacks_webgl (m s).2 (m' s').2.

(** A part of the environment that does not look at [navigator],
    at [window], or at the slot of method [m]. *)
Definition nav_indep {B} (f : env X -> B) : Prop :=
  forall e n, f (set_navigator n e) = f e.
Definition win_indep {B} (f : env X -> B) : Prop :=
  forall e w, f (set_window w e) = f e.
Definition slot_indep {B} (f : env X -> B) (m : method_id) : Prop :=
  forall e ms, f (set_method_slot m ms e) = f e.

(** The blocks one after the other; each is a [try] and completes. *)
Definition after (b : M X unit) (s : state X) : state X := (b s).2.

(** A method slot after its block has run: wrapped when the
    assignment is possible, untouched otherwise. *)
Definition patched_slot (wrap : option (meth X) -> meth X)
    (ms : option (mslot X)) : option (mslot X) :=
  match ms with
  | Some (MSlot orig true) => Some (MSlot (Some (wrap orig)) true)
  | other => other
  end.

Definition nav_of (s : state X) : option navigator_obj := navigator (st_env s).
Definition win_of (s : state X) : option object := window (st_env s).
End StateNotions.
Arguments emits X P : clear implicits.
Arguments sim X {A} m m'.

(** ** The environment the script leaves, field by field *)

Section WholeEnvironment.
Import JS Host Wrappers Script Regex.
Context {X : Type}.

(** [navigator.permissions.query] after lines 128-141: wrapped when
    [navigator] is bound, [query] is there and can be assigned to. *)
Definition patched_permissions (e : env X) : option (mslot X) :=
  match navigator e, permissions e with
  | Some _, Some (MSlot (Some origQuery) true) =>
      Some (MSlot (Some (query_patch (natives e) (notification e) (Some origQuery))) true)
  | _, other => other
  end.

(** [getImageData] after lines 52-78: its assignment is reached only
    when the one to [toDataURL] before it went through. *)
Definition patched_context2d (e : env X) : option (mslot X) :=
  match canvasElement e with
  | Some (MSlot _ true) => patched_slot getImageData_patch (context2d e)
  | _ => context2d e
  end.

Definition patched_env (e : env X) : env X :=
  Env (patched_navigator <$> navigator e)
      (patched_permissions e)
      (patched_slot (toDataURL_patch (natives e)) (canvasElement e))
      (patched_context2d e)
      (patched_slot getParameter_patch (webgl e))
      (patched_slot getChannelData_patch (audioBuffer e))
      (notification e)
      (patched_window <$> window e)
      (natives e).
End WholeEnvironment.

(** The definitions the script makes on [navigator], in order. *)
Definition navigator_steps : list nav_step :=
  identity_steps ++ userAgentData_steps ++ plugins_steps.

(** The own property [p] of [o] after
    [try { Object.defineProperty(o, p, d) } catch (e) {}]. *)
Definition own_after (d : JS.descriptor) (o : JS.object) (p : string) : option JS.slot :=
  if definable o p
  then Some (match JS.own o p with
             | Some cur => JS.redefined d cur
             | None => JS.created d
             end)
  else JS.own o p.

(** A name with its ASCII capitals turned into small letters. *)
Fixpoint lower (s : string) : string :=
  match s with
  | EmptyString => EmptyString
  | String c s' => String (Regex.fold_case c) (lower s')
  end.

(** The name under which line 170 records that the script has run. *)
Definition applied_marker : string := "__stealth_patch_applied__".

(** What of [navigator] decides how a property [p] reads and whether
    it can be redefined: the own property and extensibility of the
    instance and of its prototype. *)
Definition views (n : JS.navigator_obj) (p : string)
    : option JS.slot * bool * option (option JS.slot * bool) :=
  (JS.own (JS.nav_own n) p, JS.extensible (JS.nav_own n),
   (fun pr => (JS.own pr p, JS.extensible pr)) <$> JS.nav_proto n).

(** Whether [delete w[k]] takes a property away: it is there and
    configurable. *)
Definition deletable (w : JS.object) (k : string) : bool :=
  match JS.own w k with Some cur => JS.s_configurable cur | None => false end.

(** Lines 109-125 without the two deletions of lines 110-115. *)
Definition sweep_only {X : Type} : Script.M X unit :=
  Script.try_
    (Script.bind Script.the_window (fun w => Script.sweep (JS.getOwnPropertyNames w))).

(** What the script may attempt on a host object: the definitions of
    lines 22-35, 43, 160, 164 and 170, the five assignments, and
    deletions of names the pattern matches. *)
Definition permitted (ev : Script.event) : Prop :=
  match ev with
  | Script.EvDefine Script.TNavigator p =>
      p ∈ ["languages"; "platform"; "hardwareConcurrency"; "deviceMemory"; "webdriver";
           "userAgentData"; "plugins"; "mimeTypes"]
  | Script.EvDefine Script.TNavigatorProto p => p = "webdriver"
  | Script.EvDefine Script.TWindow p => p = applied_marker
  | Script.EvAssign _ => True
  | Script.EvDelete k => artifact_name k = true
  end.

(** ** A hardened engine *)

Module Hardened.
Import JS Host Wrappers Script.

(** A [navigator] that is not extensible and whose [platform] is a
    locked data property; its prototype's [webdriver] is locked too. *)
Definition locked_navigator : navigator_obj :=
  Nav (Obj [("platform", Slot (Data (VStr "Linux x86_64") false) true false);
            ("languages", Slot (Data (VArr [VStr "de-DE"]) true) true true)] false)
      (Some (Obj [("webdriver", Slot (Accessor (VBool true)) true false)] true)).

(** A global object that already carries a locked marker. *)
Definition locked_window : object :=
  Obj [("__stealth_patch_applied__", Slot (Data (VBool false) false) false false);
       ("driverSeat", Slot (Data (VNum 1) true) true true);
       ("name", Slot (Data (VStr "main") true) true true)] false.

Definition engine : env nat :=
  Env (Some locked_navigator)
      (Some (MSlot (Some Demo.native_query) true))
      (Some (MSlot (Some Demo.native_toDataURL) false))
      (Some (MSlot (Some (Demo.native_getImageData [])) true))
      None
      (Some (MSlot None true))
      None
      (Some locked_window)
      Demo.webgl_canvas.

End Hardened.

(** * Properties *)

(** ** The noise loops *)

Section StrideLoopFacts.
Import Noise.
Context {A : Type} (stride : nat) (f : A -> A).
Hypothesis stride_pos : (0 < stride)%nat.

Lemma stride_loop_cells (fuel i : nat) (a : list A) :
  (length a <= i + fuel * stride)%nat ->
  exists a', stride_loop stride f fuel i a = Some a' /\
             length a' = length a /\
             forall j, a' !! j = cell_from stride f i j <$> a !! j.
Proof.
  revert i a. induction fuel as [|fuel IH]; intros i a Hlen; simpl.
  - assert (a !! i = None) as -> by (apply lookup_ge_None; lia).
    exists a. split_and!; [done..|].
    intros j. unfold cell_from. destruct (a !! j) eqn:Hj; [|done]. simpl.
    apply lookup_lt_Some in Hj. case_decide; [lia|done].
  - destruct (a !! i) as [x|] eqn:Hi.
    + destruct (IH (i + stride)%nat (<[i:=f x]> a)) as (a' & Hrun & Hl & Hcells).
      { rewrite length_insert. lia. }
      exists a'. split_and!; [done| by rewrite Hl, length_insert |].
      intros j. rewrite Hcells. pose proof (lookup_lt_Some _ _ _ Hi) as Hlt.
      destruct (decide (j = i)) as [->|Hne].
      * rewrite list_lookup_insert_eq by done. rewrite Hi. simpl. f_equal.
        unfold cell_from. rewrite !decide_False by lia.
        rewrite decide_True; [done|]. split; [lia|]. by rewrite Nat.sub_diag, Nat.Div0.mod_0_l.
      * rewrite list_lookup_insert_ne by done.
        destruct (a !! j) as [y|]; [simpl; f_equal|done].
        unfold cell_from.
        destruct (decide (i <= j)%nat) as [Hle|Hgt].
        -- assert (j - i = (j - (i + stride)) + stride \/ j < i + stride)%nat as [Hd|Hd] by lia.
           ++ assert (i + stride <= j)%nat by lia.
              rewrite Hd.
              replace ((j - (i + stride) + stride) mod stride)%nat
                with ((j - (i + stride)) mod stride)%nat.
              2:{ rewrite <- (Nat.Div0.add_mod_idemp_r _ stride), Nat.Div0.mod_same.
                  by rewrite Nat.add_0_r. }
              repeat case_decide; try done; lia.
           ++ rewrite (decide_False (P := (i + stride <= j)%nat /\ _)) by lia.
              rewrite decide_False; [done|]. intros [_ Hm].
              rewrite Nat.mod_small in Hm by lia. lia.
        -- rewrite !decide_False by lia. done.
    + exists a. split_and!; [done..|].
      intros j. unfold cell_from. destruct (a !! j) eqn:Hj; [|done]. simpl.
      apply lookup_lt_Some in Hj. apply lookup_ge_None in Hi.
      case_decide; [lia|done].
Qed.

(** With the array's length as bound the loop runs to its end and
    computes [stride_map]. *)
Lemma stride_loop_total (a : list A) :
  stride_loop stride f (length a) 0 a = Some (stride_map stride f a).
Proof.
  destruct (stride_loop_cells (length a) 0 a) as (a' & -> & Hl & Hcells); [nia|].
  f_equal. apply list_eq. intros j. rewrite Hcells.
  unfold stride_map. rewrite list_lookup_imap.
  destruct (a !! j); [simpl; f_equal|done].
  unfold cell_from. rewrite Nat.sub_0_r.
  repeat case_decide; try done; lia.
Qed.

Lemma stride_map_length (a : list A) : length (stride_map stride f a) = length a.
Proof. apply length_imap. Qed.

Lemma stride_map_lookup (a : list A) (i : nat) :
  stride_map stride f a !! i =
  (fun x => if decide ((i mod stride)%nat = 0%nat) then f x else x) <$> a !! i.
Proof. unfold stride_map. by rewrite list_lookup_imap. Qed.

End StrideLoopFacts.

(** ** Bytes *)

Section ByteFacts.
Import Num Noise.

(** A property checked on each of the 256 bytes holds of every byte. *)
Lemma all_bytes (P : Z -> bool) :
  forallb P (Z.of_nat <$> seq 0 256) = true ->
  forall b, is_byte b -> P b = true.
Proof.
  intros Hall b [Hlo Hhi].
  rewrite forallb_forall in Hall. apply Hall.
  apply list_elem_of_In, list_elem_of_fmap. exists (Z.to_nat b). split; [lia|].
  apply elem_of_seq. lia.
Qed.

Lemma perturb_byte_xor (b : Z) : is_byte b -> perturb_byte b = Z.lxor b 17.
Proof.
  intros Hb.
  apply (all_bytes (fun b => perturb_byte b =? Z.lxor b 17)) in Hb; [lia|].
  by vm_compute.
Qed.

Lemma perturb_byte_is_byte (b : Z) : is_byte b -> is_byte (perturb_byte b).
Proof.
  intros Hb. unfold is_byte.
  apply (all_bytes (fun b => (0 <=? perturb_byte b) && (perturb_byte b <? 256))) in Hb; [lia|].
  by vm_compute.
Qed.

Lemma perturb_byte_changes (b : Z) : is_byte b -> perturb_byte b <> b.
Proof.
  intros Hb.
  apply (all_bytes (fun b => negb (perturb_byte b =? b))) in Hb; [lia|].
  by vm_compute.
Qed.

Lemma perturb_byte_distance (b : Z) :
  is_byte b -> Z.abs (perturb_byte b - b) = 15 \/ Z.abs (perturb_byte b - b) = 17.
Proof.
  intros Hb.
  apply (all_bytes (fun b => (Z.abs (perturb_byte b - b) =? 15)
                          || (Z.abs (perturb_byte b - b) =? 17))) in Hb; [lia|].
  by vm_compute.
Qed.

Lemma perturb_byte_involutive (b : Z) : is_byte b -> perturb_byte (perturb_byte b) = b.
Proof.
  intros Hb.
  apply (all_bytes (fun b => perturb_byte (perturb_byte b) =? b)) in Hb; [lia|].
  by vm_compute.
Qed.

Lemma pixel_loop_total (a : list Z) :
  pixel_loop a = Some (stride_map 10 perturb_byte a).
Proof. apply stride_loop_total. lia. Qed.

Lemma audio_loop_total (a : list spec_float) :
  audio_loop a = Some (stride_map 100 perturb_sample a).
Proof. apply stride_loop_total. lia. Qed.

(** Running the pixel loop on its own output restores the bytes. *)
Lemma pixel_noise_twice (a : list Z) :
  Forall is_byte a ->
  stride_map 10 perturb_byte (stride_map 10 perturb_byte a) = a.
Proof.
  intros Ha. apply list_eq. intros i.
  rewrite !stride_map_lookup. destruct (a !! i) as [b|] eqn:Hi; [simpl|done].
  f_equal. case_decide; [|done].
  apply perturb_byte_involutive. eapply Forall_lookup_1; eauto.
Qed.

End ByteFacts.

(** ** Samples *)

Section SampleFacts.
Import Num Noise.

(** [eps64] is a normal double, and no double is nearer to [10^-7]. *)
Lemma eps64_nearest :
  2 ^ 52 <= Zpos eps_mantissa < 2 ^ 53 /\
  2 * Z.abs (Zpos eps_mantissa * 10 ^ 7 - 2 ^ 76) < 10 ^ 7.
Proof. vm_compute. repeat split; discriminate. Qed.

(** Silence becomes the single nearest to [10^-7]; 1.0 moves up by one
    unit in the last place; from 2.0 on, where that unit is more than
    twice epsilon, the stored sample does not move at all. *)
Lemma perturb_sample_examples :
  perturb_sample (S754_zero false) = S754_finite false 14073749 (-47) /\
  perturb_sample (S754_finite false 8388608 (-23)) = S754_finite false 8388609 (-23) /\
  perturb_sample (S754_finite false 8388608 (-22)) = S754_finite false 8388608 (-22).
Proof. by vm_compute. Qed.
End SampleFacts.

(** ** Reasoning about statements *)

Section Statements.
Import JS Host Script.
Local Open Scope js_scope.
Context {X : Type}.

(** A [try] block never throws. *)
Lemma try_completes (m : M X unit) (s : state X) : (try_ m s).1 = Ret tt.
Proof. unfold try_. by destruct (m s) as [[]]. Qed.

Lemma try_state (m : M X unit) (s : state X) : (try_ m s).2 = (m s).2.
Proof. unfold try_. by destruct (m s) as [[]]. Qed.

(** After a [try] block the next statement always runs. *)
Lemma bind_try {B} (m : M X unit) (k : M X B) (s : state X) :
  (try_ m ;; k) s = k (m s).2.
Proof. unfold bind, try_. by destruct (m s) as [[]]. Qed.

(** A statement that completes hands over to the next one. *)
Lemma bind_done {B} (b : M X unit) (k : unit -> M X B) (s : state X) :
  (b s).1 = Ret tt -> bind b k s = k tt (b s).2.
Proof. unfold bind. destruct (b s) as [[[]|] s']; simpl; congruence. Qed.

Section Combinators.
Context (R : relation (state X)) `{!PreOrder R}.

Lemma steps_ret {A} (a : A) : steps R (ret a).
Proof. intros s. simpl. reflexivity. Qed.

Lemma steps_throw {A} (e : exn) : steps R (throw (A := A) e).
Proof. intros s. simpl. reflexivity. Qed.

Lemma steps_gets {A} (f : env X -> A) : steps R (gets f).
Proof. intros s. simpl. reflexivity. Qed.

Lemma steps_global {A} (f : env X -> option A) : steps R (global f).
Proof. intros s. unfold global. destruct (f _); simpl; reflexivity. Qed.

Lemma steps_bind {A B} (m : M X A) (k : A -> M X B) :
  steps R m -> (forall a, steps R (k a)) -> steps R (bind m k).
Proof.
  intros Hm Hk s. unfold bind. specialize (Hm s).
  destruct (m s) as [[a|e] s']; simpl in *; [|done].
  etrans; [exact Hm|apply Hk].
Qed.

Lemma steps_try (m : M X unit) : steps R m -> steps R (try_ m).
Proof. intros Hm s. rewrite try_state. apply Hm. Qed.

Lemma steps_if {A} (b : bool) (m1 m2 : M X A) :
  steps R m1 -> steps R m2 -> steps R (if b then m1 else m2).
Proof. by destruct b. Qed.

End Combinators.

Global Instance keeps_preorder {B} (f : env X -> B) : PreOrder (keeps f).
Proof.
  split; [by intros s|]. intros s1 s2 s3 H1 H2. unfold keeps in *. congruence.
Qed.

Lemma keeps_log {B} (f : env X -> B) (ev : event) : steps (keeps f) (log ev).
Proof. by intros s. Qed.

Lemma keeps_modify {B} (f : env X -> B) (g : env X -> env X) :
  (forall e, f (g e) = f e) -> steps (keeps f) (modify g).
Proof. intros Hg s. apply Hg. Qed.

Global Instance emits_preorder (P : event -> Prop) : PreOrder (emits X P).
Proof.
  split.
  - intros s. exists []. by rewrite app_nil_r.
  - intros s1 s2 s3 (t1 & H1 & F1) (t2 & H2 & F2). exists (t1 ++ t2).
    split; [by rewrite H2, H1, app_assoc|by apply Forall_app].
Qed.

Lemma emits_log (P : event -> Prop) (ev : event) :
  P ev -> steps (emits X P) (log ev).
Proof. intros Hev s. exists [ev]. split; [done|by constructor]. Qed.

Lemma emits_modify (P : event -> Prop) (g : env X -> env X) : steps (emits X P) (modify g).
Proof. intros s. exists []. by rewrite app_nil_r. Qed.

End Statements.

Ltac steps_step :=
  first
    [ apply steps_try; [typeclasses eauto ..|]
    | apply steps_bind; [typeclasses eauto ..| |intros ?]
    | apply steps_ret; typeclasses eauto
    | apply steps_throw; typeclasses eauto
    | apply steps_gets; typeclasses eauto
    | apply steps_global; typeclasses eauto
    | apply keeps_log
    | apply emits_modify
    | apply steps_if; [typeclasses eauto ..| |] ].
Ltac steps_go := repeat steps_step.

(** ** An engine without WebGL *)

Section WithoutWebGL.
Import JS Host Script.
Local Open Scope js_scope.
Context {X : Type}.

Lemma sim_ret {A} (a : A) : sim X (ret a) (ret a).
Proof. by intros s s' H. Qed.

Lemma sim_throw {A} (e : exn) : sim X (throw (A := A) e) (throw e).
Proof. by intros s s' H. Qed.

Lemma sim_bind {A B} (m m' : M X A) (k k' : A -> M X B) :
  sim X m m' -> (forall a, sim X (k a) (k' a)) -> sim X (bind m k) (bind m' k').
Proof.
  intros Hm Hk s s' Hs. unfold bind. destruct (Hm s s' Hs) as [Ho Hst].
  destruct (m s) as [[a|e] s1], (m' s') as [[a'|e'] s1']; simpl in *; simplify_eq.
  - by apply Hk.
  - done.
Qed.

Lemma sim_try (m m' : M X unit) : sim X m m' -> sim X (try_ m) (try_ m').
Proof.
  intros Hm s s' Hs. rewrite !try_completes, !try_state. split; [done|]. by apply Hm.
Qed.

Lemma sim_log (ev : event) : not_webgl ev -> sim X (log ev) (log ev).
Proof.
  intros Hev s s' [He Ht]. split; [done|]. split; simpl; [done|].
  rewrite filter_app, Ht. f_equal. by rewrite filter_cons_True.
Qed.

Lemma sim_modify (g : env X -> env X) :
  (forall e, g (without_webgl e) = without_webgl (g e)) -> sim X (modify g) (modify g).
Proof. intros Hg s s' [He Ht]. split; [done|]. split; simpl; [|done]. by rewrite He, Hg. Qed.

Lemma sim_gets {A} (f : env X -> A) :
  (forall e, f (without_webgl e) = f e) -> sim X (gets f) (gets f).
Proof. intros Hf s s' [He Ht]. unfold gets. simpl. rewrite He, Hf. done. Qed.

Lemma sim_global {A} (f : env X -> option A) :
  (forall e, f (without_webgl e) = f e) -> sim X (global f) (global f).
Proof.
  intros Hf s s' [He Ht]. unfold global. rewrite He, Hf.
  by destruct (f (st_env s)).
Qed.

Lemma sim_if {A} (b : bool) (m1 m1' m2 m2' : M X A) :
  sim X m1 m1' -> sim X m2 m2' -> sim X (if b then m1 else m2) (if b then m1' else m2').
Proof. by destruct b. Qed.

Ltac sim_step :=
  first
    [ apply sim_try
    | apply sim_bind; [|intros ?]
    | apply sim_ret
    | apply sim_throw
    | apply sim_global; by intros []
    | apply sim_gets; by intros []
    | apply sim_modify; by intros []
    | apply sim_log; done
    | apply sim_if ].
Ltac sim_go := repeat sim_step.

Lemma sim_get_target (t : target) : sim X (get_target t) (get_target t).
Proof. destruct t; unfold get_target, the_navigator, the_window; sim_go. case_match; sim_go. Qed.

Lemma sim_put_target (t : target) (o : object) : sim X (put_target t o) (put_target t o).
Proof. destruct t; unfold put_target, the_navigator; sim_go. Qed.

Lemma sim_defineProperty t p d : sim X (defineProperty t p d) (defineProperty t p d).
Proof.
  unfold defineProperty. apply sim_bind; [apply sim_get_target|intros o].
  sim_go. case_match; [apply sim_put_target|apply sim_throw].
Qed.

Lemma sim_safeDefine t p v : sim X (safeDefine t p v) (safeDefine t p v).
Proof.
  unfold safeDefine. apply sim_bind; [apply sim_get_target|intros _].
  apply sim_try, sim_defineProperty.
Qed.

Lemma sim_assign (m : method_id) (f : meth X) :
  m <> GetParameter -> sim X (assign m f) (assign m f).
Proof.
  intros Hm. unfold assign. apply sim_bind; [apply sim_global; intros []; by destruct m|].
  intros ms. apply sim_bind; [apply sim_log; unfold not_webgl; congruence|intros _].
  apply sim_if; [|apply sim_throw]. apply sim_modify. intros []; by destruct m.
Qed.

Lemma sim_delete_window (p : string) : sim X (delete_window p) (delete_window p).
Proof. unfold delete_window, the_window. sim_go. case_match; sim_go. Qed.

Lemma sim_sweep (names : list string) : sim X (sweep names) (sweep names).
Proof.
  induction names as [|k rest IH]; simpl; [apply sim_ret|].
  apply sim_bind; [|by intros _]. apply sim_try, sim_if; [|apply sim_ret].
  apply sim_try, sim_delete_window.
Qed.

(** The WebGL block: with the interface it changes that slot alone,
    without it the [ReferenceError] is swallowed. *)
Lemma sim_patch_webgl : sim X patch_webgl patch_webgl.
Proof.
  intros s s' [He Ht]. unfold patch_webgl. rewrite !try_completes, !try_state.
  split; [done|]. unfold bind, global, assign, bind, global, log, modify.
  rewrite He. destruct s as [[] tr]; simpl in *. destruct webgl0 as [[fn []]|]; simpl.
  - split; simpl; [done|]. rewrite filter_app, Ht, filter_cons_False, app_nil_r; [done|].
    unfold not_webgl. by intros H.
  - split; simpl; [done|]. rewrite filter_app, Ht, filter_cons_False, app_nil_r; [done|].
    unfold not_webgl. by intros H.
  - done.
Qed.

Ltac sim_script :=
  repeat first
    [ apply sim_safeDefine
    | apply sim_defineProperty
    | apply sim_delete_window
    | apply sim_sweep
    | apply sim_assign; done
    | apply sim_patch_webgl
    | sim_step
    | case_match ].

Lemma sim_body : sim X body body.
Proof.
  unfold body, patch_identity, patch_userAgentData, patch_canvas, patch_audio,
    clear_artifacts, patch_permissions, patch_plugins, mark_applied,
    the_navigator, the_window.
  sim_script.
Qed.

Lemma run_completes (e : env X) : (run e).1 = Ret tt.
Proof.
  unfold run, body, patch_identity, patch_userAgentData, patch_canvas, patch_webgl,
    patch_audio, clear_artifacts, patch_permissions, patch_plugins, mark_applied.
  rewrite !bind_try. apply try_completes.
Qed.

End WithoutWebGL.

(** ** What each block leaves alone *)

Section Frames.
Import JS Host Script.
Local Open Scope js_scope.
Context {X : Type}.

Section Field.
Context {B : Type} (f : env X -> B).

Lemma keeps_get_target t : steps (keeps f) (get_target (X := X) t).
Proof.
  destruct t; unfold get_target, the_navigator, the_window; steps_go.
  case_match; steps_go.
Qed.

Lemma keeps_put_target t o :
  (t <> TWindow -> nav_indep f) -> (t = TWindow -> win_indep f) ->
  steps (keeps f) (put_target t o).
Proof.
  intros Hn Hw. destruct t; unfold put_target, the_navigator; steps_go;
    apply keeps_modify; intros e; first [by apply Hn|by apply Hw].
Qed.

Lemma keeps_defineProperty t p d :
  (t <> TWindow -> nav_indep f) -> (t = TWindow -> win_indep f) ->
  steps (keeps f) (defineProperty t p d).
Proof.
  intros Hn Hw. unfold defineProperty.
  apply steps_bind; [typeclasses eauto ..|apply keeps_get_target|intros o].
  apply steps_bind; [typeclasses eauto ..|apply keeps_log|intros _].
  case_match; [by apply keeps_put_target|steps_go].
Qed.

Lemma keeps_safeDefine t p v :
  (t <> TWindow -> nav_indep f) -> (t = TWindow -> win_indep f) ->
  steps (keeps f) (safeDefine t p v).
Proof.
  intros Hn Hw. unfold safeDefine.
  apply steps_bind; [typeclasses eauto ..|apply keeps_get_target|intros _].
  apply steps_try; [typeclasses eauto ..|]. by apply keeps_defineProperty.
Qed.

Lemma keeps_assign m g : slot_indep f m -> steps (keeps f) (assign m g).
Proof.
  intros Hm. unfold assign. steps_go. apply keeps_modify. intros e. apply Hm.
Qed.

Lemma keeps_delete_window p : win_indep f -> steps (keeps f) (delete_window p).
Proof.
  intros Hw. unfold delete_window, the_window. steps_go.
  case_match; steps_go. apply keeps_modify. intros e. apply Hw.
Qed.

Ltac keeps_script :=
  repeat first
    [ assumption
    | apply keeps_safeDefine; [done|done]
    | apply keeps_defineProperty; [done|done]
    | apply keeps_assign; done
    | apply keeps_delete_window; done
    | steps_step
    | case_match ].

Lemma keeps_sweep names : win_indep f -> steps (keeps f) (sweep names).
Proof. intros Hw. induction names as [|k rest IH]; simpl; keeps_script. Qed.

Lemma keeps_patch_identity : nav_indep f -> steps (keeps f) patch_identity.
Proof. intros Hn. unfold patch_identity, the_navigator. keeps_script. Qed.

Lemma keeps_patch_userAgentData : nav_indep f -> steps (keeps f) patch_userAgentData.
Proof. intros Hn. unfold patch_userAgentData, the_navigator. keeps_script. Qed.

Lemma keeps_patch_plugins : nav_indep f -> steps (keeps f) patch_plugins.
Proof. intros Hn. unfold patch_plugins, the_navigator. keeps_script. Qed.

Lemma keeps_patch_canvas :
  slot_indep f ToDataURL -> slot_indep f GetImageData -> steps (keeps f) patch_canvas.
Proof. intros H1 H2. unfold patch_canvas. keeps_script. Qed.

Lemma keeps_patch_webgl : slot_indep f GetParameter -> steps (keeps f) patch_webgl.
Proof. intros H1. unfold patch_webgl. keeps_script. Qed.

Lemma keeps_patch_audio : slot_indep f GetChannelData -> steps (keeps f) patch_audio.
Proof. intros H1. unfold patch_audio. keeps_script. Qed.

Lemma keeps_patch_permissions : slot_indep f PermissionsQuery -> steps (keeps f) patch_permissions.
Proof. intros H1. unfold patch_permissions, the_navigator. keeps_script. Qed.

Lemma keeps_clear_artifacts : win_indep f -> steps (keeps f) clear_artifacts.
Proof.
  intros Hw. unfold clear_artifacts, the_window.
  repeat first [apply keeps_sweep; done | keeps_script].
Qed.

Lemma keeps_mark_applied : win_indep f -> steps (keeps f) mark_applied.
Proof. intros Hw. unfold mark_applied. keeps_script. Qed.

End Field.

Lemma run_blocks (e : env X) :
  (run e).2 =
  after mark_applied (after patch_plugins (after patch_permissions
    (after clear_artifacts (after patch_audio (after patch_webgl
      (after patch_canvas (after patch_userAgentData
        (after patch_identity (State e []))))))))).
Proof.
  unfold run, body, after.
  by rewrite !bind_done by apply try_completes.
Qed.

End Frames.

(** ** What the script installs *)

Section Installed.
Import JS Host Wrappers Script.
Local Open Scope js_scope.
Context {X : Type}.

Lemma keeps_after {B} (f : env X -> B) (b : M X unit) (s : state X) :
  steps (keeps f) b -> f (st_env (after b s)) = f (st_env s).
Proof. intros H. apply H. Qed.

Ltac indep := first [by intros [] ? | by intros [] ? ?].

Ltac peel f :=
  repeat first
    [ rewrite (keeps_after f mark_applied) by (apply keeps_mark_applied; indep)
    | rewrite (keeps_after f patch_plugins) by (apply keeps_patch_plugins; indep)
    | rewrite (keeps_after f patch_permissions) by (apply keeps_patch_permissions; indep)
    | rewrite (keeps_after f clear_artifacts) by (apply keeps_clear_artifacts; indep)
    | rewrite (keeps_after f patch_audio) by (apply keeps_patch_audio; indep)
    | rewrite (keeps_after f patch_webgl) by (apply keeps_patch_webgl; indep)
    | rewrite (keeps_after f patch_canvas) by (apply keeps_patch_canvas; indep)
    | rewrite (keeps_after f patch_userAgentData) by (apply keeps_patch_userAgentData; indep)
    | rewrite (keeps_after f patch_identity) by (apply keeps_patch_identity; indep) ].

Lemma apply_natives (e : env X) : natives (apply e) = natives e.
Proof. unfold apply. rewrite run_blocks. by peel (natives (X := X)). Qed.

Lemma patch_webgl_slot (s : state X) :
  webgl (st_env (after patch_webgl s)) = patched_slot getParameter_patch (webgl (st_env s)).
Proof. destruct s as [[] tr]. unfold after. cbn. by destruct webgl0 as [[? []]|]. Qed.

Lemma patch_audio_slot (s : state X) :
  audioBuffer (st_env (after patch_audio s)) =
  patched_slot getChannelData_patch (audioBuffer (st_env s)).
Proof. destruct s as [[] tr]. unfold after. cbn. by destruct audioBuffer0 as [[? []]|]. Qed.

Lemma patch_canvas_toDataURL (s : state X) :
  canvasElement (st_env (after patch_canvas s)) =
  patched_slot (toDataURL_patch (natives (st_env s))) (canvasElement (st_env s)).
Proof.
  destruct s as [[] tr]. unfold after. cbn.
  destruct canvasElement0 as [[? []]|]; cbn; [|done..].
  by destruct context2d0 as [[? []]|].
Qed.

Lemma patch_canvas_getImageData (s : state X) :
  context2d (st_env (after patch_canvas s)) =
  match canvasElement (st_env s) with
  | Some (MSlot _ true) => patched_slot getImageData_patch (context2d (st_env s))
  | _ => context2d (st_env s)
  end.
Proof.
  destruct s as [[] tr]. unfold after. cbn.
  destruct canvasElement0 as [[? []]|]; cbn; [|done..].
  by destruct context2d0 as [[? []]|].
Qed.

Lemma apply_webgl (e : env X) :
  webgl (apply e) = patched_slot getParameter_patch (webgl e).
Proof.
  unfold apply. rewrite run_blocks. peel (webgl (X := X)).
  rewrite patch_webgl_slot. by peel (webgl (X := X)).
Qed.

Lemma apply_audioBuffer (e : env X) :
  audioBuffer (apply e) = patched_slot getChannelData_patch (audioBuffer e).
Proof.
  unfold apply. rewrite run_blocks. peel (audioBuffer (X := X)).
  rewrite patch_audio_slot. by peel (audioBuffer (X := X)).
Qed.

Lemma apply_canvasElement (e : env X) :
  canvasElement (apply e) = patched_slot (toDataURL_patch (natives e)) (canvasElement e).
Proof.
  unfold apply. rewrite run_blocks. peel (canvasElement (X := X)).
  rewrite patch_canvas_toDataURL.
  peel (canvasElement (X := X)). by peel (natives (X := X)).
Qed.

Lemma apply_context2d (e : env X) :
  context2d (apply e) =
  match canvasElement e with
  | Some (MSlot _ true) => patched_slot getImageData_patch (context2d e)
  | _ => context2d e
  end.
Proof.
  unfold apply. rewrite run_blocks. peel (context2d (X := X)).
  rewrite patch_canvas_getImageData.
  peel (context2d (X := X)). by peel (canvasElement (X := X)).
Qed.

End Installed.

(** ** The pixel read-out *)

Section PixelReadout.
Import JS Host Wrappers Noise Num.
Context {X : Type}.

(** C2.  When the engine's [getImageData] returns an [ImageData] whose
    buffer holds [bytes], the replacement returns that same object with
    the bytes at indices 0, 10, 20, ... XORed with [0x11] and every
    other byte, array and the engine state as the engine left them.
    The result is a function of [bytes] alone, so two calls on the same
    canvas content return equal buffers, and the byte that opens each
    stride of ten differs from the engine's.  This replacement is what
    the script leaves in the slot of [getImageData] wherever both canvas
    methods can be assigned to. *)
Theorem getImageData_patch_spec (orig : option (meth X)) (d : doc X) (this : value)
    (args : list value) (d0 : doc X) (l : loc) (bytes : list Z) :
  call orig d this args = (d0, Ret (VRef l)) ->
  u8 d0 !! l = Some bytes ->
  Forall is_byte bytes ->
  exists out : list Z,
    getImageData_patch orig d this args
      = (Doc (<[l := out]> (u8 d0)) (f32 d0) (engine d0), Ret (VRef l)) /\
    length out = length bytes /\
    (forall (i : nat) (b : Z), bytes !! i = Some b ->
       out !! i = Some (if decide ((i mod 10)%nat = 0%nat) then Z.lxor b 0x11 else b)) /\
    (forall (k : nat) (b : Z), bytes !! (10 * k)%nat = Some b ->
       out !! (10 * k)%nat <> Some b) /\
    (forall (d' : doc X) (this' : value) (args' : list value) (d0' : doc X) (l' : loc),
       call orig d' this' args' = (d0', Ret (VRef l')) ->
       u8 d0' !! l' = Some bytes ->
       u8 (getImageData_patch orig d' this' args').1 !! l' = Some out) /\
    (forall (e : env X) (c : option (meth X)),
       canvasElement e = Some (MSlot c true) ->
       context2d e = Some (MSlot orig true) ->
       context2d (Script.apply e) = Some (MSlot (Some (getImageData_patch orig)) true)).
Proof.
  intros Hcall Hl Hbytes. exists (stride_map 10 perturb_byte bytes).
  assert (forall d' this' args' d0' l',
    call orig d' this' args' = (d0', Ret (VRef l')) -> u8 d0' !! l' = Some bytes ->
    getImageData_patch orig d' this' args'
      = (Doc (<[l' := stride_map 10 perturb_byte bytes]> (u8 d0')) (f32 d0') (engine d0'),
         Ret (VRef l'))) as Hrun.
  { intros d' this' args' d0' l' Hc Hb. unfold getImageData_patch, add_pixel_noise.
    rewrite Hc, Hb, pixel_loop_total. done. }
  split_and!.
  - by apply Hrun.
  - apply stride_map_length.
  - intros i b Hi. rewrite stride_map_lookup, Hi. simpl. f_equal.
    case_decide; [|done]. apply perturb_byte_xor. eapply Forall_lookup_1; eauto.
  - intros k b Hk.
    assert (((10 * k) mod 10)%nat = 0%nat) as Hmod
      by (rewrite Nat.mul_comm; apply Nat.Div0.mod_mul).
    revert Hk Hmod. generalize (10 * k)%nat. intros i Hk Hmod.
    rewrite stride_map_lookup, Hk. simpl. rewrite decide_True by exact Hmod.
    intros [= Heq]. eapply perturb_byte_changes; [|exact Heq].
    eapply Forall_lookup_1; eauto.
  - intros d' this' args' d0' l' Hc Hb. rewrite (Hrun _ _ _ _ _ Hc Hb). simpl.
    apply lookup_insert_eq.
  - intros e c Hc Ho. by rewrite apply_context2d, Hc, Ho.
Qed.

(** C8, as the code has it.  A perturbed byte is again a byte and lies
    exactly 15 or 17 away from the original, never within 1. *)
Theorem perturb_byte_bound (b : Z) :
  is_byte b ->
  is_byte (perturb_byte b) /\
  (Z.abs (perturb_byte b - b) = 15 \/ Z.abs (perturb_byte b - b) = 17) /\
  Z.abs (perturb_byte b - b) <= 17.
Proof.
  intros Hb. split; [by apply perturb_byte_is_byte|].
  pose proof (perturb_byte_distance b Hb). split; [done|lia].
Qed.

End PixelReadout.

(** C2 at work: a 12-byte read-out. *)
Lemma getImageData_patch_spec_witness :
  let bytes := [10; 20; 30; 255; 0; 0; 0; 255; 1; 2; 3; 255] in
  let orig := Some (Demo.native_getImageData bytes) in
  let d := Demo.engine_doc ∅ ∅ in
  let d0 := Host.Doc (<[0%nat := bytes]> ∅) ∅ 1%nat in
  Host.call orig d JS.VUndef [] = (d0, JS.Ret (JS.VRef 0%nat)) /\
  Host.u8 d0 !! 0%nat = Some bytes /\
  Forall Num.is_byte bytes /\
  exists out : list Z,
    Wrappers.getImageData_patch orig d JS.VUndef []
      = (Host.Doc (<[0%nat := out]> (Host.u8 d0)) (Host.f32 d0) (Host.engine d0),
         JS.Ret (JS.VRef 0%nat)) /\
    length out = length bytes /\
    (forall (i : nat) (b : Z), bytes !! i = Some b ->
       out !! i = Some (if decide ((i mod 10)%nat = 0%nat) then Z.lxor b 0x11 else b)) /\
    (forall (k : nat) (b : Z), bytes !! (10 * k)%nat = Some b ->
       out !! (10 * k)%nat <> Some b) /\
    (forall (d' : Host.doc nat) (this' : JS.value) (args' : list JS.value)
            (d0' : Host.doc nat) (l' : JS.loc),
       Host.call orig d' this' args' = (d0', JS.Ret (JS.VRef l')) ->
       Host.u8 d0' !! l' = Some bytes ->
       Host.u8 (Wrappers.getImageData_patch orig d' this' args').1 !! l' = Some out) /\
    (forall (e : Host.env nat) (c : option (Host.meth nat)),
       Host.canvasElement e = Some (Host.MSlot c true) ->
       Host.context2d e = Some (Host.MSlot orig true) ->
       Host.context2d (Script.apply e)
       = Some (Host.MSlot (Some (Wrappers.getImageData_patch orig)) true)).
Proof.
  intros bytes orig d d0.
  assert (Forall Num.is_byte bytes) as Hb.
  { repeat constructor; unfold Num.is_byte; lia. }
  split_and!; [reflexivity|reflexivity|exact Hb|].
  apply (getImageData_patch_spec orig d JS.VUndef [] d0 0%nat bytes); [reflexivity|reflexivity|exact Hb].
Defined.

(** C8 as stated fails: the byte 0 is stored as 17. *)
Lemma perturb_byte_not_within_one :
  ~ (forall b : Z, Num.is_byte b -> Z.abs (Noise.perturb_byte b - b) <= 1).
Proof.
  intros H. specialize (H 0). unfold Num.is_byte in H.
  assert (Z.abs (Noise.perturb_byte 0 - 0) = 17) as Heq by reflexivity.
  lia.
Qed.

Lemma perturb_byte_bound_witness :
  Num.is_byte 200 /\
  (Num.is_byte (Noise.perturb_byte 200) /\
   (Z.abs (Noise.perturb_byte 200 - 200) = 15 \/ Z.abs (Noise.perturb_byte 200 - 200) = 17) /\
   Z.abs (Noise.perturb_byte 200 - 200) <= 17).
Proof.
  assert (Num.is_byte 200) as Hb by (unfold Num.is_byte; lia).
  split; [exact Hb|apply (perturb_byte_bound 200 Hb)].
Defined.

(** ** The WebGL parameter read-out *)

Section WebGLReadout.
Import JS Host Wrappers Script.
Context {X : Type}.

Lemma is_num_true (n : Z) (v : value) : is_num n v = true <-> v = VNum n.
Proof.
  destruct v; simpl; try (split; [discriminate|by intros ?]).
  split; [intros ?%Z.eqb_eq; by subst|intros [= ->]; apply Z.eqb_refl].
Qed.

Lemma is_num_false (n : Z) (v : value) : is_num n v = false <-> v <> VNum n.
Proof. rewrite <- is_num_true. by destruct (is_num n v). Qed.

(** C4, as the code has it.  Where assignment to
    [WebGLRenderingContext.prototype.getParameter] is possible, the
    script installs a method that answers code 37445 with the fixed
    vendor string and code 37446 with the fixed renderer string, both
    without asking the engine, and hands every other first argument,
    with [this] and all arguments, to the engine's method. *)
Theorem getParameter_patch_spec (e : env X) (orig : option (meth X)) :
  webgl e = Some (MSlot orig true) ->
  exists f : meth X,
    webgl (apply e) = Some (MSlot (Some f) true) /\
    forall (d : doc X) (this : value) (args : list value),
      let param := default VUndef (args !! 0%nat) in
      (param = VNum 37445 -> f d this args = (d, Ret (VStr "Intel Inc."))) /\
      (param = VNum 37446 -> f d this args = (d, Ret (VStr "Intel Iris OpenGL Engine"))) /\
      (param <> VNum 37445 -> param <> VNum 37446 ->
         f d this args = call orig d this args).
Proof.
  intros He. exists (getParameter_patch orig). split.
  - by rewrite apply_webgl, He.
  - intros d this args param. unfold getParameter_patch. fold param. split_and!.
    + intros ->. done.
    + intros ->. done.
    + intros H1%is_num_false H2%is_num_false. by rewrite H1, H2.
Qed.

End WebGLReadout.

(** C4 as stated fails: code 37446 is not 37445, and the engine's
    renderer string does not come back. *)
Lemma getParameter_renderer_not_delegated :
  ~ (forall (orig : option (Host.meth nat)) (d : Host.doc nat) (this : JS.value)
            (args : list JS.value),
       default JS.VUndef (args !! 0%nat) <> JS.VNum 37445 ->
       Wrappers.getParameter_patch orig d this args = Host.call orig d this args).
Proof.
  intros H.
  specialize (H (Some Demo.native_getParameter) (Demo.engine_doc ∅ ∅) JS.VUndef [JS.VNum 37446]).
  assert (default JS.VUndef ([JS.VNum 37446] !! 0%nat) <> JS.VNum 37445) as Hne by (by intros [=]).
  specialize (H Hne). vm_compute in H. discriminate H.
Qed.

Lemma getParameter_patch_spec_witness :
  let e := Demo.headless [] in
  let orig := Some Demo.native_getParameter in
  Host.webgl e = Some (Host.MSlot orig true) /\
  exists f : Host.meth nat,
    Host.webgl (Script.apply e) = Some (Host.MSlot (Some f) true) /\
    forall (d : Host.doc nat) (this : JS.value) (args : list JS.value),
      let param := default JS.VUndef (args !! 0%nat) in
      (param = JS.VNum 37445 -> f d this args = (d, JS.Ret (JS.VStr "Intel Inc."))) /\
      (param = JS.VNum 37446 ->
         f d this args = (d, JS.Ret (JS.VStr "Intel Iris OpenGL Engine"))) /\
      (param <> JS.VNum 37445 -> param <> JS.VNum 37446 ->
         f d this args = Host.call orig d this args).
Proof.
  intros e orig. split; [reflexivity|].
  apply (getParameter_patch_spec e orig). reflexivity.
Defined.

(** ** The audio read-out *)

Section AudioReadout.
Import JS Host Wrappers Noise.
Context {X : Type}.


End AudioReadout.



(** ** The order of the blocks *)

Section Order.
Import JS Host Wrappers Script.
Local Open Scope js_scope.
Context {X : Type}.

Lemma upto_app (b b' : block) (t t' : list event) :
  upto b t -> Forall (of_block b') t' -> (rank b <= rank b')%nat -> upto b' (t ++ t').
Proof.
  intros [Hord Hall] Ht' Hle. split.
  - intros i j ev1 ev2 Hij H1 H2.
    destruct (decide (j < length t)%nat) as [Hj|Hj].
    + rewrite lookup_app_l in H1, H2 by lia. eauto.
    + rewrite lookup_app_r in H2 by lia.
      apply (Forall_lookup_1 _ _ _ _ Ht') in H2. unfold of_block in H2. rewrite H2.
      destruct (decide (i < length t)%nat) as [Hi|Hi].
      * rewrite lookup_app_l in H1 by lia.
        apply (Forall_lookup_1 _ _ _ _ Hall) in H1. simpl in H1. lia.
      * rewrite lookup_app_r in H1 by lia.
        apply (Forall_lookup_1 _ _ _ _ Ht') in H1. unfold of_block in H1. by rewrite H1.
  - apply Forall_app. split.
    + eapply Forall_impl; [exact Hall|]. simpl. intros; lia.
    + eapply Forall_impl; [exact Ht'|]. unfold of_block. by intros ev ->.
Qed.

Lemma emits_get_target P t : steps (emits X P) (get_target (X := X) t).
Proof.
  destruct t; unfold get_target, the_navigator, the_window; steps_go.
  case_match; steps_go.
Qed.

Lemma emits_put_target P t o : steps (emits X P) (put_target (X := X) t o).
Proof. destruct t; unfold put_target, the_navigator; steps_go. Qed.

Lemma emits_defineProperty (P : event -> Prop) t p d :
  P (EvDefine t p) -> steps (emits X P) (defineProperty (X := X) t p d).
Proof.
  intros HP. unfold defineProperty.
  apply steps_bind; [typeclasses eauto ..|apply emits_get_target|intros o].
  apply steps_bind; [typeclasses eauto ..|by apply emits_log|intros _].
  case_match; [apply emits_put_target|steps_go].
Qed.

Lemma emits_safeDefine (P : event -> Prop) t p v :
  P (EvDefine t p) -> steps (emits X P) (safeDefine (X := X) t p v).
Proof.
  intros HP. unfold safeDefine.
  apply steps_bind; [typeclasses eauto ..|apply emits_get_target|intros _].
  apply steps_try; [typeclasses eauto ..|]. by apply emits_defineProperty.
Qed.

Lemma emits_assign (P : event -> Prop) m (f : meth X) :
  P (EvAssign m) -> steps (emits X P) (assign m f).
Proof.
  intros HP. unfold assign.
  apply steps_bind; [typeclasses eauto ..|steps_go|intros ms].
  apply steps_bind; [typeclasses eauto ..|by apply emits_log|intros _].
  steps_go.
Qed.

Lemma emits_delete_window (P : event -> Prop) p :
  P (EvDelete p) -> steps (emits X P) (delete_window (X := X) p).
Proof.
  intros HP. unfold delete_window, the_window.
  apply steps_bind; [typeclasses eauto ..|steps_go|intros w].
  apply steps_bind; [typeclasses eauto ..|by apply emits_log|intros _].
  case_match; steps_go.
Qed.

Ltac emits_script :=
  repeat first
    [ assumption
    | apply emits_safeDefine; reflexivity
    | apply emits_defineProperty; reflexivity
    | apply emits_assign; reflexivity
    | apply emits_delete_window; reflexivity
    | steps_step
    | case_match ].

Lemma emits_sweep names : steps (emits X (of_block Artifacts)) (sweep (X := X) names).
Proof. induction names as [|k rest IH]; simpl; emits_script. Qed.

Lemma emits_patch_identity : steps (emits X (of_block Identity)) (patch_identity (X := X)).
Proof. unfold patch_identity, the_navigator. emits_script. Qed.

Lemma emits_patch_userAgentData :
  steps (emits X (of_block UserAgentData)) (patch_userAgentData (X := X)).
Proof. unfold patch_userAgentData, the_navigator. emits_script. Qed.

Lemma emits_patch_canvas : steps (emits X (of_block Canvas)) (patch_canvas (X := X)).
Proof. unfold patch_canvas. emits_script. Qed.

Lemma emits_patch_webgl : steps (emits X (of_block WebGL)) (patch_webgl (X := X)).
Proof. unfold patch_webgl. emits_script. Qed.

Lemma emits_patch_audio : steps (emits X (of_block Audio)) (patch_audio (X := X)).
Proof. unfold patch_audio. emits_script. Qed.

Lemma emits_clear_artifacts : steps (emits X (of_block Artifacts)) (clear_artifacts (X := X)).
Proof.
  unfold clear_artifacts, the_window.
  repeat first [apply emits_sweep | emits_script].
Qed.

Lemma emits_patch_permissions :
  steps (emits X (of_block Permissions)) (patch_permissions (X := X)).
Proof. unfold patch_permissions, the_navigator. emits_script. Qed.

Lemma emits_patch_plugins : steps (emits X (of_block Plugins)) (patch_plugins (X := X)).
Proof. unfold patch_plugins, the_navigator. emits_script. Qed.

Lemma emits_mark_applied : steps (emits X (of_block Marker)) (mark_applied (X := X)).
Proof. unfold mark_applied. emits_script. Qed.

Lemma upto_after (b b' : block) (m : M X unit) (s : state X) :
  steps (emits X (of_block b')) m -> (rank b <= rank b')%nat ->
  upto b (st_trace s) -> upto b' (st_trace (after m s)).
Proof.
  intros Hm Hle Hs. destruct (Hm s) as (t & Ht & Hall). unfold after. rewrite Ht.
  by eapply upto_app.
Qed.

End Order.

(** ** Property tables *)

Section Tables.
Import JS.
Context {A : Type}.
Implicit Types (l : list (string * A)) (k p q : string).

Lemma assoc_None l k : assoc k l = None <-> k ∉ l.*1.
Proof.
  induction l as [|[k' a] l IH]; simpl.
  - split; [intros _; apply not_elem_of_nil|done].
  - rewrite not_elem_of_cons. destruct (String.eqb_spec k' k) as [->|Hne].
    + split; [done|]. by intros [? _].
    + rewrite IH. split; [by intros ?|by intros [_ ?]].
Qed.

Lemma assoc_Some_elem l k a : assoc k l = Some a -> k ∈ l.*1.
Proof.
  intros H. destruct (decide (k ∈ l.*1)) as [|Hn]; [done|].
  apply assoc_None in Hn. congruence.
Qed.

Lemma assoc_app l1 l2 k :
  assoc k (l1 ++ l2) = match assoc k l1 with Some a => Some a | None => assoc k l2 end.
Proof.
  induction l1 as [|[k' a] l1 IH]; simpl; [done|]. by destruct (String.eqb k' k).
Qed.

End Tables.

Section OwnKeys.
Import JS.

Lemma elem_of_insert_key k n l (x : N * string) :
  x ∈ insert_key k n l <-> x = (n, k) \/ x ∈ l.
Proof.
  induction l as [|[m k'] l IH]; simpl.
  - rewrite list_elem_of_singleton. split; [by left|]. intros [?|Hin]; [done|].
    by apply elem_of_nil in Hin.
  - destruct (n <? m)%N.
    + by rewrite elem_of_cons.
    + rewrite !elem_of_cons, IH. tauto.
Qed.

Lemma elem_of_index_keys (ks : list string) (k : string) :
  k ∈ (index_keys ks).*2 <-> k ∈ ks /\ array_index k <> None.
Proof.
  induction ks as [|k0 ks IH].
  - split; [intros Hin; by apply elem_of_nil in Hin|intros [Hin _]; by apply elem_of_nil in Hin].
  - change (index_keys (k0 :: ks))
      with (match array_index k0 with
            | Some n => insert_key k0 n (index_keys ks)
            | None => index_keys ks
            end).
    rewrite elem_of_cons. destruct (array_index k0) as [n|] eqn:Hk0.
    + rewrite list_elem_of_fmap. split.
      * intros ([m k'] & -> & Hin). cbn [snd] in *.
        apply elem_of_insert_key in Hin as [[= -> ->]|Hin].
        -- split; [by left|congruence].
        -- destruct IH as [IH _]. destruct IH as [? ?]; [|by split; [right|]].
           apply list_elem_of_fmap. by exists (m, k').
      * intros [[->|Hin] Hidx].
        -- exists (n, k0). split; [done|]. apply elem_of_insert_key. by left.
        -- destruct IH as [_ IH]. specialize (IH (conj Hin Hidx)).
           apply list_elem_of_fmap in IH as (x & -> & Hx).
           exists x. split; [done|]. apply elem_of_insert_key. by right.
    + rewrite IH. split; [intros [? ?]; by split; [right|]|].
      intros [[->|Hin] Hidx]; [congruence|done].
Qed.

Lemma elem_of_own_keys (ks : list string) (k : string) : k ∈ own_keys ks <-> k ∈ ks.
Proof.
  unfold own_keys. rewrite elem_of_app, elem_of_index_keys, list_elem_of_filter.
  destruct (array_index k); split; try tauto.
  intros Hin. left. by split.
Qed.

Lemma elem_of_names (o : object) (k : string) :
  k ∈ getOwnPropertyNames o <-> k ∈ (props o).*1.
Proof. apply elem_of_own_keys. Qed.
(** Indices come first and in numeric order, whatever the order of
    creation. *)
Lemma own_keys_example :
  own_keys ["b"; "10"; "a"; "2"; "01"] = ["2"; "10"; "b"; "a"; "01"].
Proof. reflexivity. Qed.
End OwnKeys.

Section Objects.
Import JS.
Implicit Types (l : list (string * slot)) (k p q : string) (o : object).

Lemma assoc_replace_ne l k p s : k <> p -> assoc k (replace p s l) = assoc k l.
Proof.
  intros Hne. induction l as [|[k' a] l IH]; simpl; [done|].
  destruct (String.eqb_spec k' p) as [->|Hp]; simpl.
  - destruct (String.eqb_spec p k); [congruence|done].
  - destruct (String.eqb k' k); [done|apply IH].
Qed.

Lemma assoc_replace_eq l p s cur : assoc p l = Some cur -> assoc p (replace p s l) = Some s.
Proof.
  induction l as [|[k' a] l IH]; simpl; [done|].
  destruct (String.eqb_spec k' p) as [->|Hp]; simpl.
  - by rewrite String.eqb_refl.
  - destruct (String.eqb_spec k' p); [done|apply IH].
Qed.

Lemma replace_fst l p s : (replace p s l).*1 = l.*1.
Proof.
  induction l as [|[k' a] l IH]; [done|]. cbn [replace].
  destruct (String.eqb k' p); csimpl; [done|by rewrite IH].
Qed.

Lemma replace_same l p s : assoc p l = Some s -> replace p s l = l.
Proof.
  induction l as [|[k' a] l IH]; simpl; [done|].
  destruct (String.eqb k' p); [by intros [= ->]|]. intros H. by rewrite IH.
Qed.

Lemma assoc_remove_ne l k p : k <> p -> assoc k (remove p l) = assoc k l.
Proof.
  intros Hne. unfold remove. induction l as [|[k' a] l IH]; [done|].
  rewrite filter_cons. simpl. case_decide as Hk; simpl.
  - destruct (String.eqb k' k); [done|apply IH].
  - destruct (String.eqb_spec k' k); [|apply IH]. simpl in *. exfalso. congruence.
Qed.

Lemma remove_fst l k p : k ∈ (remove p l).*1 <-> k ∈ l.*1 /\ k <> p.
Proof.
  unfold remove. rewrite !list_elem_of_fmap. split.
  - intros ([k' a] & -> & [Hp Hin]%list_elem_of_filter). simpl in *. split; [|done].
    by exists (k', a).
  - intros [([k' a] & -> & Hin) Hne]. exists (k', a). split; [done|].
    by apply list_elem_of_filter.
Qed.

Lemma define_definable o p d : is_Some (define o p d) <-> definable o p = true.
Proof.
  unfold define, definable. destruct (own o p) as [cur|].
  - destruct (s_configurable cur); split; try done; by intros [? ?].
  - destruct (extensible o); split; try done; by intros [? ?].
Qed.

(** What a property reads as once a definition has gone through. *)
Lemma define_read o o' p d :
  define o p d = Some o' ->
  exists s, own o' p = Some s /\ s_configurable s = true /\
            slot_read s = match d with DGet v => v | DValue v => v end /\
            define o' p d = Some o'.
Proof.
  unfold define. destruct (own o p) as [cur|] eqn:Hown.
  - destruct (s_configurable cur); [|done]. intros [= <-].
    exists (redefined d cur). unfold own in *. simpl.
    rewrite (assoc_replace_eq _ _ _ _ Hown).
    split_and!; [done|done|by destruct d, cur as [[] ? ?]|].
    simpl. assert (redefined d (redefined d cur) = redefined d cur) as ->
      by (by destruct d, cur as [[] ? ?]).
    rewrite replace_same; [done|]. by apply (assoc_replace_eq _ _ _ cur).
  - destruct (extensible o) eqn:Hext; [|done]. intros [= <-].
    exists (created d). unfold own in *. simpl.
    rewrite assoc_app, Hown. simpl. rewrite String.eqb_refl.
    split_and!; [done|destruct d; reflexivity|destruct d; reflexivity|].
    assert (s_configurable (created d) = true) as -> by (destruct d; reflexivity).
    assert (redefined d (created d) = created d) as -> by (destruct d; reflexivity).
    erewrite replace_same; [done|]. rewrite assoc_app, Hown. simpl. by rewrite String.eqb_refl.
Qed.

(** A definition leaves every other property, and extensibility, alone. *)
Lemma define_other o o' p d k :
  define o p d = Some o' -> k <> p -> own o' k = own o k.
Proof.
  unfold define, own. destruct (assoc p (props o)) as [cur|] eqn:Hown.
  - destruct (s_configurable cur); [|done]. intros [= <-] Hne. simpl.
    by apply assoc_replace_ne.
  - destruct (extensible o); [|done]. intros [= <-] Hne. simpl.
    rewrite assoc_app. destruct (assoc k (props o)); [done|]. simpl.
    destruct (String.eqb_spec p k); [congruence|done].
Qed.

Lemma define_extensible o o' p d : define o p d = Some o' -> extensible o' = extensible o.
Proof.
  unfold define. destruct (own o p) as [cur|].
  - destruct (s_configurable cur); [|done]. by intros [= <-].
  - destruct (extensible o); [|done]. by intros [= <-].
Qed.

Lemma define_names o o' p d k :
  define o p d = Some o' ->
  (k ∈ getOwnPropertyNames o') <-> (k ∈ getOwnPropertyNames o \/ k = p).
Proof.
  rewrite !elem_of_names.
  unfold define, own. destruct (assoc p (props o)) as [cur|] eqn:Hown.
  - destruct (s_configurable cur); [|done]. intros [= <-]. simpl. rewrite replace_fst.
    split; [by left|]. intros [?| ->]; [done|]. by eapply assoc_Some_elem.
  - destruct (extensible o); [|done]. intros [= <-]. simpl.
    rewrite fmap_app, elem_of_app. simpl. by rewrite list_elem_of_singleton.
Qed.

(** A deletion that goes through leaves the other properties as they
    were and the name gone; one that fails met a property that is not
    configurable. *)
Lemma delete_prop_Some o o' p :
  delete_prop o p = Some o' ->
  (p ∉ getOwnPropertyNames o') /\
  extensible o' = extensible o /\
  (forall k, k ∈ getOwnPropertyNames o' -> k ∈ getOwnPropertyNames o) /\
  (forall k, k <> p -> own o' k = own o k) /\
  (forall k, k <> p -> k ∈ getOwnPropertyNames o -> k ∈ getOwnPropertyNames o').
Proof.
  setoid_rewrite elem_of_names. unfold delete_prop, own.
  destruct (assoc p (props o)) as [cur|] eqn:Hown.
  - destruct (s_configurable cur); [|done]. intros [= <-]. simpl. split_and!.
    + rewrite remove_fst. by intros [_ ?].
    + done.
    + intros k. rewrite remove_fst. by intros [? _].
    + intros k Hne. by apply assoc_remove_ne.
    + intros k Hne Hin. by apply remove_fst.
  - intros [= <-]. split_and!; try done. by apply assoc_None.
Qed.

Lemma delete_prop_None o p :
  delete_prop o p = None -> exists cur, own o p = Some cur /\ s_configurable cur = false.
Proof.
  unfold delete_prop. destruct (own o p) as [cur|]; [|done].
  destruct (s_configurable cur) eqn:Hc; [done|]. by exists cur.
Qed.

End Objects.

(** ** The script as a function on [navigator] and on the global object *)

Section PureAgrees.
Import JS Host Wrappers Script.
Local Open Scope js_scope.
Context {X : Type}.
Implicit Types (s : state X) (n : navigator_obj) (w : object).

Lemma bind_run {A B} (m : M X A) (k : A -> M X B) s a s' :
  m s = (Ret a, s') -> bind m k s = k a s'.
Proof. intros H. unfold bind. by rewrite H. Qed.

Lemma try_define_navigator s n p d :
  nav_of s = Some n ->
  exists s', try_ (defineProperty TNavigator p d) s = (Ret tt, s') /\
             nav_of s' = Some (Nav (try_define (nav_own n) p d) (nav_proto n)).
Proof.
  destruct s as [[nv ? ? ? ? ? ? ? ?] tr]. unfold nav_of. simpl. intros ->.
  unfold try_, defineProperty, bind, get_target, the_navigator, global, log. simpl.
  unfold try_define. destruct (define (nav_own n) p d) as [o'|]; simpl.
  - eexists. split; [done|]. done.
  - eexists. split; [done|]. simpl. by destruct n.
Qed.

Lemma safeDefine_navigator s n p v :
  nav_of s = Some n ->
  exists s', safeDefine TNavigator p v s = (Ret tt, s') /\
             nav_of s' = Some (run_nav_step n (OwnDefine None p v)).
Proof.
  intros Hn. destruct (try_define_navigator s n p (DGet v) Hn) as (s' & Hs' & Hn').
  exists s'. split; [|done]. unfold safeDefine.
  erewrite bind_run; [exact Hs'|]. unfold get_target, the_navigator, bind, global.
  unfold nav_of in Hn. by rewrite Hn.
Qed.

Lemma try_define_proto s n p v :
  nav_of s = Some n ->
  exists s',
    try_ (n <- the_navigator ;;
          match nav_proto n with
          | Some _ => defineProperty TNavigatorProto p (DGet v)
          | None => ret tt
          end) s = (Ret tt, s') /\
    nav_of s' = Some (run_nav_step n (ProtoDefine p v)).
Proof.
  destruct s as [[nv ? ? ? ? ? ? ? ?] tr]. unfold nav_of. simpl. intros ->.
  unfold try_, defineProperty, bind, get_target, the_navigator, global, log. simpl.
  destruct n as [o [pr|]]; simpl.
  - unfold try_define. destruct (define pr p (DGet v)) as [o'|]; simpl; by eexists.
  - by eexists.
Qed.

Lemma guarded_define s n (c : value -> bool) p v :
  nav_of s = Some n ->
  exists s',
    (if c (nav_get n p) then safeDefine TNavigator p v else ret tt) s = (Ret tt, s') /\
    nav_of s' = Some (run_nav_step n (OwnDefine (Some c) p v)).
Proof.
  intros Hn. simpl. destruct (c (nav_get n p)).
  - by apply safeDefine_navigator.
  - by exists s.
Qed.

Lemma the_navigator_run s n : nav_of s = Some n -> the_navigator s = (Ret n, s).
Proof. unfold nav_of, the_navigator, global. by intros ->. Qed.

Lemma patch_identity_navigator s :
  nav_of (after patch_identity s) = run_nav_steps identity_steps <$> nav_of s.
Proof.
  destruct (nav_of s) as [n|] eqn:Hn; simpl.
  - unfold after, patch_identity. rewrite try_state.
    destruct (safeDefine_navigator s n "languages" (VArr [VStr "en-US"; VStr "en"]) Hn)
      as (s1 & E1 & H1).
    rewrite (bind_run _ _ _ _ _ E1).
    destruct (safeDefine_navigator s1 _ "platform" (VStr "Win32") H1) as (s2 & E2 & H2).
    rewrite (bind_run _ _ _ _ _ E2).
    destruct (safeDefine_navigator s2 _ "hardwareConcurrency" (VNum 8) H2) as (s3 & E3 & H3).
    rewrite (bind_run _ _ _ _ _ E3).
    destruct (safeDefine_navigator s3 _ "deviceMemory" (VNum 8) H3) as (s4 & E4 & H4).
    rewrite (bind_run _ _ _ _ _ E4).
    destruct (try_define_navigator s4 _ "webdriver" (DGet VUndef) H4) as (s5 & E5 & H5).
    rewrite (bind_run _ _ _ _ _ E5).
    destruct (try_define_proto s5 _ "webdriver" VUndef H5) as (s6 & E6 & H6).
    rewrite E6. exact H6.
  - unfold after, patch_identity. rewrite try_state.
    unfold bind at 1. unfold safeDefine at 1. unfold bind at 1.
    unfold get_target, the_navigator, bind, global. unfold nav_of in Hn. by rewrite Hn.
Qed.

Lemma patch_userAgentData_navigator s :
  nav_of (after patch_userAgentData s) = run_nav_steps userAgentData_steps <$> nav_of s.
Proof.
  unfold after, patch_userAgentData. rewrite try_state.
  destruct (nav_of s) as [n|] eqn:Hn; simpl.
  - rewrite (bind_run _ _ _ _ _ (the_navigator_run s n Hn)).
    destruct (guarded_define s n is_undef "userAgentData" userAgentData_value Hn)
      as (s1 & E1 & H1).
    rewrite E1. exact H1.
  - unfold bind, the_navigator, global. unfold nav_of in Hn. by rewrite Hn.
Qed.

Lemma patch_plugins_navigator s :
  nav_of (after patch_plugins s) = run_nav_steps plugins_steps <$> nav_of s.
Proof.
  unfold after, patch_plugins. rewrite try_state.
  destruct (nav_of s) as [n|] eqn:Hn; simpl.
  - rewrite (bind_run _ _ _ _ _ (the_navigator_run s n Hn)).
    destruct (guarded_define s n is_empty_list "plugins" (VArr pluginArray) Hn)
      as (s1 & E1 & H1).
    rewrite (bind_run _ _ _ _ _ E1).
    rewrite (bind_run _ _ _ _ _ (the_navigator_run s1 _ H1)).
    destruct (guarded_define s1 _ is_empty_list "mimeTypes" (VArr []) H1)
      as (s2 & E2 & H2).
    rewrite E2. exact H2.
  - unfold bind, the_navigator, global. unfold nav_of in Hn. by rewrite Hn.
Qed.

Lemma try_delete_window s w p :
  win_of s = Some w ->
  exists s', try_ (delete_window p) s = (Ret tt, s') /\ win_of s' = Some (try_delete w p).
Proof.
  destruct s as [[? ? ? ? ? ? ? wn ?] tr]. unfold win_of. simpl. intros ->.
  unfold try_, delete_window, bind, the_window, global, log. simpl.
  unfold try_delete. destruct (delete_prop w p) as [w'|]; simpl; by eexists.
Qed.

Lemma sweep_window names s w :
  win_of s = Some w ->
  exists s', sweep names s = (Ret tt, s') /\ win_of s' = Some (swept names w).
Proof.
  revert s w. induction names as [|k rest IH]; intros s w Hw; simpl.
  - by exists s.
  - destruct (Regex.test Regex.artifact_re k).
    + destruct (try_delete_window s w k Hw) as (s1 & E1 & H1).
      destruct (IH s1 _ H1) as (s2 & E2 & H2). exists s2. split; [|done].
      erewrite bind_run; [exact E2|]. unfold try_ at 1. by rewrite E1.
    + destruct (IH s w Hw) as (s2 & E2 & H2). exists s2. split; [|done].
      erewrite bind_run; [exact E2|]. done.
Qed.

Lemma clear_artifacts_window s :
  win_of (after clear_artifacts s) = cleared <$> win_of s.
Proof.
  unfold after, clear_artifacts. rewrite try_state.
  destruct (win_of s) as [w|] eqn:Hw; simpl.
  - destruct (try_delete_window s w "__webdriver" Hw) as (s1 & E1 & H1).
    rewrite (bind_run _ _ _ _ _ E1).
    destruct (try_delete_window s1 _ "_webdriver" H1) as (s2 & E2 & H2).
    rewrite (bind_run _ _ _ _ _ E2).
    assert (the_window s2 = (Ret (try_delete (try_delete w "__webdriver") "_webdriver"), s2))
      as E3 by (unfold the_window, global; unfold win_of in H2; by rewrite H2).
    rewrite (bind_run _ _ _ _ _ E3).
    destruct (sweep_window (getOwnPropertyNames (try_delete (try_delete w "__webdriver")
                "_webdriver")) s2 _ H2) as (s4 & E4 & H4).
    rewrite E4. exact H4.
  - unfold win_of in Hw.
    unfold bind, try_, delete_window, the_window, bind, global.
    repeat (rewrite Hw; simpl). done.
Qed.

Lemma mark_applied_window s :
  win_of (after mark_applied s) = patched_marker <$> win_of s.
Proof.
  unfold after, mark_applied. rewrite try_state.
  destruct s as [[? ? ? ? ? ? ? [w|] ?] tr]; unfold win_of; simpl.
  - unfold defineProperty, bind, get_target, the_window, global, log. simpl.
    unfold patched_marker, try_define. by destruct (define w _ _).
  - done.
Qed.

(** The script does to [navigator] and to the global object what the
    two functions say. *)
Lemma apply_navigator (e : env X) : navigator (apply e) = patched_navigator <$> navigator e.
Proof.
  unfold apply. rewrite run_blocks.
  rewrite (keeps_after navigator mark_applied) by (apply keeps_mark_applied; by intros [] ?).
  change (navigator (st_env ?s)) with (nav_of s). rewrite patch_plugins_navigator.
  unfold nav_of.
  rewrite (keeps_after navigator patch_permissions)
    by (apply keeps_patch_permissions; by intros [] ?).
  rewrite (keeps_after navigator clear_artifacts) by (apply keeps_clear_artifacts; by intros [] ?).
  rewrite (keeps_after navigator patch_audio) by (apply keeps_patch_audio; by intros [] ?).
  rewrite (keeps_after navigator patch_webgl) by (apply keeps_patch_webgl; by intros [] ?).
  rewrite (keeps_after navigator patch_canvas) by (apply keeps_patch_canvas; by intros [] ?).
  change (navigator (st_env ?s)) with (nav_of s).
  rewrite patch_userAgentData_navigator, patch_identity_navigator.
  unfold nav_of. cbn [st_env]. destruct (navigator e) as [n|]; [|reflexivity].
  cbn [fmap option_fmap option_map].
  unfold patched_navigator, run_nav_steps. rewrite !foldl_app. reflexivity.
Qed.

Lemma apply_window (e : env X) : window (apply e) = patched_window <$> window e.
Proof.
  unfold apply. rewrite run_blocks.
  change (window (st_env ?s)) with (win_of s). rewrite mark_applied_window. unfold win_of.
  rewrite (keeps_after window patch_plugins) by (apply keeps_patch_plugins; by intros [] ?).
  rewrite (keeps_after window patch_permissions)
    by (apply keeps_patch_permissions; by intros [] ?).
  change (window (st_env ?s)) with (win_of s). rewrite clear_artifacts_window. unfold win_of.
  rewrite (keeps_after window patch_audio) by (apply keeps_patch_audio; by intros [] ?).
  rewrite (keeps_after window patch_webgl) by (apply keeps_patch_webgl; by intros [] ?).
  rewrite (keeps_after window patch_canvas) by (apply keeps_patch_canvas; by intros [] ?).
  rewrite (keeps_after window patch_userAgentData)
    by (apply keeps_patch_userAgentData; by intros [] ?).
  rewrite (keeps_after window patch_identity) by (apply keeps_patch_identity; by intros [] ?).
  cbn [st_env]. destruct (window e); reflexivity.
Qed.

End PureAgrees.

(** ** The artifact pattern in words *)

Section Pattern.
Import Regex.

Lemma matches_here_alt r1 r2 bol s :
  matches_here (Alt r1 r2) bol s = matches_here r1 bol s || matches_here r2 bol s.
Proof.
  unfold matches_here. simpl. destruct (matches r1 bol s); [|done]. simpl.
  by destruct (matches r2 bol s).
Qed.

Lemma matches_here_lit l bol s : matches_here (Lit l) bol s = starts_with l s.
Proof. unfold matches_here, starts_with. simpl. by destruct (eat l s). Qed.

Lemma eat_cons (a : ascii) (l s : string) :
  eat (String a l) s = eat (String a EmptyString) s ≫= eat l.
Proof.
  destruct s as [|c s]; simpl; [done|].
  by destruct (Ascii.eqb (fold_case a) (fold_case c)).
Qed.

Local Arguments eat : simpl never.

Lemma matches_here_cdc bol s :
  matches_here cdc_prefix bol s = bol && (starts_with "_cdc_" s || starts_with "__cdc_" s).
Proof.
  unfold matches_here, cdc_prefix, starts_with. destruct bol; [|done].
  rewrite (eat_cons "_" "cdc_" s), (eat_cons "_" "_cdc_" s).
  cbn [matches flat_map app fst snd andb].
  destruct (eat "_" s) as [s1|]; cbn [mbind option_bind flat_map app fst snd]; [|done].
  rewrite (eat_cons "_" "cdc_" s1).
  destruct (eat "_" s1) as [s2|]; cbn [mbind option_bind flat_map app fst snd];
    destruct (eat "cdc_" s1); try destruct (eat "cdc_" s2); done.
Qed.

Lemma search_artifact_re bol s :
  search artifact_re bol s =
  (bol && (starts_with "_cdc_" s || starts_with "__cdc_" s)) ||
  contains "webdriver" s || contains "__driver" s ||
  contains "selenium" s || contains "driver" s.
Proof.
  revert bol. induction s as [|c s IH]; intros bol.
  - by destruct bol.
  - change (search artifact_re bol (String c s))
      with (matches_here artifact_re bol (String c s) || search artifact_re false s).
    rewrite IH. unfold artifact_re at 1. fold cdc_prefix.
    rewrite !matches_here_alt, !matches_here_lit, matches_here_cdc.
    change (contains ?l (String c s)) with (starts_with l (String c s) || contains l s).
    simpl andb.
    destruct (bol && _), (starts_with "webdriver" _), (starts_with "__driver" _),
      (starts_with "selenium" _), (starts_with "driver" _),
      (contains "webdriver" s), (contains "__driver" s), (contains "selenium" s),
      (contains "driver" s); reflexivity.
Qed.

(** The regular expression of line 120 said in words. *)
Lemma test_artifact_re k : test artifact_re k = artifact_name k.
Proof. unfold test, artifact_name. by rewrite search_artifact_re. Qed.

End Pattern.

(** ** The artifact sweep *)

Section Sweep.
Import JS Host Script Regex.
Implicit Types (w : object) (k p : string).

Lemma shrinks_refl w : shrinks w w.
Proof. by split. Qed.

Lemma shrinks_trans w1 w2 w3 : shrinks w1 w2 -> shrinks w2 w3 -> shrinks w1 w3.
Proof.
  intros [E1 H1] [E2 H2]. split; [congruence|]. intros k Hk.
  destruct (H1 k Hk) as [Hk2 Ho]. destruct (H2 k Hk2) as [Hk3 Ho2]. split; [done|congruence].
Qed.

Lemma try_delete_shrinks w p : shrinks (try_delete w p) w.
Proof.
  unfold try_delete. destruct (delete_prop w p) as [w'|] eqn:Hd; simpl; [|apply shrinks_refl].
  destruct (delete_prop_Some _ _ _ Hd) as (Hp & He & Hn & Ho & _). split; [done|].
  intros k Hk. split; [by apply Hn|]. apply Ho. by intros ->.
Qed.

Lemma try_delete_left w p :
  p ∈ getOwnPropertyNames (try_delete w p) ->
  exists cur, own (try_delete w p) p = Some cur /\ s_configurable cur = false.
Proof.
  unfold try_delete. destruct (delete_prop w p) as [w'|] eqn:Hd; simpl.
  - destruct (delete_prop_Some _ _ _ Hd) as (Hp & _). by intros ?.
  - intros _. by apply delete_prop_None.
Qed.

Lemma try_delete_keeps w p k :
  k <> p -> k ∈ getOwnPropertyNames w -> k ∈ getOwnPropertyNames (try_delete w p).
Proof.
  unfold try_delete. destruct (delete_prop w p) as [w'|] eqn:Hd; simpl; [|done].
  destruct (delete_prop_Some _ _ _ Hd) as (_ & _ & _ & _ & Hk). apply Hk.
Qed.

Lemma swept_cons k rest w :
  swept (k :: rest) w = swept rest (if test artifact_re k then try_delete w k else w).
Proof. reflexivity. Qed.

Lemma swept_spec names w :
  shrinks (swept names w) w /\
  artifacts_locked names (swept names w) /\
  others_kept (swept names w) w.
Proof.
  revert w. induction names as [|k rest IH]; intros w.
  - split_and!; [apply shrinks_refl| |by intros k]. intros k Hk. by apply elem_of_nil in Hk.
  - rewrite swept_cons. destruct (test artifact_re k) eqn:Ht.
    + destruct (IH (try_delete w k)) as (Hs & Hl & Ho).
      pose proof (try_delete_shrinks w k) as Hd. split_and!.
      * by eapply shrinks_trans.
      * intros k' [->|Hin]%elem_of_cons Ht' Hk'; [|by apply Hl].
        destruct Hs as [_ Hs]. destruct (Hs k Hk') as [Hin Hown].
        rewrite Hown. by apply try_delete_left.
      * intros k' Ht' Hin. apply Ho; [done|]. apply try_delete_keeps; [|done].
        intros ->. congruence.
    + destruct (IH w) as (Hs & Hl & Ho). split_and!; [done| |done].
      intros k' [->|Hin]%elem_of_cons Ht' Hk'; [congruence|by apply Hl].
Qed.

Lemma cleared_spec w :
  shrinks (cleared w) w /\
  artifacts_locked (getOwnPropertyNames (cleared w)) (cleared w) /\
  others_kept (cleared w) w.
Proof.
  unfold cleared. set (w2 := try_delete (try_delete w "__webdriver") "_webdriver").
  destruct (swept_spec (getOwnPropertyNames w2) w2) as (Hs & Hl & Ho).
  assert (shrinks w2 w) as Hs2.
  { eapply shrinks_trans; apply try_delete_shrinks. }
  split_and!.
  - by eapply shrinks_trans.
  - intros k Hk Ht _. apply Hl; [|done..]. destruct Hs as [_ Hs]. by apply Hs.
  - intros k Ht Hin. apply Ho; [done|]. unfold w2.
    apply try_delete_keeps; [intros ->; by vm_compute in Ht|].
    apply try_delete_keeps; [intros ->; by vm_compute in Ht|done].
Qed.

Lemma patched_window_spec w :
  shrinks (cleared w) w /\
  (forall k, k ∈ getOwnPropertyNames (patched_window w) ->
     test artifact_re k = true ->
     exists cur, own (patched_window w) k = Some cur /\ s_configurable cur = false /\
                 own w k = Some cur) /\
  others_kept (patched_window w) w.
Proof.
  destruct (cleared_spec w) as (Hs & Hl & Ho). split; [done|].
  unfold patched_window, patched_marker, try_define.
  destruct (define (cleared w) _ _) as [w4|] eqn:Hd; simpl.
  - split.
    + intros k Hk Ht. apply (define_names _ _ _ _ k Hd) in Hk.
      destruct Hk as [Hk| ->]; [|by vm_compute in Ht].
      assert (k <> "__stealth_patch_applied__") as Hne by (intros ->; by vm_compute in Ht).
      rewrite (define_other _ _ _ _ k Hd Hne).
      destruct (Hl k Hk Ht Hk) as (cur & Hc & Hnc). exists cur. split_and!; [done..|].
      destruct Hs as [_ Hs]. destruct (Hs k Hk) as [_ <-]. done.
    + intros k Ht Hin. apply (define_names _ _ _ _ k Hd). left. by apply Ho.
  - split; [|done]. intros k Hk Ht.
    destruct (Hl k Hk Ht Hk) as (cur & Hc & Hnc). exists cur. split_and!; [done..|].
    destruct Hs as [_ Hs]. destruct (Hs k Hk) as [_ <-]. done.
Qed.

(** C6, as the code has it.  After the script has run, every own
    property of the global object whose name matches the pattern of
    line 120 (it begins with [_cdc_] or [__cdc_], or has [webdriver],
    [__driver], [selenium] or [driver] in it, in any letter case) is a
    property that was there before and is not configurable; every such
    property that was configurable is gone, and no property of another
    name has been taken away. *)
Theorem artifacts_after_apply {X : Type} (e : env X) (w' : object) :
  window (apply e) = Some w' ->
  exists w : object,
    window e = Some w /\
    (forall k : string, test artifact_re k = artifact_name k) /\
    (forall k : string,
       k ∈ getOwnPropertyNames w' -> artifact_name k = true ->
       exists cur : slot,
         own w' k = Some cur /\ s_configurable cur = false /\ own w k = Some cur) /\
    (forall k : string,
       artifact_name k = false -> k ∈ getOwnPropertyNames w -> k ∈ getOwnPropertyNames w').
Proof.
  rewrite apply_window. destruct (window e) as [w|]; [|done]. simpl. intros [= <-].
  exists w. destruct (patched_window_spec w) as (_ & Hl & Ho).
  split_and!; [done|apply test_artifact_re|..].
  - intros k Hk Hn. apply Hl; [done|]. by rewrite test_artifact_re.
  - intros k Hn Hin. apply Ho; [|done]. by rewrite test_artifact_re.
Qed.

End Sweep.

(** The global object of the headless engine after the script. *)
Lemma headless_window_after :
  Host.window (Script.apply (Demo.headless [])) = Some (patched_window Demo.driven_window) /\
  JS.getOwnPropertyNames (patched_window Demo.driven_window)
    = ["document"; "cdc_adoQpoasnfa76pfcZLmcfl_Array"; "webdriver_locked";
       "__stealth_patch_applied__"].
Proof. split; [rewrite apply_window; reflexivity|vm_compute; reflexivity]. Qed.

(** C6 as stated fails twice over: a marker that is not configurable
    stays, and so does a configurable one that begins with [cdc_], which
    the pattern of line 120 does not match. *)
Lemma artifact_names_survive :
  ~ (forall (e : Host.env nat) (w' : JS.object),
       Host.window (Script.apply e) = Some w' ->
       forall k : string, k ∈ JS.getOwnPropertyNames w' -> artifact_named_in_spec k = false) /\
  ~ (forall (e : Host.env nat) (w w' : JS.object) (k : string) (cur : JS.slot),
       Host.window e = Some w ->
       Host.window (Script.apply e) = Some w' ->
       JS.own w k = Some cur -> JS.s_configurable cur = true ->
       artifact_named_in_spec k = true ->
       k ∉ JS.getOwnPropertyNames w').
Proof.
  destruct headless_window_after as [Hw Hnames]. split.
  - intros H. specialize (H _ _ Hw "webdriver_locked").
    assert (artifact_named_in_spec "webdriver_locked" = true) as Ht by reflexivity.
    rewrite H in Ht; [discriminate|]. rewrite Hnames.
    apply list_elem_of_In. right. right. left. reflexivity.
  - intros H.
    apply (H (Demo.headless []) Demo.driven_window _ "cdc_adoQpoasnfa76pfcZLmcfl_Array"
             (Demo.marker true) eq_refl Hw); [reflexivity..|].
    rewrite Hnames. apply list_elem_of_In. right. left. reflexivity.
Qed.

Lemma artifacts_after_apply_witness :
  let e := Demo.headless [] in
  let w' := patched_window Demo.driven_window in
  Host.window (Script.apply e) = Some w' /\
  exists w : JS.object,
    Host.window e = Some w /\
    (forall k : string, Regex.test Regex.artifact_re k = artifact_name k) /\
    (forall k : string,
       k ∈ JS.getOwnPropertyNames w' -> artifact_name k = true ->
       exists cur : JS.slot,
         JS.own w' k = Some cur /\ JS.s_configurable cur = false /\ JS.own w k = Some cur) /\
    (forall k : string,
       artifact_name k = false -> k ∈ JS.getOwnPropertyNames w ->
       k ∈ JS.getOwnPropertyNames w').
Proof.
  intros e w'.
  assert (Host.window (Script.apply e) = Some w') as Hw
    by (rewrite apply_window; reflexivity).
  split; [exact Hw|]. apply (artifacts_after_apply e w' Hw).
Defined.

(** ** Definitions on [navigator], step by step *)

Section NavigatorSteps.
Import JS Host Script.
Implicit Types (o : object) (n : navigator_obj) (p q : string) (d : descriptor).

Lemma try_define_own_other o p q d : p <> q -> own (try_define o q d) p = own o p.
Proof.
  intros Hne. unfold try_define. destruct (define o q d) eqn:Hd; [|done].
  simpl. by eapply define_other.
Qed.

Lemma try_define_extensible o q d : extensible (try_define o q d) = extensible o.
Proof.
  unfold try_define. destruct (define o q d) eqn:Hd; [|done]. simpl.
  by eapply define_extensible.
Qed.

Lemma try_define_twice o p d : try_define (try_define o p d) p d = try_define o p d.
Proof.
  unfold try_define at 2 3. destruct (define o p d) as [o'|] eqn:Hd; simpl.
  - destruct (define_read _ _ _ _ Hd) as (s & _ & _ & _ & Hagain).
    unfold try_define. by rewrite Hagain.
  - unfold try_define. by rewrite Hd.
Qed.

(** Defining changes nothing exactly when it is refused or the
    property already is what the descriptor makes of it. *)
Lemma try_define_fix o p d :
  try_define o p d = o <->
  match own o p with
  | Some cur => s_configurable cur = false \/ redefined d cur = cur
  | None => extensible o = false
  end.
Proof.
  unfold try_define, define. destruct (own o p) as [cur|] eqn:Hown.
  - destruct (s_configurable cur); simpl; [|by split; [left|]].
    split.
    + intros Heq. right. destruct o as [l ext]. simpl in *.
      injection Heq as Heq. unfold own in Hown. simpl in Hown.
      pose proof (assoc_replace_eq l p (redefined d cur) cur Hown) as H.
      rewrite Heq in H. congruence.
    + intros [|Heq]; [done|]. rewrite Heq. destruct o as [l ext]. simpl in *.
      f_equal. by apply replace_same.
  - destruct (extensible o) eqn:Hext; simpl; [|done].
    split; [|done]. intros Heq. exfalso. destruct o as [l ext]. simpl in *.
    injection Heq as Heq _. apply (f_equal length) in Heq.
    rewrite length_app in Heq. simpl in Heq. lia.
Qed.

Lemma try_define_fix_other o p q d d' :
  p <> q -> try_define o p d = o -> try_define (try_define o q d') p d = try_define o q d'.
Proof.
  intros Hne Hfix. apply try_define_fix.
  rewrite try_define_own_other, try_define_extensible by done.
  by apply try_define_fix.
Qed.

Lemma try_define_refused o p d : definable o p = false -> try_define o p d = o.
Proof.
  intros Hd. unfold try_define. destruct (define o p d) eqn:E; [|done].
  assert (is_Some (define o p d)) as Hs by (by eexists).
  apply define_definable in Hs. congruence.
Qed.

Lemma try_define_done o p d :
  definable o p = true ->
  exists s, own (try_define o p d) p = Some s /\
            slot_read s = match d with DGet v => v | DValue v => v end.
Proof.
  intros Hd. apply (define_definable o p d) in Hd as [o' Ho'].
  unfold try_define. rewrite Ho'. simpl.
  destruct (define_read _ _ _ _ Ho') as (s & Hs & _ & Hr & _). by exists s.
Qed.

Lemma definable_try_define_other o p q d :
  p <> q -> definable (try_define o q d) p = definable o p.
Proof.
  intros Hne. unfold definable. by rewrite try_define_own_other, try_define_extensible.
Qed.

Lemma nav_eta n : Nav (nav_own n) (nav_proto n) = n.
Proof. by destruct n. Qed.

(** A step leaves the properties of other names as they read, and as
    definable as they were. *)
Lemma step_other n st p :
  step_key st <> p ->
  nav_get (run_nav_step n st) p = nav_get n p /\
  definable (nav_own (run_nav_step n st)) p = definable (nav_own n) p.
Proof.
  intros Hne. destruct st as [g q v|q v]; simpl in *.
  - destruct (guard_holds g (nav_get n q)); [|done]. split.
    + unfold nav_get. simpl. by rewrite try_define_own_other.
    + simpl. by apply definable_try_define_other.
  - split; [|done]. unfold nav_get. simpl. destruct (own (nav_own n) p); [done|].
    destruct (nav_proto n) as [pr|]; simpl; [|done]. by rewrite try_define_own_other.
Qed.

Lemma steps_other steps n p :
  Forall (fun st => step_key st <> p) steps ->
  nav_get (run_nav_steps steps n) p = nav_get n p /\
  definable (nav_own (run_nav_steps steps n)) p = definable (nav_own n) p.
Proof.
  intros Hall. revert n. induction Hall as [|st steps Hst _ IH]; intros n; [done|].
  unfold run_nav_steps in *. simpl. destruct (IH (run_nav_step n st)) as [-> ->].
  by apply step_other.
Qed.

(** A guarded definition on [navigator] itself: the property reads as
    the new value when the guard holds and the definition goes through,
    and as before otherwise. *)
Lemma own_step_same n g p v :
  nav_get (run_nav_step n (OwnDefine g p v)) p =
  if guard_holds g (nav_get n p) && definable (nav_own n) p then v else nav_get n p.
Proof.
  simpl. destruct (guard_holds g (nav_get n p)); simpl; [|done].
  destruct (definable (nav_own n) p) eqn:Hd.
  - destruct (try_define_done (nav_own n) p (DGet v) Hd) as (s & Hs & Hr).
    unfold nav_get. simpl. by rewrite Hs.
  - by rewrite try_define_refused, nav_eta.
Qed.

Lemma step_settles n st : settled (run_nav_step n st) st.
Proof.
  unfold settled. destruct st as [g p v|p v]; simpl.
  - destruct (guard_holds g (nav_get n p)) eqn:Hg; simpl.
    + rewrite try_define_twice. by case_match.
    + by rewrite Hg.
  - f_equal. destruct (nav_proto n) as [pr|]; simpl; [|done]. by rewrite try_define_twice.
Qed.

Lemma compatible_settled n st st' :
  compatible st st' = true -> settled n st -> settled (run_nav_step n st') st.
Proof.
  unfold settled. destruct st as [g p v|p v], st' as [g' q v'|q v']; simpl; try done.
  - intros Hc Hfix.
    assert (p <> q) as Hpq by (destruct g; by apply String.eqb_neq, negb_true_iff).
    destruct (guard_holds g' (nav_get n q)); [|done].
    set (n' := Nav (try_define (nav_own n) q (DGet v')) (nav_proto n)).
    assert (nav_get n' p = nav_get n p) as ->.
    { unfold nav_get, n'. simpl. by rewrite try_define_own_other. }
    destruct (guard_holds g (nav_get n p)); [|done].
    unfold n'. simpl. f_equal. apply try_define_fix_other; [done|].
    by apply (f_equal nav_own) in Hfix.
  - destruct g; [done|]. simpl. intros _ Hfix.
    apply (f_equal nav_own) in Hfix. simpl in Hfix. by rewrite Hfix.
  - intros _ Hfix. destruct (guard_holds g' (nav_get n q)); [|done]. simpl.
    f_equal. by apply (f_equal nav_proto) in Hfix.
Qed.

Lemma settled_through steps n st :
  Forall (fun st' => compatible st st' = true) steps ->
  settled n st -> settled (run_nav_steps steps n) st.
Proof.
  intros Hall. revert n. induction Hall as [|st' steps Hc _ IH]; intros n Hn; [done|].
  unfold run_nav_steps. simpl. apply IH. by apply compatible_settled.
Qed.

Lemma all_settled steps n :
  ForallOrdPairs (fun st st' => compatible st st' = true) steps ->
  Forall (settled (run_nav_steps steps n)) steps.
Proof.
  intros Hpairs. revert n. induction Hpairs as [|st steps Hst _ IH]; intros n; [done|].
  constructor.
  - unfold run_nav_steps. simpl. apply settled_through; [done|]. apply step_settles.
  - unfold run_nav_steps. simpl. apply IH.
Qed.

Lemma settled_run steps n : Forall (settled n) steps -> run_nav_steps steps n = n.
Proof.
  induction 1 as [|st steps Hst _ IH]; [done|].
  unfold run_nav_steps in *. simpl. unfold settled in Hst. by rewrite Hst.
Qed.

(** Running compatible steps a second time changes nothing. *)
Lemma run_nav_steps_twice steps n :
  ForallOrdPairs (fun st st' => compatible st st' = true) steps ->
  run_nav_steps steps (run_nav_steps steps n) = run_nav_steps steps n.
Proof. intros H. by apply settled_run, all_settled. Qed.

Lemma patched_navigator_twice n :
  patched_navigator (patched_navigator n) = patched_navigator n.
Proof.
  apply run_nav_steps_twice. simpl.
  repeat (constructor; [repeat constructor|]). constructor.
Qed.

End NavigatorSteps.

(** ** Running the script twice *)

Section Twice.
Import JS Host Wrappers Script Noise Num Regex.
Context {X : Type}.

Lemma try_delete_fix (w : object) (p : string) :
  (p ∈ getOwnPropertyNames w -> exists cur, own w p = Some cur /\ s_configurable cur = false) ->
  try_delete w p = w.
Proof.
  intros H. unfold try_delete, delete_prop. destruct (own w p) as [cur|] eqn:Hown; [|done].
  destruct H as (cur' & Hc & Hnc).
  { apply elem_of_names. unfold own in Hown. by eapply assoc_Some_elem. }
  assert (cur' = cur) as -> by congruence. by rewrite Hnc.
Qed.

Lemma swept_fix (names : list string) (w : object) :
  artifacts_locked names w -> swept names w = w.
Proof.
  induction names as [|k rest IH]; intros Hl; [done|].
  rewrite swept_cons. destruct (test artifact_re k) eqn:Ht.
  - rewrite try_delete_fix.
    + apply IH. intros k' Hk'. apply Hl. by right.
    + intros Hin. apply Hl; [by left|done..].
  - apply IH. intros k' Hk'. apply Hl. by right.
Qed.

Lemma cleared_fix (w : object) :
  artifacts_locked (getOwnPropertyNames w) w -> cleared w = w.
Proof.
  intros Hl. unfold cleared.
  rewrite (try_delete_fix w "__webdriver") by (intros Hin; by apply Hl).
  rewrite (try_delete_fix w "_webdriver") by (intros Hin; by apply Hl).
  by apply swept_fix.
Qed.

Lemma patched_window_twice (w : object) :
  patched_window (patched_window w) = patched_window w.
Proof.
  destruct (patched_window_spec w) as (_ & Hl & _).
  unfold patched_window at 1. rewrite cleared_fix.
  - unfold patched_window, patched_marker. apply try_define_twice.
  - intros k Hk Ht _. destruct (Hl k Hk Ht) as (cur & ? & ? & _). by exists cur.
Qed.

Lemma getParameter_patch_twice (orig : option (meth X)) d this args :
  getParameter_patch (Some (getParameter_patch orig)) d this args
  = getParameter_patch orig d this args.
Proof. unfold getParameter_patch. simpl. by repeat case_match. Qed.

(** C1, as the code has it.  A second run of the script completes as
    the first does.  After it [navigator], the global object and the
    answers of [getParameter] are what they were after the first run.
    The canvas and audio methods, though, are wrapped a second time:
    [getImageData] runs the XOR loop twice and so returns the engine's
    bytes, [getChannelData] adds epsilon twice, [toDataURL] makes its
    attempt to fill twice. *)
Theorem apply_twice (e : env X) :
  (run (apply e)).1 = Ret tt /\
  navigator (apply (apply e)) = navigator (apply e) /\
  window (apply (apply e)) = window (apply e) /\
  (forall (d : doc X) (this : value) (args : list value),
     invoke (webgl (apply (apply e))) d this args = invoke (webgl (apply e)) d this args) /\
  canvasElement (apply (apply e))
    = patched_slot (toDataURL_patch (natives e))
        (patched_slot (toDataURL_patch (natives e)) (canvasElement e)) /\
  audioBuffer (apply (apply e))
    = patched_slot getChannelData_patch (patched_slot getChannelData_patch (audioBuffer e)) /\
  (forall (c orig : option (meth X)),
     canvasElement e = Some (MSlot c true) -> context2d e = Some (MSlot orig true) ->
     context2d (apply e) = Some (MSlot (Some (getImageData_patch orig)) true) /\
     context2d (apply (apply e))
       = Some (MSlot (Some (getImageData_patch (Some (getImageData_patch orig)))) true) /\
     forall (d : doc X) (this : value) (args : list value) (d0 : doc X) (l : loc)
            (bytes : list Z),
       call orig d this args = (d0, Ret (VRef l)) ->
       u8 d0 !! l = Some bytes ->
       Forall is_byte bytes ->
       getImageData_patch (Some (getImageData_patch orig)) d this args = (d0, Ret (VRef l))).
Proof.
  split_and!.
  - apply run_completes.
  - rewrite !apply_navigator. destruct (navigator e) as [n|]; [|done]. simpl.
    by rewrite patched_navigator_twice.
  - rewrite !apply_window. destruct (window e) as [w|]; [|done]. simpl.
    by rewrite patched_window_twice.
  - intros d this args. rewrite !apply_webgl.
    destruct (webgl e) as [[orig []]|]; simpl; [|done..].
    apply getParameter_patch_twice.
  - rewrite !apply_canvasElement. by rewrite apply_natives.
  - by rewrite !apply_audioBuffer.
  - intros c orig Hc Ho. rewrite !apply_context2d, !apply_canvasElement, Hc, Ho. simpl.
    split_and!; [done..|].
    intros d this args d0 l bytes Hcall Hl Hbytes.
    unfold getImageData_patch at 1. simpl.
    unfold getImageData_patch, add_pixel_noise. rewrite Hcall, Hl, pixel_loop_total. simpl.
    rewrite lookup_insert_eq, pixel_loop_total. simpl.
    rewrite insert_insert_eq, pixel_noise_twice by done.
    rewrite insert_id by done. by destruct d0.
Qed.

End Twice.

(** C1 as stated fails: after one run [getImageData] returns the first
    byte 0 of the canvas as 17, after two runs as 0. *)
Lemma apply_twice_differs :
  ~ (forall (e : Host.env nat) (d : Host.doc nat) (this : JS.value) (args : list JS.value),
       Demo.bytes_of (Host.invoke (Host.context2d (Script.apply (Script.apply e))) d this args)
       = Demo.bytes_of (Host.invoke (Host.context2d (Script.apply e)) d this args)).
Proof.
  intros H.
  specialize (H (Demo.headless [0; 0; 0; 255]) (Demo.engine_doc ∅ ∅) JS.VUndef []).
  vm_compute in H. discriminate H.
Qed.

(** ** The whole environment *)

Section WholeEnvironmentFacts.
Import JS Host Wrappers Script.
Local Open Scope js_scope.
Context {X : Type}.

Lemma after_keeps {B} (f : env X -> B) (b : M X unit) (s : state X) :
  steps (keeps f) b -> f (st_env (after b s)) = f (st_env s).
Proof. intros H. apply H. Qed.

Lemma patch_permissions_slot (s : state X) :
  permissions (st_env (after patch_permissions s)) = patched_permissions (st_env s).
Proof.
  destruct s as [[nv pm ? ? ? ? ? ? ?] tr]. unfold after, patched_permissions. cbn.
  destruct nv as [n|]; cbn; [|by destruct pm as [[[q|] []]|]].
  by destruct pm as [[[q|] []]|].
Qed.

Lemma apply_permissions (e : env X) : permissions (apply e) = patched_permissions e.
Proof.
  unfold apply. rewrite run_blocks.
  rewrite (after_keeps permissions mark_applied) by (apply keeps_mark_applied; by intros [] ?).
  rewrite (after_keeps permissions patch_plugins) by (apply keeps_patch_plugins; by intros [] ?).
  rewrite patch_permissions_slot. unfold patched_permissions.
  rewrite !(after_keeps navigator clear_artifacts),
          !(after_keeps permissions clear_artifacts),
          !(after_keeps notification clear_artifacts), ?(after_keeps natives clear_artifacts)
    by (apply keeps_clear_artifacts; by intros [] ?).
  rewrite !(after_keeps navigator patch_audio), !(after_keeps permissions patch_audio),
          !(after_keeps notification patch_audio), ?(after_keeps natives patch_audio)
    by (apply keeps_patch_audio; by intros [] ?).
  rewrite !(after_keeps navigator patch_webgl), !(after_keeps permissions patch_webgl),
          !(after_keeps notification patch_webgl), ?(after_keeps natives patch_webgl)
    by (apply keeps_patch_webgl; by intros [] ?).
  rewrite !(after_keeps navigator patch_canvas), !(after_keeps permissions patch_canvas),
          !(after_keeps notification patch_canvas), ?(after_keeps natives patch_canvas)
    by (apply keeps_patch_canvas; by intros [] ?).
  rewrite !(after_keeps permissions patch_userAgentData),
          !(after_keeps notification patch_userAgentData), ?(after_keeps natives patch_userAgentData)
    by (apply keeps_patch_userAgentData; by intros [] ?).
  rewrite !(after_keeps permissions patch_identity), !(after_keeps notification patch_identity), ?(after_keeps natives patch_identity)
    by (apply keeps_patch_identity; by intros [] ?).
  change (navigator (st_env ?s)) with (nav_of s).
  rewrite patch_userAgentData_navigator, patch_identity_navigator.
  unfold nav_of. cbn [st_env]. by destruct (navigator e).
Qed.

Lemma apply_notification (e : env X) : notification (apply e) = notification e.
Proof.
  unfold apply. rewrite run_blocks.
  rewrite (after_keeps notification mark_applied) by (apply keeps_mark_applied; by intros [] ?).
  rewrite (after_keeps notification patch_plugins) by (apply keeps_patch_plugins; by intros [] ?).
  rewrite (after_keeps notification patch_permissions)
    by (apply keeps_patch_permissions; by intros [] ?).
  rewrite (after_keeps notification clear_artifacts)
    by (apply keeps_clear_artifacts; by intros [] ?).
  rewrite (after_keeps notification patch_audio) by (apply keeps_patch_audio; by intros [] ?).
  rewrite (after_keeps notification patch_webgl) by (apply keeps_patch_webgl; by intros [] ?).
  rewrite (after_keeps notification patch_canvas) by (apply keeps_patch_canvas; by intros [] ?).
  rewrite (after_keeps notification patch_userAgentData)
    by (apply keeps_patch_userAgentData; by intros [] ?).
  by rewrite (after_keeps notification patch_identity)
    by (apply keeps_patch_identity; by intros [] ?).
Qed.

(** X1.  What the script leaves is given surface by surface: each of
    [navigator], the global object and the five method slots ends up as
    a function of its own former value, except that [getImageData] is
    wrapped only if the assignment to [toDataURL] went through and
    [permissions.query] only if [navigator] is bound; [Notification]
    and the canvas methods the script merely calls are untouched.  So a
    missing or locked interface costs its own patch and, for these two
    couplings, the one behind it, and nothing else. *)
Theorem apply_field_by_field (e : env X) : apply e = patched_env e.
Proof.
  pose proof (apply_navigator e) as H1. pose proof (apply_permissions e) as H2.
  pose proof (apply_canvasElement e) as H3. pose proof (apply_context2d e) as H4.
  pose proof (apply_webgl e) as H5. pose proof (apply_audioBuffer e) as H6.
  pose proof (apply_notification e) as H7. pose proof (apply_window e) as H8.
  pose proof (apply_natives e) as H9.
  unfold patched_env, patched_context2d.
  destruct (apply e) as [a1 a2 a3 a4 a5 a6 a7 a8 a9]. cbn [navigator permissions canvasElement
    context2d webgl audioBuffer notification window natives] in *.
  by rewrite H1, H2, H3, H4, H5, H6, H7, H8, H9.
Qed.
End WholeEnvironmentFacts.

(** ** How [navigator] reads afterwards *)

Section NavigatorReads.
Import JS Host Wrappers Script.
Context {X : Type}.
Implicit Types (o : object) (n : navigator_obj) (p q : string) (d : descriptor).

Lemma try_define_own o p d : own (try_define o p d) p = own_after d o p.
Proof.
  unfold own_after, try_define, define, definable, own.
  destruct (assoc p (props o)) as [cur|] eqn:Hown.
  - destruct (s_configurable cur); simpl; [|done].
    by apply (assoc_replace_eq _ _ _ cur).
  - destruct (extensible o); simpl; [|done].
    rewrite assoc_app, Hown. simpl. by rewrite String.eqb_refl.
Qed.

Lemma own_after_read d o p :
  definable o p = true ->
  exists s, own_after d o p = Some s /\ s_configurable s = true /\
            slot_read s = match d with DGet v => v | DValue v => v end.
Proof.
  intros Hd. unfold own_after. rewrite Hd. eexists. split; [done|].
  destruct (own o p) as [[[] ? ?]|], d; split; reflexivity.
Qed.

Lemma nav_get_views n n' p : views n' p = views n p -> nav_get n' p = nav_get n p.
Proof.
  unfold views, nav_get. intros [= H1 H2 H3]. rewrite H1.
  destruct (own (nav_own n) p); [done|].
  destruct (nav_proto n'), (nav_proto n); simpl in *; try done. by injection H3 as -> _.
Qed.

Lemma definable_views n n' p :
  views n' p = views n p -> definable (nav_own n') p = definable (nav_own n) p.
Proof. unfold views, definable. intros [= H1 H2 H3]. by rewrite H1, H2. Qed.

Lemma step_views n st p : step_key st <> p -> views (run_nav_step n st) p = views n p.
Proof.
  intros Hne. unfold views. destruct st as [g q v|q v]; simpl in *.
  - destruct (guard_holds g (nav_get n q)); [|done]. simpl.
    by rewrite try_define_own_other, try_define_extensible.
  - destruct (nav_proto n) as [pr|]; simpl; [|done].
    by rewrite try_define_own_other, try_define_extensible.
Qed.

Lemma steps_views steps n p :
  Forall (fun st => step_key st <> p) steps -> views (run_nav_steps steps n) p = views n p.
Proof.
  intros Hall. revert n. induction Hall as [|st steps Hst _ IH]; intros n; [done|].
  unfold run_nav_steps in *. simpl. rewrite IH. by apply step_views.
Qed.

(** A property that exactly one step defines, on [navigator] itself. *)
Lemma defined_once pre g p v post n :
  Forall (fun st => step_key st <> p) pre ->
  Forall (fun st => step_key st <> p) post ->
  let n' := run_nav_steps (pre ++ OwnDefine g p v :: post) n in
  own (nav_own n') p
    = (if guard_holds g (nav_get n p) then own_after (DGet v) (nav_own n) p
       else own (nav_own n) p) /\
  nav_get n' p
    = (if guard_holds g (nav_get n p) && definable (nav_own n) p then v else nav_get n p).
Proof.
  intros Hpre Hpost n'.
  assert (n' = run_nav_steps post (run_nav_step (run_nav_steps pre n) (OwnDefine g p v))) as ->.
  { unfold n', run_nav_steps. by rewrite foldl_app. }
  set (n0 := run_nav_steps pre n).
  pose proof (steps_views pre n p Hpre) as Hv0. fold n0 in Hv0.
  pose proof (steps_views post (run_nav_step n0 (OwnDefine g p v)) p Hpost) as Hv1.
  split.
  - assert (own (nav_own (run_nav_steps post (run_nav_step n0 (OwnDefine g p v)))) p
            = own (nav_own (run_nav_step n0 (OwnDefine g p v))) p) as ->
      by (by injection Hv1).
    rewrite <- (nav_get_views _ _ _ Hv0). simpl.
    destruct (guard_holds g (nav_get n0 p)); simpl.
    + rewrite try_define_own. unfold own_after.
      rewrite (definable_views _ _ _ Hv0). by injection Hv0 as -> _ _.
    + by injection Hv0.
  - rewrite (nav_get_views _ _ _ Hv1), own_step_same.
    by rewrite (nav_get_views _ _ _ Hv0), (definable_views _ _ _ Hv0).
Qed.

(** X2.  After the script, [languages], [platform],
    [hardwareConcurrency] and [deviceMemory] read as the fixed values
    wherever the property can be defined on [navigator] (it is absent
    and the object extensible, or present and configurable), and as
    before where it cannot.  [userAgentData] is given the fixed object
    only where it read [undefined] before and can be defined; a
    [userAgentData] the engine has is kept. *)
Theorem identity_reads (e : env X) (n : navigator_obj) :
  navigator e = Some n ->
  exists n' : navigator_obj,
    navigator (apply e) = Some n' /\
    (forall (p : string) (v : value),
       (p, v) ∈ [("languages", VArr [VStr "en-US"; VStr "en"]); ("platform", VStr "Win32");
                 ("hardwareConcurrency", VNum 8); ("deviceMemory", VNum 8)] ->
       nav_get n' p = if definable (nav_own n) p then v else nav_get n p) /\
    nav_get n' "userAgentData"
      = (if is_undef (nav_get n "userAgentData") && definable (nav_own n) "userAgentData"
         then userAgentData_value else nav_get n "userAgentData").
Proof.
  intros Hn. exists (patched_navigator n). rewrite apply_navigator, Hn.
  split; [reflexivity|]. split.
  - intros p v Hin. rewrite !elem_of_cons in Hin.
    destruct Hin as [[= -> ->]|[[= -> ->]|[[= -> ->]|[[= -> ->]|Hin]]]];
      [| | | |by apply elem_of_nil in Hin].
    + apply (defined_once [] None "languages" _ _ n); repeat constructor; discriminate.
    + apply (defined_once [_] None "platform" _ _ n); repeat constructor; discriminate.
    + apply (defined_once [_; _] None "hardwareConcurrency" _ _ n);
        repeat constructor; discriminate.
    + apply (defined_once [_; _; _] None "deviceMemory" _ _ n);
        repeat constructor; discriminate.
  - apply (defined_once identity_steps (Some is_undef) "userAgentData" _ plugins_steps n);
      repeat constructor; discriminate.
Qed.
End NavigatorReads.

Lemma identity_reads_witness :
  let e := Demo.headless [] in
  let n := Demo.headless_navigator in
  Host.navigator e = Some n /\
  exists n' : JS.navigator_obj,
    Host.navigator (Script.apply e) = Some n' /\
    (forall (p : string) (v : JS.value),
       (p, v) ∈ [("languages", JS.VArr [JS.VStr "en-US"; JS.VStr "en"]);
                 ("platform", JS.VStr "Win32");
                 ("hardwareConcurrency", JS.VNum 8); ("deviceMemory", JS.VNum 8)] ->
       JS.nav_get n' p = if definable (JS.nav_own n) p then v else JS.nav_get n p) /\
    JS.nav_get n' "userAgentData"
      = (if JS.is_undef (JS.nav_get n "userAgentData")
            && definable (JS.nav_own n) "userAgentData"
         then Script.userAgentData_value else JS.nav_get n "userAgentData").
Proof.
  intros e n. split; [reflexivity|]. apply (identity_reads e n). reflexivity.
Defined.

(** ** The webdriver flag, the other properties, the locked ones *)

Section NavigatorFrame.
Import JS Host Wrappers Script.
Context {X : Type}.
Implicit Types (o : object) (n : navigator_obj) (p q : string) (d : descriptor).

Lemma own_after_same d o o' p :
  own o' p = own o p -> extensible o' = extensible o -> own_after d o' p = own_after d o p.
Proof. intros H1 H2. unfold own_after, definable. by rewrite H1, H2. Qed.

(** What a step leaves of the own properties of [navigator]. *)
Lemma step_own n st p :
  match st with OwnDefine _ q _ => q <> p | ProtoDefine _ _ => True end ->
  own (nav_own (run_nav_step n st)) p = own (nav_own n) p.
Proof.
  destruct st as [g q v|q v]; simpl; [|done].
  intros Hne. destruct (guard_holds g (nav_get n q)); [|done]. simpl.
  by apply try_define_own_other.
Qed.

Lemma step_extensible n st :
  extensible (nav_own (run_nav_step n st)) = extensible (nav_own n).
Proof.
  destruct st as [g q v|q v]; simpl; [|done].
  destruct (guard_holds g (nav_get n q)); [|done]. apply try_define_extensible.
Qed.

(** [webdriver] is defined on [navigator] and then on its prototype. *)
Lemma webdriver_after n :
  nav_get (patched_navigator n) "webdriver" =
  match own_after (DGet VUndef) (nav_own n) "webdriver" with
  | Some s => slot_read s
  | None =>
      match nav_proto n with
      | Some pr => from_option slot_read VUndef (own_after (DGet VUndef) pr "webdriver")
      | None => VUndef
      end
  end.
Proof.
  assert (Forall (fun st => step_key st <> "webdriver") (userAgentData_steps ++ plugins_steps))
    as Hpost by (repeat constructor; discriminate).
  assert (forall l1 l2 m, run_nav_steps (l1 ++ l2) m = run_nav_steps l2 (run_nav_steps l1 m))
    as Happ by (intros; unfold run_nav_steps; apply foldl_app).
  unfold patched_navigator. rewrite Happ.
  rewrite (nav_get_views _ _ _ (steps_views _ _ _ Hpost)).
  unfold run_nav_steps, identity_steps. cbn [foldl].
  set (n4 := run_nav_step (run_nav_step (run_nav_step (run_nav_step n _) _) _) _).
  assert (own (nav_own n4) "webdriver" = own (nav_own n) "webdriver") as Hown
    by (unfold n4; rewrite !step_own by (simpl; discriminate); done).
  assert (extensible (nav_own n4) = extensible (nav_own n)) as Hext
    by (unfold n4; by rewrite !step_extensible).
  assert (nav_proto n4 = nav_proto n) as Hproto by reflexivity.
  unfold nav_get. cbn [run_nav_step guard_holds nav_own nav_proto].
  rewrite try_define_own, (own_after_same _ _ _ _ Hown Hext), Hproto.
  destruct (own_after (DGet VUndef) (nav_own n) "webdriver"); [done|].
  destruct (nav_proto n) as [pr|]; simpl; [|done].
  by rewrite try_define_own.
Qed.

(** X3.  After the script [navigator.webdriver] reads [undefined]
    whenever the property can be defined on [navigator] itself.  Where
    it cannot, a locked own property goes on reading as it did; with no
    own property (the object is not extensible) the prototype's decides:
    [undefined] if it could be redefined there, its old value if not. *)
Theorem webdriver_reads (e : env X) (n : navigator_obj) :
  navigator e = Some n ->
  exists n' : navigator_obj,
    navigator (apply e) = Some n' /\
    nav_get n' "webdriver" =
      (if definable (nav_own n) "webdriver" then VUndef
       else match own (nav_own n) "webdriver" with
            | Some cur => slot_read cur
            | None =>
                match nav_proto n with
                | Some pr =>
                    if definable pr "webdriver" then VUndef
                    else from_option slot_read VUndef (own pr "webdriver")
                | None => VUndef
                end
            end).
Proof.
  intros Hn. exists (patched_navigator n). rewrite apply_navigator, Hn.
  split; [reflexivity|]. rewrite webdriver_after.
  destruct (definable (nav_own n) "webdriver") eqn:Hd.
  - destruct (own_after_read (DGet VUndef) _ _ Hd) as (s & -> & _ & Hr). exact Hr.
  - unfold own_after at 1. rewrite Hd.
    destruct (own (nav_own n) "webdriver"); [done|].
    destruct (nav_proto n) as [pr|]; [|done].
    destruct (definable pr "webdriver") eqn:Hp.
    + destruct (own_after_read (DGet VUndef) _ _ Hp) as (s & -> & _ & Hr). exact Hr.
    + unfold own_after. by rewrite Hp.
Qed.

(** A locked property outlives any step, and a step adds no name to an
    object that is not extensible. *)
Lemma try_define_locked o p q d cur :
  own o p = Some cur -> s_configurable cur = false -> own (try_define o q d) p = Some cur.
Proof.
  intros Hown Hc. destruct (decide (p = q)) as [->|Hne].
  - rewrite try_define_refused; [done|]. unfold definable. by rewrite Hown.
  - by rewrite try_define_own_other.
Qed.

Lemma try_define_names o q d :
  extensible o = false -> getOwnPropertyNames (try_define o q d) = getOwnPropertyNames o.
Proof.
  intros He. unfold try_define, define, getOwnPropertyNames. rewrite He.
  destruct (own o q) as [cur|]; [|done].
  destruct (s_configurable cur); simpl; [|done]. by rewrite replace_fst.
Qed.

Lemma steps_locked steps n :
  let n' := run_nav_steps steps n in
  (forall p cur, own (nav_own n) p = Some cur -> s_configurable cur = false ->
     own (nav_own n') p = Some cur) /\
  (forall pr p cur, nav_proto n = Some pr -> own pr p = Some cur -> s_configurable cur = false ->
     exists pr', nav_proto n' = Some pr' /\ own pr' p = Some cur) /\
  (extensible (nav_own n) = false ->
     getOwnPropertyNames (nav_own n') = getOwnPropertyNames (nav_own n)) /\
  extensible (nav_own n') = extensible (nav_own n).
Proof.
  revert n. induction steps as [|st steps IH]; intros n.
  { cbv zeta. unfold run_nav_steps. simpl. split_and!; eauto. }
  cbv zeta in *. unfold run_nav_steps in *. simpl.
  destruct (IH (run_nav_step n st)) as (H1 & H2 & H3 & H4). split_and!.
  - intros p cur Hown Hc. apply H1; [|done].
    destruct st as [g q v|q v]; simpl; [|done].
    destruct (guard_holds g (nav_get n q)); [|done]. simpl. by apply try_define_locked.
  - intros pr p cur Hpr Hown Hc.
    destruct st as [g q v|q v]; simpl in *.
    + apply (H2 pr p cur); [|done..]. by destruct (guard_holds g (nav_get n q)).
    + apply (H2 (try_define pr q (DGet v)) p cur); [by rewrite Hpr| |done].
      by apply try_define_locked.
  - intros He. rewrite H3 by (by rewrite step_extensible).
    destruct st as [g q v|q v]; simpl; [|done].
    destruct (guard_holds g (nav_get n q)); [|done]. simpl. by apply try_define_names.
  - by rewrite H4, step_extensible.
Qed.

(** X4.  The script never changes a property of [navigator] or of its
    prototype that is not configurable, whatever its name, and gives a
    [navigator] that is not extensible no new own property. *)
Theorem navigator_locked_kept (e : env X) (n : navigator_obj) :
  navigator e = Some n ->
  exists n' : navigator_obj,
    navigator (apply e) = Some n' /\
    (forall (p : string) (cur : slot),
       own (nav_own n) p = Some cur -> s_configurable cur = false ->
       own (nav_own n') p = Some cur) /\
    (forall (pr : object) (p : string) (cur : slot),
       nav_proto n = Some pr -> own pr p = Some cur -> s_configurable cur = false ->
       exists pr' : object, nav_proto n' = Some pr' /\ own pr' p = Some cur) /\
    (extensible (nav_own n) = false ->
       getOwnPropertyNames (nav_own n') = getOwnPropertyNames (nav_own n)).
Proof.
  intros Hn. exists (patched_navigator n). rewrite apply_navigator, Hn.
  split; [reflexivity|].
  destruct (steps_locked navigator_steps n) as (H1 & H2 & H3 & _). by split_and!.
Qed.

(** X5.  Apart from the eight names it defines, the script leaves
    every property of [navigator] as it was: the own property, the
    prototype's, and so what the property reads as. *)
Theorem navigator_others_kept (e : env X) (n : navigator_obj) :
  navigator e = Some n ->
  exists n' : navigator_obj,
    navigator (apply e) = Some n' /\
    forall p : string,
      p ∉ ["languages"; "platform"; "hardwareConcurrency"; "deviceMemory"; "webdriver";
           "userAgentData"; "plugins"; "mimeTypes"] ->
      own (nav_own n') p = own (nav_own n) p /\
      ((fun pr => own pr p) <$> nav_proto n') = ((fun pr => own pr p) <$> nav_proto n) /\
      nav_get n' p = nav_get n p.
Proof.
  intros Hn. exists (patched_navigator n). rewrite apply_navigator, Hn.
  split; [reflexivity|]. intros p Hp.
  assert (views (patched_navigator n) p = views n p) as Hv.
  { apply (steps_views navigator_steps). rewrite !not_elem_of_cons in Hp.
    destruct Hp as (P1 & P2 & P3 & P4 & P5 & P6 & P7 & P8 & _).
    unfold navigator_steps, identity_steps, userAgentData_steps, plugins_steps.
    cbn [app].
    repeat (apply List.Forall_cons; [cbn [step_key]; apply not_eq_sym; assumption|]).
    apply List.Forall_nil. }
  pose proof (nav_get_views _ _ _ Hv) as Hg.
  revert Hv Hg. generalize (patched_navigator n). intros n' Hv Hg.
  unfold views in Hv. injection Hv as H1 H2 H3.
  split_and!; [exact H1| |exact Hg].
  destruct (nav_proto n'), (nav_proto n); simpl in *; try done.
  by injection H3 as -> _.
Qed.

(** A name that one step defines on [navigator] itself, unguarded, and
    no other step defines there. *)
Lemma steps_own steps n p :
  Forall (fun st => match st with OwnDefine _ q _ => q <> p | ProtoDefine _ _ => True end)
         steps ->
  own (nav_own (run_nav_steps steps n)) p = own (nav_own n) p /\
  extensible (nav_own (run_nav_steps steps n)) = extensible (nav_own n).
Proof.
  intros Hall. revert n. induction Hall as [|st steps Hst _ IH]; intros n; [done|].
  unfold run_nav_steps in *. simpl. destruct (IH (run_nav_step n st)) as [-> ->].
  by rewrite step_own, step_extensible.
Qed.

Lemma own_defined pre p v post n :
  Forall (fun st => match st with OwnDefine _ q _ => q <> p | ProtoDefine _ _ => True end)
         pre ->
  Forall (fun st => match st with OwnDefine _ q _ => q <> p | ProtoDefine _ _ => True end)
         post ->
  own (nav_own (run_nav_steps (pre ++ OwnDefine None p v :: post) n)) p
    = own_after (DGet v) (nav_own n) p.
Proof.
  intros Hpre Hpost. unfold run_nav_steps. rewrite foldl_app. cbn [foldl].
  destruct (steps_own post (run_nav_step (foldl run_nav_step n pre) (OwnDefine None p v)) p Hpost)
    as [Ho _].
  unfold run_nav_steps in Ho. rewrite Ho. cbn [run_nav_step guard_holds nav_own].
  rewrite try_define_own. destruct (steps_own pre n p Hpre) as [H1 H2].
  by apply own_after_same.
Qed.

(** X6.  Each of [languages], [platform], [hardwareConcurrency],
    [deviceMemory] and [webdriver] that can be defined ends up as an own
    accessor property of the [navigator] instance, configurable, and not
    enumerable when the instance had no such property before; its name
    then shows in [Object.getOwnPropertyNames(navigator)]. *)
Theorem identity_own_accessors (e : env X) (n : navigator_obj) :
  navigator e = Some n ->
  exists n' : navigator_obj,
    navigator (apply e) = Some n' /\
    forall (p : string) (v : value),
      (p, v) ∈ [("languages", VArr [VStr "en-US"; VStr "en"]); ("platform", VStr "Win32");
                ("hardwareConcurrency", VNum 8); ("deviceMemory", VNum 8);
                ("webdriver", VUndef)] ->
      definable (nav_own n) p = true ->
      p ∈ getOwnPropertyNames (nav_own n') /\
      own (nav_own n') p
        = Some (Slot (Accessor v)
                     (from_option s_enumerable false (own (nav_own n) p)) true).
Proof.
  intros Hn. exists (patched_navigator n). rewrite apply_navigator, Hn.
  split; [reflexivity|]. intros p v Hin Hd.
  assert (own (nav_own (patched_navigator n)) p = own_after (DGet v) (nav_own n) p) as Hown.
  { rewrite !elem_of_cons in Hin.
    destruct Hin as [[= -> ->]|[[= -> ->]|[[= -> ->]|[[= -> ->]|[[= -> ->]|Hin]]]]];
      [| | | | |by apply elem_of_nil in Hin].
    - apply (own_defined [] "languages" _ _ n);
        repeat (apply List.Forall_cons; [first [exact I|discriminate]|]); apply List.Forall_nil.
    - apply (own_defined [_] "platform" _ _ n);
        repeat (apply List.Forall_cons; [first [exact I|discriminate]|]); apply List.Forall_nil.
    - apply (own_defined [_; _] "hardwareConcurrency" _ _ n);
        repeat (apply List.Forall_cons; [first [exact I|discriminate]|]); apply List.Forall_nil.
    - apply (own_defined [_; _; _] "deviceMemory" _ _ n);
        repeat (apply List.Forall_cons; [first [exact I|discriminate]|]); apply List.Forall_nil.
    - apply (own_defined [_; _; _; _] "webdriver" _ _ n);
        repeat (apply List.Forall_cons; [first [exact I|discriminate]|]); apply List.Forall_nil. }
  revert Hown. generalize (patched_navigator n). intros n' Hown.
  assert (own_after (DGet v) (nav_own n) p
          = Some (Slot (Accessor v) (from_option s_enumerable false (own (nav_own n) p)) true))
    as Hafter.
  { unfold own_after. rewrite Hd. by destruct (own (nav_own n) p) as [[[] ? ?]|]. }
  rewrite Hafter in Hown. split; [|exact Hown].
  apply elem_of_names. exact (assoc_Some_elem _ _ _ Hown).
Qed.
End NavigatorFrame.

Lemma webdriver_reads_witness :
  let e := Hardened.engine in
  let n := Hardened.locked_navigator in
  Host.navigator e = Some n /\
  exists n' : JS.navigator_obj,
    Host.navigator (Script.apply e) = Some n' /\
    JS.nav_get n' "webdriver" =
      (if definable (JS.nav_own n) "webdriver" then JS.VUndef
       else match JS.own (JS.nav_own n) "webdriver" with
            | Some cur => JS.slot_read cur
            | None =>
                match JS.nav_proto n with
                | Some pr =>
                    if definable pr "webdriver" then JS.VUndef
                    else from_option JS.slot_read JS.VUndef (JS.own pr "webdriver")
                | None => JS.VUndef
                end
            end).
Proof.
  intros e n. split; [reflexivity|]. apply (webdriver_reads e n). reflexivity.
Defined.

Lemma navigator_locked_kept_witness :
  let e := Hardened.engine in
  let n := Hardened.locked_navigator in
  Host.navigator e = Some n /\
  exists n' : JS.navigator_obj,
    Host.navigator (Script.apply e) = Some n' /\
    (forall (p : string) (cur : JS.slot),
       JS.own (JS.nav_own n) p = Some cur -> JS.s_configurable cur = false ->
       JS.own (JS.nav_own n') p = Some cur) /\
    (forall (pr : JS.object) (p : string) (cur : JS.slot),
       JS.nav_proto n = Some pr -> JS.own pr p = Some cur -> JS.s_configurable cur = false ->
       exists pr' : JS.object, JS.nav_proto n' = Some pr' /\ JS.own pr' p = Some cur) /\
    (JS.extensible (JS.nav_own n) = false ->
       JS.getOwnPropertyNames (JS.nav_own n') = JS.getOwnPropertyNames (JS.nav_own n)).
Proof.
  intros e n. split; [reflexivity|]. apply (navigator_locked_kept e n). reflexivity.
Defined.

Lemma navigator_others_kept_witness :
  let e := Demo.headless [] in
  let n := Demo.headless_navigator in
  Host.navigator e = Some n /\
  exists n' : JS.navigator_obj,
    Host.navigator (Script.apply e) = Some n' /\
    forall p : string,
      p ∉ ["languages"; "platform"; "hardwareConcurrency"; "deviceMemory"; "webdriver";
           "userAgentData"; "plugins"; "mimeTypes"] ->
      JS.own (JS.nav_own n') p = JS.own (JS.nav_own n) p /\
      ((fun pr => JS.own pr p) <$> JS.nav_proto n')
        = ((fun pr => JS.own pr p) <$> JS.nav_proto n) /\
      JS.nav_get n' p = JS.nav_get n p.
Proof.
  intros e n. split; [reflexivity|]. apply (navigator_others_kept e n). reflexivity.
Defined.

Lemma identity_own_accessors_witness :
  let e := Demo.headless [] in
  let n := Demo.headless_navigator in
  Host.navigator e = Some n /\
  exists n' : JS.navigator_obj,
    Host.navigator (Script.apply e) = Some n' /\
    forall (p : string) (v : JS.value),
      (p, v) ∈ [("languages", JS.VArr [JS.VStr "en-US"; JS.VStr "en"]);
                ("platform", JS.VStr "Win32");
                ("hardwareConcurrency", JS.VNum 8); ("deviceMemory", JS.VNum 8);
                ("webdriver", JS.VUndef)] ->
      definable (JS.nav_own n) p = true ->
      p ∈ JS.getOwnPropertyNames (JS.nav_own n') /\
      JS.own (JS.nav_own n') p
        = Some (JS.Slot (JS.Accessor v)
                        (from_option JS.s_enumerable false (JS.own (JS.nav_own n) p)) true).
Proof.
  intros e n. split; [reflexivity|]. apply (identity_own_accessors e n). reflexivity.
Defined.

(** ** The global object afterwards *)

Section WindowFrame.
Import JS Host Wrappers Script Regex.
Local Open Scope js_scope.
Context {X : Type}.
Implicit Types (w : object) (k p : string).

Lemma filter_ext_in {A} (P1 P2 : A -> Prop)
    `{!forall x, Decision (P1 x), !forall x, Decision (P2 x)} (l : list A) :
  (forall x, x ∈ l -> P1 x <-> P2 x) -> filter P1 l = filter P2 l.
Proof.
  induction l as [|a l IH]; intros Hiff; [done|].
  rewrite !filter_cons, IH by (intros x Hx; apply Hiff; by right).
  apply decide_ext, Hiff. by left.
Qed.

Lemma filter_all {A} (P : A -> Prop) `{!forall x, Decision (P x)} (l : list A) :
  (forall x, x ∈ l -> P x) -> filter P l = l.
Proof.
  induction l as [|a l IH]; intros Hall; [done|].
  rewrite filter_cons_True by (apply Hall; by left).
  f_equal. apply IH. intros x Hx. apply Hall. by right.
Qed.

Lemma assoc_filter (Q : string -> Prop) `{!forall k, Decision (Q k)}
    (l : list (string * slot)) k :
  assoc k (filter (fun ks => Q ks.1) l) = if decide (Q k) then assoc k l else None.
Proof.
  induction l as [|[k' s] l IH]; simpl; [by case_decide|].
  rewrite filter_cons. simpl. destruct (decide (Q k')) as [Hq|Hq]; simpl.
  - destruct (String.eqb k' k) eqn:E; [|exact IH].
    apply String.eqb_eq in E. subst. by rewrite decide_True.
  - rewrite IH. destruct (String.eqb k' k) eqn:E; [|reflexivity].
    apply String.eqb_eq in E. subst. by destruct (decide (Q k)).
Qed.

Lemma try_delete_refused w p : deletable w p = false -> try_delete w p = w.
Proof.
  unfold deletable, try_delete, delete_prop. destruct (own w p) as [cur|]; [|done].
  by intros ->.
Qed.

Lemma try_delete_done w p :
  deletable w p = true ->
  try_delete w p = Obj (filter (fun ks => ks.1 <> p) (props w)) (extensible w).
Proof.
  unfold deletable, try_delete, delete_prop. destruct (own w p) as [cur|]; [|done].
  by intros ->.
Qed.

Lemma deletable_try_delete w p k : k <> p -> deletable (try_delete w p) k = deletable w k.
Proof.
  intros Hne. destruct (deletable w p) eqn:Hd.
  - rewrite try_delete_done by done. unfold deletable, own. cbn [props].
    pose proof (assoc_filter (fun k' => k' <> p) (props w) k) as Hf. cbv beta in Hf.
    rewrite Hf. by rewrite decide_True.
  - by rewrite try_delete_refused.
Qed.

(** The loop of lines 118-124 as a filter of the property table. *)
Lemma swept_filter names w :
  swept names w
  = Obj (filter (fun ks => ~ (ks.1 ∈ names /\ test artifact_re ks.1 = true /\
                              deletable w ks.1 = true)) (props w))
        (extensible w).
Proof.
  revert w. induction names as [|k rest IH]; intros w.
  - simpl. rewrite filter_all; [by destruct w|].
    intros ks _ (Hin & _). by apply elem_of_nil in Hin.
  - rewrite swept_cons. destruct (test artifact_re k) eqn:Ht.
    + destruct (deletable w k) eqn:Hd.
      * rewrite IH, try_delete_done by done. simpl. rewrite list_filter_filter.
        f_equal. apply filter_ext_in. intros ks _. split.
        -- intros [Hrest Hne] (Hin & Htest & Hdel). apply Hrest.
           apply elem_of_cons in Hin as [?|Hin]; [done|]. split_and!; [done..|].
           rewrite <- (try_delete_done w k Hd). by rewrite deletable_try_delete.
        -- intros Hnot. split.
           ++ intros (Hin & Htest & Hdel).
              destruct (decide (ks.1 = k)) as [Heq|Hne].
              ** apply Hnot. rewrite Heq. split_and!; [by left|done..].
              ** apply Hnot. split_and!; [by right|done|].
                 rewrite <- (try_delete_done w k Hd) in Hdel.
                 by rewrite deletable_try_delete in Hdel.
           ++ intros Heq. apply Hnot. rewrite Heq. split_and!; [by left|done..].
      * rewrite try_delete_refused, IH by done. f_equal. apply filter_ext_in.
        intros ks _. split.
        -- intros Hrest (Hin & Htest & Hdel). apply Hrest.
           apply elem_of_cons in Hin as [Heq|Hin]; [congruence|done].
        -- intros Hnot (Hin & Htest & Hdel). apply Hnot. split_and!; [by right|done..].
    + rewrite IH. f_equal. apply filter_ext_in. intros ks _. split.
      * intros Hrest (Hin & Htest & Hdel). apply Hrest.
        apply elem_of_cons in Hin as [Heq|Hin]; [congruence|done].
      * intros Hnot (Hin & Htest & Hdel). apply Hnot. split_and!; [by right|done..].
Qed.

(** The loop run on the names of an object from which some deletable
    artifacts have already been taken. *)
Lemma swept_after (R : string -> Prop) `{!forall k, Decision (R k)} w :
  (forall k, R k -> test artifact_re k = true /\ deletable w k = true) ->
  let w2 := Obj (filter (fun ks => ~ R ks.1) (props w)) (extensible w) in
  swept (getOwnPropertyNames w2) w2
  = Obj (filter (fun ks => ~ (test artifact_re ks.1 = true /\ deletable w ks.1 = true))
                (props w))
        (extensible w).
Proof.
  intros HR w2. rewrite swept_filter.
  change (props w2) with (filter (fun ks : string * slot => ~ R ks.1) (props w)).
  change (extensible w2) with (extensible w).
  rewrite list_filter_filter. f_equal. apply filter_ext_in. intros ks Hks.
  assert (~ R ks.1 -> deletable w2 ks.1 = deletable w ks.1) as Hsame.
  { intros Hn. unfold deletable, own, w2. cbn [props].
    pose proof (assoc_filter (fun k => ~ R k) (props w) ks.1) as Hf. cbv beta in Hf.
    rewrite Hf. by rewrite decide_True. }
  split.
  - intros [Hnot Hn] [Htest Hdel]. apply Hnot. split_and!; [|done|by rewrite Hsame].
    apply elem_of_names. unfold w2. cbn [props].
    apply list_elem_of_fmap. exists ks. split; [done|]. by apply list_elem_of_filter.
  - intros Hnot. assert (~ R ks.1) as Hn by (intros Hr; by apply Hnot, HR).
    split; [|done]. intros (_ & Htest & Hdel). apply Hnot. split; [done|].
    by rewrite <- Hsame.
Qed.

Lemma cleared_filter w :
  cleared w
  = Obj (filter (fun ks => ~ (test artifact_re ks.1 = true /\ deletable w ks.1 = true))
                (props w))
        (extensible w).
Proof.
  unfold cleared.
  assert (try_delete (try_delete w "__webdriver") "_webdriver"
          = swept ["__webdriver"; "_webdriver"] w) as -> by reflexivity.
  rewrite (swept_filter ["__webdriver"; "_webdriver"] w).
  pose proof (swept_after
                (fun k => k ∈ ["__webdriver"; "_webdriver"] /\ test artifact_re k = true /\
                          deletable w k = true) w) as Hs.
  cbv beta zeta in Hs. apply Hs. by intros k (_ & ? & ?).
Qed.

Lemma swept_names w : swept (getOwnPropertyNames w) w = cleared w.
Proof.
  rewrite cleared_filter.
  pose proof (swept_after (fun _ => False) w) as Hs. cbv beta zeta in Hs.
  rewrite <- Hs by done. rewrite filter_all by (by intros ks _ ?). by destruct w.
Qed.

Lemma own_cleared w k :
  own (cleared w) k = if test artifact_re k && deletable w k then None else own w k.
Proof.
  rewrite cleared_filter. unfold own. cbn [props].
  pose proof (assoc_filter (fun k => ~ (test artifact_re k = true /\ deletable w k = true))
                (props w) k) as Hf.
  cbv beta in Hf. rewrite Hf. clear Hf.
  destruct (test artifact_re k), (deletable w k); simpl;
    first [reflexivity | case_decide; naive_solver].
Qed.

Lemma extensible_cleared w : extensible (cleared w) = extensible w.
Proof. by rewrite cleared_filter. Qed.

(** X7.  On the global object the script takes away exactly the
    properties whose name matches the pattern of line 120 and which are
    configurable.  Every other property, the marker of line 170 apart,
    keeps its value and attributes, and the object stays as extensible
    as it was. *)
Theorem window_properties_after (e : env X) (w : object) :
  window e = Some w ->
  exists w' : object,
    window (apply e) = Some w' /\
    extensible w' = extensible w /\
    forall k : string,
      k <> applied_marker ->
      own w' k = if artifact_name k && deletable w k then None else own w k.
Proof.
  intros Hw. exists (patched_window w). rewrite apply_window, Hw.
  split; [reflexivity|]. unfold patched_window, patched_marker. split.
  - by rewrite try_define_extensible, extensible_cleared.
  - intros k Hk. rewrite try_define_own_other by exact Hk.
    by rewrite own_cleared, test_artifact_re.
Qed.

(** X8.  The marker [__stealth_patch_applied__] reads [true]
    afterwards whenever it can be defined: as a new property it is
    neither writable nor enumerable, an existing configurable one keeps
    its enumerability (and, if it was a data property, its writability);
    it stays configurable.  A marker that cannot be defined is left as
    it was, and the sweep before never touches it. *)
Theorem marker_after (e : env X) (w : object) :
  window e = Some w ->
  exists w' : object,
    window (apply e) = Some w' /\
    own w' applied_marker =
      (if definable w applied_marker
       then Some (match own w applied_marker with
                  | Some cur =>
                      Slot (Data (VBool true)
                              (match s_kind cur with Data _ wr => wr | Accessor _ => false end))
                           (s_enumerable cur) true
                  | None => Slot (Data (VBool true) false) false true
                  end)
       else own w applied_marker).
Proof.
  intros Hw. exists (patched_window w). rewrite apply_window, Hw.
  split; [reflexivity|]. unfold patched_window, patched_marker.
  fold applied_marker. rewrite try_define_own.
  assert (own (cleared w) applied_marker = own w applied_marker) as Hown.
  { rewrite own_cleared.
    assert (test artifact_re applied_marker = false) as -> by (vm_compute; reflexivity).
    reflexivity. }
  rewrite (own_after_same _ _ _ _ Hown (extensible_cleared w)).
  unfold own_after. destruct (definable w applied_marker); [|done].
  by destruct (own w applied_marker) as [[[] ? ?]|].
Qed.

Lemma sweep_only_window (s : state X) :
  win_of (after sweep_only s) = (fun w => swept (getOwnPropertyNames w) w) <$> win_of s.
Proof.
  unfold after, sweep_only. rewrite try_state.
  destruct (win_of s) as [w|] eqn:Hw; simpl.
  - assert (the_window s = (Ret w, s)) as E
      by (unfold the_window, global; unfold win_of in Hw; by rewrite Hw).
    rewrite (bind_run _ _ _ _ _ E).
    destruct (sweep_window (getOwnPropertyNames w) s w Hw) as (s' & E' & H').
    rewrite E'. exact H'.
  - unfold win_of in Hw. unfold bind, the_window, global. by rewrite Hw.
Qed.

(** X9.  The two deletions of lines 110-115 are covered by the loop
    that follows them: both names match the pattern, so block 109-125
    leaves the global object exactly as the loop alone would. *)
Theorem explicit_deletes_covered (s : state X) :
  win_of (after clear_artifacts s) = win_of (after sweep_only s).
Proof.
  rewrite clear_artifacts_window, sweep_only_window.
  destruct (win_of s) as [w|]; [|done]. simpl. by rewrite swept_names.
Qed.
End WindowFrame.

Lemma window_properties_after_witness :
  let e := Demo.headless [] in
  let w := Demo.driven_window in
  Host.window e = Some w /\
  exists w' : JS.object,
    Host.window (Script.apply e) = Some w' /\
    JS.extensible w' = JS.extensible w /\
    forall k : string,
      k <> applied_marker ->
      JS.own w' k = if artifact_name k && deletable w k then None else JS.own w k.
Proof.
  intros e w. split; [reflexivity|]. apply (window_properties_after e w). reflexivity.
Defined.

Lemma marker_after_witness :
  let e := Hardened.engine in
  let w := Hardened.locked_window in
  Host.window e = Some w /\
  exists w' : JS.object,
    Host.window (Script.apply e) = Some w' /\
    JS.own w' applied_marker =
      (if definable w applied_marker
       then Some (match JS.own w applied_marker with
                  | Some cur =>
                      JS.Slot (JS.Data (JS.VBool true)
                                 (match JS.s_kind cur with
                                  | JS.Data _ wr => wr
                                  | JS.Accessor _ => false
                                  end))
                              (JS.s_enumerable cur) true
                  | None => JS.Slot (JS.Data (JS.VBool true) false) false true
                  end)
       else JS.own w applied_marker).
Proof.
  intros e w. split; [reflexivity|]. apply (marker_after e w). reflexivity.
Defined.

(** ** The pattern, further *)

Section PatternFacts.
Import Regex.

Lemma contains_here l s : starts_with l s = true -> contains l s = true.
Proof. intros H. destruct s; simpl; by rewrite H. Qed.

Lemma contains_tail l c s : contains l s = true -> contains l (String c s) = true.
Proof.
  intros H.
  change (contains l (String c s)) with (starts_with l (String c s) || contains l s).
  rewrite H. apply orb_true_r.
Qed.

Lemma starts_with_tail c l c' s :
  starts_with (String c l) (String c' s) = true -> starts_with l s = true.
Proof. unfold starts_with. simpl. by destruct (Ascii.eqb _ _). Qed.

(** A name that has a literal in it has every tail of the literal in it. *)
Lemma contains_shorter c l s : contains (String c l) s = true -> contains l s = true.
Proof.
  induction s as [|c' s IH]; [discriminate|].
  change (contains (String c l) (String c' s))
    with (starts_with (String c l) (String c' s) || contains (String c l) s).
  intros [H|H]%orb_true_iff; apply contains_tail.
  - apply contains_here. by eapply starts_with_tail.
  - by apply IH.
Qed.

(** X10.  Two of the five alternatives of the pattern of line 120 add
    nothing: a name with [webdriver] or [__driver] in it has [driver]
    in it.  The pattern matches exactly the names that begin with
    [_cdc_] or [__cdc_] or have [selenium] or [driver] in them,
    whatever the letter case. *)
Theorem artifact_pattern_reduced (k : string) :
  test artifact_re k
  = starts_with "_cdc_" k || starts_with "__cdc_" k ||
    contains "selenium" k || contains "driver" k.
Proof.
  rewrite test_artifact_re. unfold artifact_name.
  assert (contains "webdriver" k = true -> contains "driver" k = true) as H1.
  { intros H. by do 3 apply contains_shorter in H. }
  assert (contains "__driver" k = true -> contains "driver" k = true) as H2.
  { intros H. by do 2 apply contains_shorter in H. }
  destruct (contains "driver" k).
  - by rewrite !orb_true_r.
  - destruct (contains "webdriver" k); [by discriminate H1|].
    destruct (contains "__driver" k); [by discriminate H2|].
    by rewrite !orb_false_r.
Qed.

Lemma fold_case_idem c : fold_case (fold_case c) = fold_case c.
Proof. destruct c as [[] [] [] [] [] [] [] []]; reflexivity. Qed.

Lemma starts_with_lower l s : starts_with l (lower s) = starts_with l s.
Proof.
  unfold starts_with. revert s. induction l as [|c l IH]; intros s; [done|].
  destruct s as [|c' s]; simpl; [done|]. rewrite fold_case_idem.
  destruct (Ascii.eqb _ _); [apply IH|done].
Qed.

Lemma contains_lower l s : contains l (lower s) = contains l s.
Proof.
  induction s as [|c s IH]; [done|].
  change (lower (String c s)) with (String (fold_case c) (lower s)).
  change (contains l (String (fold_case c) (lower s)))
    with (starts_with l (lower (String c s)) || contains l (lower s)).
  change (contains l (String c s)) with (starts_with l (String c s) || contains l s).
  by rewrite IH, starts_with_lower.
Qed.

Lemma artifact_name_lower k : artifact_name (lower k) = artifact_name k.
Proof. unfold artifact_name. by rewrite !starts_with_lower, !contains_lower. Qed.

(** X11.  The test of line 120 does not tell capitals from small
    letters: two names that differ only in the case of ASCII letters
    are both swept or both kept. *)
Theorem artifact_pattern_ignores_case (k k' : string) :
  lower k = lower k' -> test artifact_re k = test artifact_re k'.
Proof.
  intros H. rewrite !test_artifact_re.
  by rewrite <- (artifact_name_lower k), H, artifact_name_lower.
Qed.
End PatternFacts.

Lemma artifact_pattern_ignores_case_witness :
  lower "$CDC_WebDriver" = lower "$cdc_webdriver" /\
  Regex.test Regex.artifact_re "$CDC_WebDriver" = Regex.test Regex.artifact_re "$cdc_webdriver".
Proof.
  split; [reflexivity|].
  apply (artifact_pattern_ignores_case "$CDC_WebDriver" "$cdc_webdriver"). reflexivity.
Defined.

(** ** The permission query *)

Section PermissionQuery.
Import JS Host Wrappers Script.
Context {X : Type}.

Lemma is_str_true (s : string) (v : value) : is_str s v = true <-> v = VStr s.
Proof.
  destruct v; simpl; try (split; [discriminate|by intros ?]).
  rewrite String.eqb_eq. split; [by intros ->|by intros [= ->]].
Qed.

(** X12.  Where [navigator] is bound and [navigator.permissions.query]
    is a method that can be assigned to, the script installs a query
    that answers a truthy argument whose [name] reads ['notifications']
    (the own field of an object literal, the name of a function, what a
    host object answers) with a promise of
    [{ state: Notification.permission }], read when the query is made,
    without asking the engine's query and without changing the document.
    Every other argument, an argument whose [name] throws when read, and
    every argument when [Notification] is not bound, goes to the
    engine's query with [this] and all arguments. *)
Theorem query_patch_spec (e : env X) (n : navigator_obj) (origQuery : meth X) :
  navigator e = Some n ->
  permissions e = Some (MSlot (Some origQuery) true) ->
  exists f : meth X,
    permissions (apply e) = Some (MSlot (Some f) true) /\
    forall (d : doc X) (this : value) (args : list value),
      let parameters := default VUndef (args !! 0%nat) in
      (forall permission : doc X -> value,
         notification e = Some permission ->
         truthy parameters = true ->
         read_name (natives e) d parameters = Ret (VStr "notifications") ->
         f d this args = (d, Ret (VPromise (VObj [("state", permission d)])))) /\
      (notification e = None -> f d this args = origQuery d this args) /\
      (truthy parameters = false -> f d this args = origQuery d this args) /\
      (read_name (natives e) d parameters <> Ret (VStr "notifications") ->
         f d this args = origQuery d this args) /\
      (forall (name : string) (ret : value),
         read_name (natives e) d (VFn name ret) = Ret (VStr name)) /\
      (forall fields : list (string * value),
         read_name (natives e) d (VObj fields) = Ret (default VUndef (assoc "name" fields))) /\
      (forall l : loc, read_name (natives e) d (VRef l) = readName (natives e) d l).
Proof.
  intros Hn Hp. exists (query_patch (natives e) (notification e) (Some origQuery)). split.
  - rewrite apply_permissions. unfold patched_permissions. by rewrite Hn, Hp.
  - intros d this args parameters. unfold query_patch. fold parameters.
    split_and!; [| | | |done..].
    + intros permission -> Ht ->. rewrite Ht. done.
    + intros ->. destruct (truthy parameters); [|done].
      destruct (read_name _ _ _) as [name|]; [|done]. by destruct (is_str _ _).
    + intros ->. done.
    + intros Hname. destruct (truthy parameters); [|done].
      destruct (read_name _ _ _) as [name|]; [|done].
      destruct (is_str "notifications" name) eqn:Hs; [|done].
      apply is_str_true in Hs. by subst.
Qed.
End PermissionQuery.

Lemma query_patch_spec_witness :
  let e := Demo.headless [] in
  let n := Demo.headless_navigator in
  let origQuery := Demo.native_query in
  Host.navigator e = Some n /\
  Host.permissions e = Some (Host.MSlot (Some origQuery) true) /\
  exists f : Host.meth nat,
    Host.permissions (Script.apply e) = Some (Host.MSlot (Some f) true) /\
    forall (d : Host.doc nat) (this : JS.value) (args : list JS.value),
      let parameters := default JS.VUndef (args !! 0%nat) in
      (forall permission : Host.doc nat -> JS.value,
         Host.notification e = Some permission ->
         JS.truthy parameters = true ->
         Wrappers.read_name (Host.natives e) d parameters = JS.Ret (JS.VStr "notifications") ->
         f d this args = (d, JS.Ret (JS.VPromise (JS.VObj [("state", permission d)])))) /\
      (Host.notification e = None -> f d this args = origQuery d this args) /\
      (JS.truthy parameters = false -> f d this args = origQuery d this args) /\
      (Wrappers.read_name (Host.natives e) d parameters <> JS.Ret (JS.VStr "notifications") ->
         f d this args = origQuery d this args) /\
      (forall (name : string) (ret : JS.value),
         Wrappers.read_name (Host.natives e) d (JS.VFn name ret) = JS.Ret (JS.VStr name)) /\
      (forall fields : list (string * JS.value),
         Wrappers.read_name (Host.natives e) d (JS.VObj fields)
         = JS.Ret (default JS.VUndef (JS.assoc "name" fields))) /\
      (forall l : JS.loc,
         Wrappers.read_name (Host.natives e) d (JS.VRef l)
         = Host.readName (Host.natives e) d l).
Proof.
  intros e n origQuery. split_and!; [reflexivity|reflexivity|].
  apply (query_patch_spec e n origQuery); reflexivity.
Defined.

(** ** What the read-outs leave alone *)

Section ReadoutFrames.
Import JS Host Wrappers Noise.
Context {X : Type}.

(** X13.  When the engine's [getImageData] throws, or returns anything
    but a plain object (an [ImageData], another host object, a
    primitive), the replacement returns that very value or exception.
    If the engine throws, or the value has no byte array behind it, the
    document is as the engine left it.  In every such case the float
    arrays and the engine state are untouched, no byte array other than
    the returned one is written, and no array changes length. *)
Theorem getImageData_patch_frame (orig : option (meth X)) (d : doc X) (this : value)
    (args : list value) :
  (forall fields : list (string * value), (call orig d this args).2 <> Ret (VObj fields)) ->
  let r0 := call orig d this args in
  let r := getImageData_patch orig d this args in
  r.2 = r0.2 /\
  f32 r.1 = f32 r0.1 /\
  engine r.1 = engine r0.1 /\
  (forall l : loc, r0.2 <> Ret (VRef l) -> u8 r.1 !! l = u8 r0.1 !! l) /\
  (forall l : loc, length <$> u8 r.1 !! l = length <$> u8 r0.1 !! l) /\
  (forall l : loc, r0.2 = Ret (VRef l) -> u8 r0.1 !! l = None -> r = r0) /\
  (forall ex : exn, r0.2 = Throw ex -> r = r0).
Proof.
  intros _.
  unfold getImageData_patch. destruct (call orig d this args) as [d1 [data|ex]]; cbn [fst snd].
  - unfold add_pixel_noise.
    destruct data as [| | | | | | | |l0|]; try by (split_and!; try done; by intros ? [=] ?).
    destruct (u8 d1 !! l0) as [a|] eqn:Ha; [|by (split_and!; try done; by intros ? [=] ?)].
    rewrite pixel_loop_total. cbn [default fst snd u8 f32 engine]. split_and!; try done.
    + intros l Hl. apply lookup_insert_ne. by intros ->.
    + intros l. destruct (decide (l = l0)) as [->|Hne].
      * rewrite lookup_insert_eq, Ha. simpl. f_equal. by apply stride_map_length.
      * by rewrite lookup_insert_ne.
    + intros l [= <-] Hnone. congruence.
  - by split_and!.
Qed.

(** X14.  The same for [getChannelData], when the engine's method
    throws or returns anything but a plain array or object (a
    [Float32Array], another host object, a primitive): the value or
    exception comes back as it is, the byte arrays and the engine state
    are untouched, no float array other than the returned one is
    written, and no array changes length. *)
Theorem getChannelData_patch_frame (orig : option (meth X)) (d : doc X) (this : value)
    (args : list value) :
  (forall items : list value, (call orig d this args).2 <> Ret (VArr items)) ->
  (forall fields : list (string * value), (call orig d this args).2 <> Ret (VObj fields)) ->
  let r0 := call orig d this args in
  let r := getChannelData_patch orig d this args in
  r.2 = r0.2 /\
  u8 r.1 = u8 r0.1 /\
  engine r.1 = engine r0.1 /\
  (forall l : loc, r0.2 <> Ret (VRef l) -> f32 r.1 !! l = f32 r0.1 !! l) /\
  (forall l : loc, length <$> f32 r.1 !! l = length <$> f32 r0.1 !! l) /\
  (forall l : loc, r0.2 = Ret (VRef l) -> f32 r0.1 !! l = None -> r = r0) /\
  (forall ex : exn, r0.2 = Throw ex -> r = r0).
Proof.
  intros _ _.
  unfold getChannelData_patch. destruct (call orig d this args) as [d1 [data|ex]]; cbn [fst snd].
  - unfold add_audio_noise.
    destruct data as [| | | | | | | |l0|]; try by (split_and!; try done; by intros ? [=] ?).
    destruct (f32 d1 !! l0) as [a|] eqn:Ha; [|by (split_and!; try done; by intros ? [=] ?)].
    rewrite audio_loop_total. cbn [default fst snd u8 f32 engine]. split_and!; try done.
    + intros l Hl. apply lookup_insert_ne. by intros ->.
    + intros l. destruct (decide (l = l0)) as [->|Hne].
      * rewrite lookup_insert_eq, Ha. simpl. f_equal. by apply stride_map_length.
      * by rewrite lookup_insert_ne.
    + intros l [= <-] Hnone. congruence.
  - by split_and!.
Qed.
End ReadoutFrames.

Lemma getImageData_patch_frame_witness :
  let orig := Some (Demo.native_getImageData [10; 20; 30; 255]) in
  let d := Demo.engine_doc ∅ ∅ in
  (forall fields : list (string * JS.value),
     (Host.call orig d JS.VUndef []).2 <> JS.Ret (JS.VObj fields)) /\
  let r0 := Host.call orig d JS.VUndef [] in
  let r := Wrappers.getImageData_patch orig d JS.VUndef [] in
  r.2 = r0.2 /\
  Host.f32 r.1 = Host.f32 r0.1 /\
  Host.engine r.1 = Host.engine r0.1 /\
  (forall l : JS.loc, r0.2 <> JS.Ret (JS.VRef l) -> Host.u8 r.1 !! l = Host.u8 r0.1 !! l) /\
  (forall l : JS.loc, length <$> Host.u8 r.1 !! l = length <$> Host.u8 r0.1 !! l) /\
  (forall l : JS.loc, r0.2 = JS.Ret (JS.VRef l) -> Host.u8 r0.1 !! l = None -> r = r0) /\
  (forall ex : JS.exn, r0.2 = JS.Throw ex -> r = r0).
Proof.
  intros orig d.
  assert (forall fields : list (string * JS.value),
            (Host.call orig d JS.VUndef []).2 <> JS.Ret (JS.VObj fields)) as H
    by (intros fields; discriminate).
  split; [exact H|]. exact (getImageData_patch_frame orig d JS.VUndef [] H).
Defined.

Lemma getChannelData_patch_frame_witness :
  let orig := Some Demo.native_getChannelData in
  let d := Demo.engine_doc ∅ (<[3%nat := [S754_zero false]]> ∅) in
  (forall items : list JS.value,
     (Host.call orig d (JS.VRef 3%nat) []).2 <> JS.Ret (JS.VArr items)) /\
  (forall fields : list (string * JS.value),
     (Host.call orig d (JS.VRef 3%nat) []).2 <> JS.Ret (JS.VObj fields)) /\
  let r0 := Host.call orig d (JS.VRef 3%nat) [] in
  let r := Wrappers.getChannelData_patch orig d (JS.VRef 3%nat) [] in
  r.2 = r0.2 /\
  Host.u8 r.1 = Host.u8 r0.1 /\
  Host.engine r.1 = Host.engine r0.1 /\
  (forall l : JS.loc, r0.2 <> JS.Ret (JS.VRef l) -> Host.f32 r.1 !! l = Host.f32 r0.1 !! l) /\
  (forall l : JS.loc, length <$> Host.f32 r.1 !! l = length <$> Host.f32 r0.1 !! l) /\
  (forall l : JS.loc, r0.2 = JS.Ret (JS.VRef l) -> Host.f32 r0.1 !! l = None -> r = r0) /\
  (forall ex : JS.exn, r0.2 = JS.Throw ex -> r = r0).
Proof.
  intros orig d.
  assert (forall items : list JS.value,
            (Host.call orig d (JS.VRef 3%nat) []).2 <> JS.Ret (JS.VArr items)) as H1
    by (intros items; discriminate).
  assert (forall fields : list (string * JS.value),
            (Host.call orig d (JS.VRef 3%nat) []).2 <> JS.Ret (JS.VObj fields)) as H2
    by (intros fields; discriminate).
  split_and!; [exact H1|exact H2|].
  exact (getChannelData_patch_frame orig d (JS.VRef 3%nat) [] H1 H2).
Defined.

(** ** What the script attempts *)

Section Attempts.
Import JS Host Wrappers Script Regex.
Local Open Scope js_scope.
Context {X : Type}.

Ltac permitted_name :=
  unfold permitted, applied_marker;
  first [ exact I
        | reflexivity
        | apply list_elem_of_In; cbn [In]; repeat first [left; reflexivity | right] ].

Ltac permitted_script :=
  repeat first
    [ assumption
    | apply emits_safeDefine; permitted_name
    | apply emits_defineProperty; permitted_name
    | apply emits_assign; permitted_name
    | apply emits_delete_window; permitted_name
    | steps_step
    | case_match ].

Lemma permitted_sweep names : steps (emits X permitted) (sweep (X := X) names).
Proof.
  induction names as [|k rest IH]; simpl; [steps_go|].
  apply steps_bind; [typeclasses eauto ..| |by intros _].
  apply steps_try; [typeclasses eauto ..|].
  destruct (test artifact_re k) eqn:Ht; [|steps_go].
  apply steps_try; [typeclasses eauto ..|]. apply emits_delete_window.
  unfold permitted. by rewrite <- test_artifact_re.
Qed.

Lemma permitted_body : steps (emits X permitted) (body (X := X)).
Proof.
  unfold body, patch_identity, patch_userAgentData, patch_canvas, patch_webgl, patch_audio,
    clear_artifacts, patch_permissions, patch_plugins, mark_applied, the_navigator,
    the_window.
  repeat first [apply permitted_sweep | permitted_script].
Qed.

(** X15.  Whatever the environment, the script attempts nothing on a
    host object beyond this: defining the eight names on [navigator],
    [webdriver] on its prototype and the marker on the global object,
    assigning the five methods, and deleting properties of the global
    object whose name matches the pattern of line 120. *)
Theorem attempts_permitted (e : env X) : Forall permitted (trace e).
Proof.
  destruct (permitted_body (State e [])) as (t & Ht & Hall).
  unfold trace, run. by rewrite Ht.
Qed.
End Attempts.

(** ** The two canvas methods stand or fall together *)

Section CanvasCoupling.
Import JS Host Wrappers Script.
Context {X : Type}.

(** X16.  Lines 53-77 are one [try] block: when
    [HTMLCanvasElement] is not bound, or its [toDataURL] cannot be
    assigned to, the block is left before line 67 and [getImageData]
    stays the engine's, even where it could have been replaced. *)
Theorem canvas_methods_coupled (e : env X) :
  canvasElement e = None \/ (exists f : option (meth X), canvasElement e = Some (MSlot f false)) ->
  canvasElement (apply e) = canvasElement e /\ context2d (apply e) = context2d e.
Proof.
  intros He. rewrite apply_canvasElement, apply_context2d.
  by destruct He as [->|[f ->]].
Qed.
End CanvasCoupling.

Lemma canvas_methods_coupled_witness :
  let e := Hardened.engine in
  (Host.canvasElement e = None \/
   (exists f : option (Host.meth nat), Host.canvasElement e = Some (Host.MSlot f false))) /\
  Host.canvasElement (Script.apply e) = Host.canvasElement e /\
  Host.context2d (Script.apply e) = Host.context2d e.
Proof.
  intros e.
  assert (Host.canvasElement e = None \/
          (exists f : option (Host.meth nat), Host.canvasElement e = Some (Host.MSlot f false)))
    as He by (right; eexists; reflexivity).
  split; [exact He|]. apply (canvas_methods_coupled e He).
Defined.

(** ** Failure isolation *)

Section NeverThrows.
Import JS Host Wrappers Script.
Context {X : Type}.

(** C3.  The injected function completes in every environment,
    whichever of the identifiers it uses are bound.  In an engine
    without [WebGLRenderingContext] every other patch is made as the
    script makes it anywhere: [navigator] gets its definitions, both
    canvas methods and the audio method are replaced, the artifacts are
    swept and the marker set on the global object, and the permission
    query is replaced; only the WebGL interface stays absent.  The run
    leaves exactly the environment it leaves in the same engine with
    WebGL, less that interface, and attempts exactly the same changes,
    less the assignment to [getParameter]. *)
Theorem apply_never_throws (e : env X) :
  (run e).1 = Ret tt /\
  (run (without_webgl e)).1 = Ret tt /\
  apply (without_webgl e) = without_webgl (apply e) /\
  trace (without_webgl e) = filter not_webgl (trace e) /\
  canvasElement (apply (without_webgl e))
    = patched_slot (toDataURL_patch (natives e)) (canvasElement e) /\
  audioBuffer (apply (without_webgl e))
    = patched_slot getChannelData_patch (audioBuffer e) /\
  navigator (apply (without_webgl e)) = navigator (apply e) /\
  permissions (apply (without_webgl e)) = permissions (apply e) /\
  window (apply (without_webgl e)) = window (apply e) /\
  webgl (apply (without_webgl e)) = None /\
  navigator (apply (without_webgl e)) = patched_navigator <$> navigator e /\
  context2d (apply (without_webgl e))
    = match canvasElement e with
      | Some (MSlot _ true) => patched_slot getImageData_patch (context2d e)
      | _ => context2d e
      end /\
  window (apply (without_webgl e)) = patched_window <$> window e /\
  permissions (apply (without_webgl e))
    = match navigator e, permissions e with
      | Some _, Some (MSlot (Some origQuery) true) =>
          Some (MSlot (Some (query_patch (natives e) (notification e) (Some origQuery))) true)
      | _, other => other
      end.
Proof.
  destruct (sim_body (X := X) (State e []) (State (without_webgl e) [])) as [_ [Henv Htr]].
  { by split. }
  assert (apply (without_webgl e) = without_webgl (apply e)) as Happ by exact Henv.
  split_and!; try apply run_completes; try done.
  - by rewrite apply_canvasElement.
  - by rewrite apply_audioBuffer.
  - by rewrite Happ.
  - by rewrite Happ.
  - by rewrite Happ.
  - by rewrite Happ.
  - by rewrite apply_navigator.
  - by rewrite apply_context2d.
  - by rewrite apply_window.
  - by rewrite apply_permissions.
Qed.

End NeverThrows.

(** ** The order of the attempts *)

Section OrderOfAttempts.
Import JS Host Wrappers Script.
Local Open Scope js_scope.
Context {X : Type}.

Lemma try_delete_window_trace (s : state X) (w : object) (p : string) :
  win_of s = Some w ->
  exists s', try_ (delete_window p) s = (Ret tt, s') /\
             win_of s' = Some (try_delete w p) /\
             st_trace s' = st_trace s ++ [EvDelete p].
Proof.
  destruct s as [[? ? ? ? ? ? ? wn ?] tr]. unfold win_of. simpl. intros ->.
  unfold try_, delete_window, bind, the_window, global, log. simpl.
  unfold try_delete. destruct (delete_prop w p) as [w'|]; simpl; by eexists.
Qed.

(** The loop attempts one deletion for each name that matches, in the
    order of the names. *)
Lemma sweep_trace (names : list string) (s : state X) (w : object) :
  win_of s = Some w ->
  exists s', sweep names s = (Ret tt, s') /\
             win_of s' = Some (swept names w) /\
             st_trace s'
             = st_trace s ++
               (EvDelete <$> filter (fun k => Regex.test Regex.artifact_re k = true) names).
Proof.
  revert s w. induction names as [|k rest IH]; intros s w Hw.
  - exists s. split_and!; [done..|]. by rewrite app_nil_r.
  - rewrite filter_cons. simpl sweep. rewrite swept_cons.
    destruct (Regex.test Regex.artifact_re k) eqn:Ht.
    + destruct (try_delete_window_trace s w k Hw) as (s1 & E1 & H1 & T1).
      destruct (IH s1 _ H1) as (s2 & E2 & H2 & T2). exists s2. split_and!; [|done|].
      * erewrite bind_run; [exact E2|]. unfold try_ at 1. by rewrite E1.
      * rewrite T2, T1, decide_True by done. by rewrite <- app_assoc.
    + destruct (IH s w Hw) as (s2 & E2 & H2 & T2). exists s2. split_and!; [|done|].
      * erewrite bind_run; [exact E2|]. done.
      * rewrite T2, decide_False; [done|]. by intros ?.
Qed.

Lemma clear_artifacts_trace (s : state X) (w : object) :
  win_of s = Some w ->
  st_trace (after clear_artifacts s)
  = st_trace s ++
    [EvDelete "__webdriver"; EvDelete "_webdriver"] ++
    (EvDelete <$> filter (fun k => Regex.test Regex.artifact_re k = true)
       (getOwnPropertyNames (try_delete (try_delete w "__webdriver") "_webdriver"))).
Proof.
  intros Hw. unfold after, clear_artifacts. rewrite try_state.
  destruct (try_delete_window_trace s w "__webdriver" Hw) as (s1 & E1 & H1 & T1).
  rewrite (bind_run _ _ _ _ _ E1).
  destruct (try_delete_window_trace s1 _ "_webdriver" H1) as (s2 & E2 & H2 & T2).
  rewrite (bind_run _ _ _ _ _ E2).
  assert (the_window s2 = (Ret (try_delete (try_delete w "__webdriver") "_webdriver"), s2))
    as E3 by (unfold the_window, global; unfold win_of in H2; by rewrite H2).
  rewrite (bind_run _ _ _ _ _ E3).
  destruct (sweep_trace (getOwnPropertyNames (try_delete (try_delete w "__webdriver")
              "_webdriver")) s2 _ H2) as (s4 & E4 & H4 & T4).
  rewrite E4. cbn [snd]. rewrite T4, T2, T1. by rewrite <- !app_assoc.
Qed.

Lemma clear_artifacts_silent (s : state X) :
  win_of s = None -> st_trace (after clear_artifacts s) = st_trace s.
Proof.
  intros Hw. unfold after, clear_artifacts. rewrite try_state.
  unfold win_of in Hw.
  unfold bind, try_, delete_window, the_window, bind, global.
  repeat (rewrite Hw; simpl). done.
Qed.

Lemma window_before_artifacts (e : env X) :
  win_of (after patch_audio (after patch_webgl (after patch_canvas
            (after patch_userAgentData (after patch_identity (State e []))))))
  = window e.
Proof.
  unfold win_of.
  rewrite (keeps_after window patch_audio) by (apply keeps_patch_audio; by intros [] ?).
  rewrite (keeps_after window patch_webgl) by (apply keeps_patch_webgl; by intros [] ?).
  rewrite (keeps_after window patch_canvas) by (apply keeps_patch_canvas; by intros [] ?).
  rewrite (keeps_after window patch_userAgentData)
    by (apply keeps_patch_userAgentData; by intros [] ?).
  by rewrite (keeps_after window patch_identity) by (apply keeps_patch_identity; by intros [] ?).
Qed.

Lemma trace_before_artifacts (e : env X) :
  upto Audio (st_trace (after patch_audio (after patch_webgl (after patch_canvas
                (after patch_userAgentData (after patch_identity (State e []))))))).
Proof.
  apply (upto_after WebGL); [apply emits_patch_audio|simpl; lia|].
  apply (upto_after Canvas); [apply emits_patch_webgl|simpl; lia|].
  apply (upto_after UserAgentData); [apply emits_patch_canvas|simpl; lia|].
  apply (upto_after Identity); [apply emits_patch_userAgentData|simpl; lia|].
  apply (upto_after Identity); [apply emits_patch_identity|simpl; lia|].
  split; [|by constructor]. intros i j ev1 ev2 _ H1. simpl in H1. by destruct i.
Qed.

Lemma trace_after_artifacts (s : state X) :
  exists post : list event,
    st_trace (after mark_applied (after patch_plugins (after patch_permissions s)))
    = st_trace s ++ post /\
    Forall (fun ev => (rank Artifacts < rank (block_of ev))%nat) post.
Proof.
  destruct (emits_patch_permissions (X := X) s) as (t7 & H7 & F7).
  destruct (emits_patch_plugins (X := X) (after patch_permissions s)) as (t8 & H8 & F8).
  destruct (emits_mark_applied (X := X) (after patch_plugins (after patch_permissions s)))
    as (t9 & H9 & F9).
  exists (t7 ++ t8 ++ t9). split.
  - unfold after in *. rewrite H9, H8, H7. by rewrite <- !app_assoc.
  - rewrite !Forall_app. split_and!;
      (eapply Forall_impl; [eassumption|]); unfold of_block; intros ev ->; simpl; lia.
Qed.

(** C5, as the code has it.  The changes the script attempts come in
    the order of its blocks: navigator identity, [userAgentData],
    canvas, WebGL, audio, then the artifact deletions, then the
    permission query, the plugin lists and the applied marker.  The
    artifact deletions are, in this order, [__webdriver], [_webdriver]
    and then every name of [Object.getOwnPropertyNames(window)] that
    matches the pattern, in the order of that list as it stands after
    the first two deletions.  The artifact sweep is sixth of nine, not
    last; where [window] is not bound no deletion is attempted. *)
Theorem trace_in_block_order (e : env X) :
  in_order (trace e) /\
  (forall (i j : nat) (p : string) (ev : event),
     trace e !! i = Some (EvDelete p) -> trace e !! j = Some ev ->
     ((j < i)%nat -> block_of ev ∈ [Identity; UserAgentData; Canvas; WebGL; Audio; Artifacts]) /\
     ((i < j)%nat -> block_of ev ∈ [Artifacts; Permissions; Plugins; Marker])) /\
  (forall w : object,
     window e = Some w ->
     exists pre post : list event,
       trace e
       = pre ++
         [EvDelete "__webdriver"; EvDelete "_webdriver"] ++
         (EvDelete <$> filter (fun k => Regex.test Regex.artifact_re k = true)
            (getOwnPropertyNames (try_delete (try_delete w "__webdriver") "_webdriver"))) ++
         post /\
       Forall (fun ev => (rank (block_of ev) < rank Artifacts)%nat) pre /\
       Forall (fun ev => (rank Artifacts < rank (block_of ev))%nat) post) /\
  (window e = None -> forall p : string, EvDelete p ∉ trace e).
Proof.
  assert (upto Marker (trace e)) as [Hord _].
  { unfold trace. rewrite run_blocks.
    apply (upto_after Plugins); [apply emits_mark_applied|simpl; lia|].
    apply (upto_after Permissions); [apply emits_patch_plugins|simpl; lia|].
    apply (upto_after Artifacts); [apply emits_patch_permissions|simpl; lia|].
    apply (upto_after Audio); [apply emits_clear_artifacts|simpl; lia|].
    apply trace_before_artifacts. }
  split; [exact Hord|]. split.
  { intros i j p ev Hi Hj. split; intros Hlt.
    - pose proof (Hord j i ev (EvDelete p) Hlt Hj Hi) as Hle. simpl in Hle.
      destruct (block_of ev); simpl in Hle; try lia; set_solver.
    - pose proof (Hord i j (EvDelete p) ev Hlt Hi Hj) as Hle. simpl in Hle.
      destruct (block_of ev); simpl in Hle; try lia; set_solver. }
  clear Hord.
  pose proof (trace_before_artifacts e) as [_ Hpre].
  pose proof (window_before_artifacts e) as Hwin.
  set (s5 := after patch_audio _) in *.
  destruct (trace_after_artifacts (after clear_artifacts s5)) as (post & Hpost & Fpost).
  assert (Forall (fun ev => (rank (block_of ev) < rank Artifacts)%nat) (st_trace s5)) as Fpre.
  { eapply Forall_impl; [exact Hpre|]. simpl. intros; lia. }
  split.
  - intros w Hw. exists (st_trace s5), post. split_and!; [|done..].
    unfold trace. rewrite run_blocks. fold s5. rewrite Hpost.
    rewrite (clear_artifacts_trace s5 w) by (by rewrite Hwin).
    by rewrite <- !app_assoc.
  - intros Hw p Hin. unfold trace in Hin. rewrite run_blocks in Hin. fold s5 in Hin.
    rewrite Hpost, clear_artifacts_silent in Hin by (by rewrite Hwin).
    apply elem_of_app in Hin as [Hin|Hin].
    + apply (proj1 (Forall_forall _ _) Fpre) in Hin. simpl in Hin. lia.
    + apply (proj1 (Forall_forall _ _) Fpost) in Hin. simpl in Hin. lia.
Qed.
End OrderOfAttempts.

(** C5 as stated fails: in a headless engine the deletion of
    [__webdriver] is followed by the assignment to [permissions.query]. *)
Lemma artifact_sweep_not_last :
  ~ (forall (e : Host.env nat) (i j : nat) (p : string) (ev : Script.event),
       Script.trace e !! i = Some (Script.EvDelete p) ->
       Script.trace e !! j = Some ev ->
       (forall q, ev <> Script.EvDelete q) ->
       (j < i)%nat).
Proof.
  intros H.
  specialize (H (Demo.headless []) 11%nat 15%nat "__webdriver"
                (Script.EvAssign Script.PermissionsQuery)).
  assert (15 < 11)%nat; [|lia].
  apply H; [reflexivity|reflexivity|discriminate].
Qed.


(** ** The canvas export *)

Section CanvasExport.
Import JS Host Wrappers Script.
Context {X : Type}.

(** C7, as the code has it.  Where assignment to
    [HTMLCanvasElement.prototype.toDataURL] is possible, the script
    installs a method that returns what the engine's encoder returns,
    called with the same [this] and arguments, and nothing of its own.
    Before the encoder runs, a canvas that has [getContext] is asked for
    its 2D context; if the answer is truthy its fill style is set to
    [rgba(0,0,0,0)] and, unless that throws, [fillRect(0, 0, 1, 1)] is
    called; every failure on the way is swallowed.  The encoder sees the
    document those calls left.  So the export is the unpatched one
    whenever they leave the document as it was, as they must when the
    canvas has no [getContext]. *)
Theorem toDataURL_patch_spec (e : env X) (orig : option (meth X)) :
  canvasElement e = Some (MSlot orig true) ->
  exists f : meth X,
    canvasElement (apply e) = Some (MSlot (Some f) true) /\
    forall (d : doc X) (this : value) (args : list value),
      (exists d' : doc X, f d this args = call orig d' this args) /\
      (getContext (natives e) = None -> f d this args = call orig d this args) /\
      (forall (gc : meth X) (d1 : doc X) (r : outcome value),
         getContext (natives e) = Some gc ->
         gc d this [VStr "2d"] = (d1, r) ->
         match r with Ret ctx => truthy ctx = false | Throw _ => True end ->
         f d this args = call orig d1 this args) /\
      (forall (gc : meth X) (d1 d2 : doc X) (ctx : value) (r2 : outcome value),
         getContext (natives e) = Some gc ->
         gc d this [VStr "2d"] = (d1, Ret ctx) ->
         truthy ctx = true ->
         setFillStyle (natives e) d1 ctx [VStr "rgba(0,0,0,0)"] = (d2, r2) ->
         f d this args
         = call orig
             (match r2 with
              | Ret _ => (fillRect (natives e) d2 ctx [VNum 0; VNum 0; VNum 1; VNum 1]).1
              | Throw _ => d2
              end) this args) /\
      ((forall gc : meth X,
          getContext (natives e) = Some gc -> (gc d this [VStr "2d"]).1 = d) ->
       (forall ctx : value, (setFillStyle (natives e) d ctx [VStr "rgba(0,0,0,0)"]).1 = d) ->
       (forall ctx : value,
          (fillRect (natives e) d ctx [VNum 0; VNum 0; VNum 1; VNum 1]).1 = d) ->
       f d this args = call orig d this args).
Proof.
  intros He. exists (toDataURL_patch (natives e) orig). split.
  - by rewrite apply_canvasElement, He.
  - intros d this args. unfold toDataURL_patch. split_and!.
    + by eexists.
    + intros Hgc. unfold touch. by rewrite Hgc.
    + intros gc d1 r Hgc Hr Hfalsy. unfold touch. rewrite Hgc, Hr.
      destruct r as [ctx|]; [by rewrite Hfalsy|done].
    + intros gc d1 d2 ctx r2 Hgc Hr Ht Hs. unfold touch. rewrite Hgc, Hr, Ht, Hs.
      by destruct r2.
    + intros Hg Hs Hf. f_equal. unfold touch.
      destruct (getContext (natives e)) as [gc|] eqn:Hgc; [|done].
      specialize (Hg gc eq_refl). destruct (gc d this [VStr "2d"]) as [d1 r]. simpl in Hg.
      subst d1. destruct r as [ctx|]; [|done]. destruct (truthy ctx); [|done].
      specialize (Hs ctx). destruct (setFillStyle _ _ _ _) as [d2 r2]. simpl in Hs. subst d2.
      destruct r2; [apply Hf|done].
Qed.

End CanvasExport.

(** C7 as stated fails: for a canvas that carries a WebGL context
    [getContext('2d')] is [null], nothing is painted, and the export is
    the engine's own. *)
Lemma toDataURL_patch_same_export :
  ~ (forall (host : Host.canvas_natives nat) (orig : option (Host.meth nat))
            (d : Host.doc nat) (this : JS.value) (args : list JS.value),
       (Wrappers.toDataURL_patch host orig d this args).2 <> (Host.call orig d this args).2).
Proof.
  intros H.
  by apply (H Demo.webgl_canvas (Some Demo.native_toDataURL) (Demo.engine_doc ∅ ∅)
              (JS.VRef 0%nat) []).
Qed.

(** On a canvas with a 2D context the fill is made, and the export is
    still the unpatched one: a fill without opacity changes no pixel.
    What the call does leave behind is the fill style of the context. *)
Lemma painted_canvas_export (style : string) (content : list Z) :
  let d := Demo.painted_doc style content in
  let r := Wrappers.toDataURL_patch Demo.canvas2d (Some Demo.encode2d) d (JS.VRef 0%nat) [] in
  r.2 = (Demo.encode2d d (JS.VRef 0%nat) []).2 /\
  r.1 = Demo.painted_doc "rgba(0,0,0,0)" content.
Proof. done. Qed.

Lemma toDataURL_patch_spec_witness :
  let e := Demo.painter in
  let orig := Some Demo.encode2d in
  Host.canvasElement e = Some (Host.MSlot orig true) /\
  exists f : Host.meth Demo.canvas,
    Host.canvasElement (Script.apply e) = Some (Host.MSlot (Some f) true) /\
    forall (d : Host.doc Demo.canvas) (this : JS.value) (args : list JS.value),
      (exists d' : Host.doc Demo.canvas, f d this args = Host.call orig d' this args) /\
      (Host.getContext (Host.natives e) = None -> f d this args = Host.call orig d this args) /\
      (forall (gc : Host.meth Demo.canvas) (d1 : Host.doc Demo.canvas) (r : JS.outcome JS.value),
         Host.getContext (Host.natives e) = Some gc ->
         gc d this [JS.VStr "2d"] = (d1, r) ->
         match r with JS.Ret ctx => JS.truthy ctx = false | JS.Throw _ => True end ->
         f d this args = Host.call orig d1 this args) /\
      (forall (gc : Host.meth Demo.canvas) (d1 d2 : Host.doc Demo.canvas) (ctx : JS.value)
              (r2 : JS.outcome JS.value),
         Host.getContext (Host.natives e) = Some gc ->
         gc d this [JS.VStr "2d"] = (d1, JS.Ret ctx) ->
         JS.truthy ctx = true ->
         Host.setFillStyle (Host.natives e) d1 ctx [JS.VStr "rgba(0,0,0,0)"] = (d2, r2) ->
         f d this args
         = Host.call orig
             (match r2 with
              | JS.Ret _ =>
                  (Host.fillRect (Host.natives e) d2 ctx
                     [JS.VNum 0; JS.VNum 0; JS.VNum 1; JS.VNum 1]).1
              | JS.Throw _ => d2
              end) this args) /\
      ((forall gc : Host.meth Demo.canvas,
          Host.getContext (Host.natives e) = Some gc -> (gc d this [JS.VStr "2d"]).1 = d) ->
       (forall ctx : JS.value,
          (Host.setFillStyle (Host.natives e) d ctx [JS.VStr "rgba(0,0,0,0)"]).1 = d) ->
       (forall ctx : JS.value,
          (Host.fillRect (Host.natives e) d ctx
             [JS.VNum 0; JS.VNum 0; JS.VNum 1; JS.VNum 1]).1 = d) ->
       f d this args = Host.call orig d this args).
Proof.
  intros e orig. split; [reflexivity|].
  apply (toDataURL_patch_spec e orig). reflexivity.
Defined.

(** ** The plugin lists *)

Section PluginLists.
Import JS Host Wrappers Script.
Context {X : Type}.





End PluginLists.


